(** * FAA advisory ingestion: a shallow embedding of the serverless functions

    The development follows the two handlers of the repository:
    the write trigger (fetch, relevance filter, detail extraction, upsert)
    and the read endpoint (list a collection).

    Conventions of the embedding.
    - A JavaScript string is a sequence of 16-bit code units.  The texts
      the parsers and the filter handle are [string]s, whose characters
      are the code units below 256.  On them the classes [\w] and [\d] are
      the ASCII ones and the case-insensitive comparison acts on the
      letters a-z, as in a regular expression without the unicode flag,
      and [trim] strips the white space these characters can be.  The
      month lookup is modelled twice: on all strings of code units, with
      the upper-casing of Unicode ([Wide.getMonth]), and on [string]s
      ([getMonth]), where upper-casing the letters a-z is all the lookup
      can tell; the two agree ([getMonth_wide]).
    - [undefined] is [None]; a thrown exception is [Throw e].
    - [console.log] and [console.error] append a line to a log.
    - The document store and the upstream HTTP service are external to the
      repository: the store is a state ([Server]) with the driver's
      documented operations, the outcome of the requests is given by the
      surroundings ([World]), and the constructor of the client, which
      may reject a connection string, is a parameter ([MongoClient]).
    - A loop of the program that a regular expression drives takes a
      number of iterations allowed; [None] stands for a loop that does not
      end, and the properties show that it is never the answer. *)

From Stdlib Require Import ZArith Ascii String DecimalString.
From stdpp Require Import base option list strings gmap.

Local Open Scope Z_scope.

(** ** JavaScript values and string primitives *)

Module JS.

(** Exceptions: only the constructor and the message are observable. *)
Inductive exn : Type :=
| Error (message : string)
| TypeError (message : string).

Definition message (e : exn) : string :=
  match e with
  | Error m => m
  | TypeError m => m
  end.

Inductive result (A : Type) : Type :=
| Ok (a : A)
| Throw (e : exn).
Arguments Ok {A} a.
Arguments Throw {A} e.

Definition bind {A B : Type} (r : result A) (f : A -> result B) : result B :=
  match r with
  | Ok a => f a
  | Throw e => Throw e
  end.

(** [try { r } catch (e) { h e }] *)
Definition try_catch {A : Type} (r : result A) (h : exn -> result A) : result A :=
  match r with
  | Ok a => Ok a
  | Throw e => h e
  end.

Definition is_ok {A : Type} (r : result A) : bool :=
  match r with
  | Ok _ => true
  | Throw _ => false
  end.

(** The numbers the program handles are integers, or [NaN] (the year of
    an invalid date). *)
Inductive number : Type :=
| NaN
| Num (z : Z).

(** [String(n)] and [`${n}`] *)
Definition String_ (n : number) : string :=
  match n with
  | NaN => "NaN"
  | Num z => NilZero.string_of_int (Z.to_int z)
  end.

(** Reading a property of [undefined] throws (the message is V8's). *)
Definition undefined_property (name : string) : exn :=
  TypeError ("Cannot read properties of undefined (reading '" +:+ name +:+ "')").

Definition method {A : Type} (name : string) (f : string -> A)
    (receiver : option string) : result A :=
  match receiver with
  | Some s => Ok (f s)
  | None => Throw (undefined_property name)
  end.

Definition code (c : ascii) : N := N_of_ascii c.

Definition between (lo hi : N) (c : ascii) : bool :=
  ((lo <=? code c) && (code c <=? hi))%N.

Definition is_lower : ascii -> bool := between 97 122.
Definition is_upper : ascii -> bool := between 65 90.
Definition is_digit : ascii -> bool := between 48 57.

(** [\w] : letters, digits and the underscore *)
Definition is_word (c : ascii) : bool :=
  is_lower c || is_upper c || is_digit c || (code c =? 95)%N.

(** white space and line ends as [trim] sees them, among the code units
    below 256: tab to carriage return, the space and the no-break space *)
Definition is_white (c : ascii) : bool :=
  between 9 13 c || (code c =? 32)%N || (code c =? 160)%N.

Definition upper_char (c : ascii) : ascii :=
  if is_lower c then ascii_of_N (code c - 32) else c.

(** [s.toUpperCase()] as far as the month lookup tells: the letters
    a-z in upper case.  The upper case of the other characters is not
    among the characters of a [string]; the upper-casing of all code
    units is [Wide.toUpperCase]. *)
Fixpoint toUpperCase (s : string) : string :=
  match s with
  | EmptyString => EmptyString
  | String c s' => String (upper_char c) (toUpperCase s')
  end.

Fixpoint trimStart (s : string) : string :=
  match s with
  | EmptyString => EmptyString
  | String c s' => if is_white c then trimStart s' else s
  end.

Fixpoint trimEnd (s : string) : string :=
  match s with
  | EmptyString => EmptyString
  | String c s' =>
      match trimEnd s' with
      | EmptyString => if is_white c then EmptyString else String c EmptyString
      | t => String c t
      end
  end.

Definition trim (s : string) : string := trimEnd (trimStart s).

(** [s.includes(c)] for a one-character needle *)
Fixpoint includes (c : ascii) (s : string) : bool :=
  match s with
  | EmptyString => false
  | String a s' => Ascii.eqb a c || includes c s'
  end.

(** [s.split(c)] for a one-character separator: never empty *)
Fixpoint split (sep : ascii) (s : string) : list string :=
  match s with
  | EmptyString => [EmptyString]
  | String c s' =>
      if Ascii.eqb c sep then EmptyString :: split sep s'
      else match split sep s' with
           | h :: t => String c h :: t
           | [] => [String c EmptyString]
           end
  end.

(** [s.slice(from, to)] with constant indices [0 <= from <= to] *)
Definition slice (from to : nat) (s : string) : string :=
  substring from (to - from) s.

Fixpoint repeat_char (c : ascii) (n : nat) : string :=
  match n with
  | O => EmptyString
  | S n' => String c (repeat_char c n')
  end.

(** [s.padStart(width, c)] for a one-character filler *)
Definition padStart (width : nat) (c : ascii) (s : string) : string :=
  repeat_char c (width - String.length s) +:+ s.

End JS.

Import JS.

Notation "x <- r ;; k" := (JS.bind r (fun x => k))
  (at level 100, r at next level, right associativity, only parsing).

(** ** Data model *)

Record ParsedDetail : Type := mkParsedDetail {
  type : string;
  startDate : string;
  endDate : string;
  startTime : string;
  endTime : string;
  startDatetime : string;
  endDatetime : string;
}.

(** ** Month lookup *)

Definition monthMap : list (string * Z) :=
  [("JAN", 1); ("FEB", 2); ("MAR", 3); ("APR", 4); ("MAY", 5); ("JUN", 6);
   ("JUL", 7); ("AUG", 8); ("SEP", 9); ("OCT", 10); ("NOV", 11); ("DEC", 12)].

(** [monthMap[key]]: the own properties of the object.  The inherited
    properties of an object literal all have a lower-case letter in their
    name, and the only key looked up is the result of [toUpperCase]. *)
Fixpoint property (key : string) (o : list (string * Z)) : option Z :=
  match o with
  | [] => None
  | (k, v) :: o' => if String.eqb k key then Some v else property key o'
  end.

(** [!month] *)
Definition falsy (m : option Z) : bool :=
  match m with
  | None => true
  | Some v => v =? 0
  end.

Definition getMonth (abbrev : option string) : result Z :=
  key <- method "toUpperCase" toUpperCase abbrev ;;
  let month := property key monthMap in
  if falsy month
  then Throw (Error ("Invalid month abbreviation: " +:+ default "undefined" abbrev))
  else Ok (default 0 month).

(** ** Date-range parser *)

Definition pad2 : string -> string := padStart 2 "0".

(** [`${year}-${month}-${day}`] *)
Definition isoDate (year : number) (month : string) (day : string) : string :=
  String_ year +:+ "-" +:+ month +:+ "-" +:+ day.

Definition parseDatePart (datePart : string) (year : number) : result (string * string) :=
  let parts := map trim (split "/" datePart) in
  if negb (Nat.eqb (length parts) 2)
  then Throw (Error ("Invalid date part format: " +:+ datePart))
  else
    let first := default EmptyString (parts !! 0%nat) in
    let second := default EmptyString (parts !! 1%nat) in
    try_catch
      (if includes " " first then
         let a := split " " first in
         let b := split " " second in
         let (day1, mon1) := (a !! 0%nat, a !! 1%nat) in
         let (day2, mon2) := (b !! 0%nat, b !! 1%nat) in
         m1 <- getMonth mon1 ;;
         d1 <- method "padStart" pad2 day1 ;;
         let startDate := isoDate year (pad2 (String_ (Num m1))) d1 in
         m2 <- getMonth mon2 ;;
         d2 <- method "padStart" pad2 day2 ;;
         let endDate := isoDate year (pad2 (String_ (Num m2))) d2 in
         Ok (startDate, endDate)
       else
         let day1 := first in
         let b := split " " second in
         let (day2, mon) := (b !! 0%nat, b !! 1%nat) in
         month <- getMonth mon ;;
         let startDate := isoDate year (pad2 (String_ (Num month))) (pad2 day1) in
         d2 <- method "padStart" pad2 day2 ;;
         let endDate := isoDate year (pad2 (String_ (Num month))) d2 in
         Ok (startDate, endDate))
      (fun e => Throw (Error ("Failed to parse date part: " +:+ datePart
                              +:+ ", error: " +:+ message e))).

(** ** Time-range parser *)

(** [`${t.slice(0, 2)}:${t.slice(2, 4)}:00Z`] *)
Definition clock (t : string) : string :=
  slice 0 2 t +:+ ":" +:+ slice 2 4 t +:+ ":00Z".

Definition parseTimePart (timePart : string) : result (string * string) :=
  let parts := split "-" timePart in
  let (start, end_) := (parts !! 0%nat, parts !! 1%nat) in
  try_catch
    (startTime <- method "slice" clock start ;;
     endTime <- method "slice" clock end_ ;;
     Ok (startTime, endTime))
    (fun e => Throw (Error ("Failed to parse time part: " +:+ timePart
                            +:+ ", error: " +:+ message e))).

(** ** Regular expressions

    The fragment of the ECMAScript syntax the two patterns of the program
    use, with the backtracking semantics of the language: a quantifier is
    greedy, an alternative is tried left to right, a capture group records
    the last text it matched. *)

Module RegExp.

Inductive cclass : Type :=
| Word   (* \w *)
| Digit. (* \d *)

Inductive regex : Type :=
| Eps
| Chr (c : ascii)
| Cls (c : cclass)
| Cat (r1 r2 : regex)
| Alt (r1 r2 : regex)
| Opt (r : regex)                                  (* r? *)
| Many (min : nat) (max : option nat) (c : cclass) (* c+, c{n} *)
| Cap (n : nat) (r : regex).                       (* the n-th ( ) *)

Fixpoint lit (s : string) : regex :=
  match s with
  | EmptyString => Eps
  | String c s' => Cat (Chr c) (lit s')
  end.

Definition in_class (c : cclass) (a : ascii) : bool :=
  match c with
  | Word => is_word a
  | Digit => is_digit a
  end.

(** Characters are compared after canonicalisation when the flag [i]
    is set. *)
Definition same_char (ignoreCase : bool) (a c : ascii) : bool :=
  if ignoreCase then Ascii.eqb (upper_char a) (upper_char c) else Ascii.eqb a c.

(** The captures: group number, start and end offset. *)
Definition caps : Type := list (nat * (nat * nat)).

Fixpoint capture (n : nat) (cs : caps) : option (nat * nat) :=
  match cs with
  | [] => None
  | (i, span) :: cs' => if Nat.eqb i n then Some span else capture n cs'
  end.

(** A continuation receives the offset reached, the text left and the
    captures; it answers with the end of the whole match. *)
Definition cont : Type := nat -> string -> caps -> option (nat * caps).

Definition counted (min : nat) (k : option (nat * caps)) : option (nat * caps) :=
  match min with
  | O => k
  | S _ => None
  end.

Definition exhausted (max : option nat) : bool :=
  match max with
  | Some O => true
  | _ => false
  end.

(** A quantified class: take one more character first, stop otherwise. *)
Fixpoint many (c : cclass) (min : nat) (max : option nat)
    (pos : nat) (rest : string) (cs : caps) (k : cont) {struct rest}
    : option (nat * caps) :=
  match rest with
  | String a rest' =>
      if in_class c a && negb (exhausted max) then
        match many c (pred min) (pred <$> max) (S pos) rest' cs k with
        | Some r => Some r
        | None => counted min (k pos rest cs)
        end
      else counted min (k pos rest cs)
  | EmptyString => counted min (k pos rest cs)
  end.

Fixpoint matcher (ignoreCase : bool) (r : regex)
    (pos : nat) (rest : string) (cs : caps) (k : cont) {struct r}
    : option (nat * caps) :=
  match r with
  | Eps => k pos rest cs
  | Chr c =>
      match rest with
      | String a rest' =>
          if same_char ignoreCase a c then k (S pos) rest' cs else None
      | EmptyString => None
      end
  | Cls c =>
      match rest with
      | String a rest' => if in_class c a then k (S pos) rest' cs else None
      | EmptyString => None
      end
  | Cat r1 r2 =>
      matcher ignoreCase r1 pos rest cs
        (fun pos' rest' cs' => matcher ignoreCase r2 pos' rest' cs' k)
  | Alt r1 r2 =>
      match matcher ignoreCase r1 pos rest cs k with
      | Some r => Some r
      | None => matcher ignoreCase r2 pos rest cs k
      end
  | Opt r1 =>
      match matcher ignoreCase r1 pos rest cs k with
      | Some r => Some r
      | None => k pos rest cs
      end
  | Many min max c => many c min max pos rest cs k
  | Cap n r1 =>
      matcher ignoreCase r1 pos rest cs
        (fun pos' rest' cs' => k pos' rest' ((n, (pos, pos')) :: cs'))
  end.

Definition accept : cont := fun pos _ cs => Some (pos, cs).

(** The first offset, from [pos] on, at which the expression matches:
    start, end and captures. *)
Fixpoint search (ignoreCase : bool) (r : regex) (pos : nat) (rest : string)
    : option (nat * (nat * caps)) :=
  match matcher ignoreCase r pos rest [] accept with
  | Some m => Some (pos, m)
  | None =>
      match rest with
      | String _ rest' => search ignoreCase r (S pos) rest'
      | EmptyString => None
      end
  end.

Fixpoint drop (n : nat) (s : string) : string :=
  match n, s with
  | S n', String _ s' => drop n' s'
  | _, _ => s
  end.

Record RegExp : Type := mkRegExp {
  source : regex;
  ignoreCase : bool; (* the flag i *)
  global : bool;     (* the flag g *)
}.

(** The result array of [exec]: where the match starts, its text and
    the text of each group. *)
Record Match : Type := mkMatch {
  index : nat;
  matched : string;
  groups : list (option string);
}.

Definition text (s : string) (span : nat * nat) : string :=
  substring (fst span) (snd span - fst span) s.

Definition group (i : nat) (m : Match) : option string :=
  mjoin (groups m !! (i - 1)%nat).

(** [re.exec(s)].  The property [lastIndex] of the expression is
    threaded: the answer comes with its new value.  With the flag [g] the
    search starts at [lastIndex], which moves to the end of the match, or
    back to 0 when there is none; without it the search starts at 0 and
    [lastIndex] stays. *)
Definition exec (re : RegExp) (ngroups : nat) (s : string) (lastIndex : nat)
    : option Match * nat :=
  let from := if global re then lastIndex else O in
  if (String.length s <? from)%nat then (None, O)
  else
    match search (ignoreCase re) (source re) from (drop from s) with
    | None => (None, if global re then O else lastIndex)
    | Some (start, (stop, cs)) =>
        (Some {| index := start;
                 matched := text s (start, stop);
                 groups := map (fun i => text s <$> capture i cs) (seq 1 ngroups) |},
         if global re then stop else lastIndex)
    end.

(** [re.test(s)], for an expression never used before *)
Definition test (re : RegExp) (ngroups : nat) (s : string) : bool :=
  bool_decide (is_Some (fst (exec re ngroups s O))).

End RegExp.

Import RegExp.

(** ** Detail extractor *)

Notation "r1 ⋅ r2" := (Cat r1 r2) (at level 41, right associativity).

Definition word_plus : regex := Many 1 None Word.
Definition digit_plus : regex := Many 1 None Digit.
Definition digit_4 : regex := Many 4 (Some 4%nat) Digit.

(** [(\w+ Launch Day(?: \(\d+\))?)] *)
Definition label_re : regex :=
  word_plus ⋅ lit " Launch Day" ⋅ Opt (lit " (" ⋅ digit_plus ⋅ Chr ")").

(** [(\d+\/\d+ \w+|\d+ \w+\/\d+ \w+)] *)
Definition date_re : regex :=
  Alt (digit_plus ⋅ Chr "/" ⋅ digit_plus ⋅ Chr " " ⋅ word_plus)
      (digit_plus ⋅ Chr " " ⋅ word_plus ⋅ Chr "/" ⋅ digit_plus ⋅ Chr " " ⋅ word_plus).

(** [(\d{4}Z-\d{4}Z)] *)
Definition time_re : regex :=
  digit_4 ⋅ Chr "Z" ⋅ Chr "-" ⋅ digit_4 ⋅ Chr "Z".

(** the expression of [parseDetails], with the flag [g] *)
Definition pattern : RegExp :=
  {| source := Cap 1 label_re ⋅ Chr " " ⋅ Cap 2 date_re ⋅ Chr " " ⋅ Cap 3 time_re;
     ignoreCase := false;
     global := true |}.

(** The body of the [try] block for one match. *)
Definition parseEntry (m : Match) (advisoryStartYear : number) : result ParsedDetail :=
  let (type, datePart) := (group 1 m, group 2 m) in
  let timePart := group 3 m in
  datePart <- method "split" id datePart ;;
  dates <- parseDatePart datePart advisoryStartYear ;;
  timePart <- method "split" id timePart ;;
  times <- parseTimePart timePart ;;
  let '(startDate, endDate) := dates in
  let '(startTime, endTime) := times in
  Ok {| type := default EmptyString type;
        startDate := startDate;
        endDate := endDate;
        startTime := startTime;
        endTime := endTime;
        startDatetime := startDate +:+ "T" +:+ startTime;
        endDatetime := endDate +:+ "T" +:+ endTime |}.

Definition entry_error (m : Match) (e : exn) : string :=
  "Error parsing detail entry: " +:+ matched m +:+ ", error: " +:+ message e.

(** The [while] loop of [parseDetails]; [lastIndex] is the state of the
    expression, [parsedList] the array being filled.  [None] when the
    iterations allowed are used up before [exec] answers [null]. *)
Fixpoint parseDetails_loop (fuel : nat) (details : string) (advisoryStartYear : number)
    (lastIndex : nat) (parsedList : list ParsedDetail) (log : list string)
    : option (list ParsedDetail * list string) :=
  match fuel with
  | O => None
  | S fuel' =>
      match exec pattern 3 details lastIndex with
      | (None, _) => Some (parsedList, log)
      | (Some m, lastIndex') =>
          match parseEntry m advisoryStartYear with
          | Ok entry =>
              parseDetails_loop fuel' details advisoryStartYear lastIndex'
                (parsedList ++ [entry]) log
          | Throw e =>
              parseDetails_loop fuel' details advisoryStartYear lastIndex'
                parsedList (log ++ [entry_error m e])
          end
      end
  end.

(** Every match takes at least one character, so that the loop is left
    after at most [length details] matches (see [scan_enough]). *)
Definition parseDetails (details : string) (advisoryStartYear : number)
    : option (list ParsedDetail * list string) :=
  parseDetails_loop (S (String.length details)) details advisoryStartYear O [] [].

(** ** Advisories and the relevance filter *)

Record Advisory : Type := mkAdvisory {
  advisoryid : Z;
  advisorystarttime : string;
  summary : string;
  details : string;
  (** the descriptive fields the program never reads, by name *)
  others : list (string * string);
  parsedDetails : option (list ParsedDetail);
}.

(** [/(Starship|SpaceX|Starlink)/i] *)
Definition keywords : RegExp :=
  {| source := Cap 1 (Alt (lit "Starship") (Alt (lit "SpaceX") (lit "Starlink")));
     ignoreCase := true;
     global := false |}.

Definition relevant (advisory : Advisory) : bool :=
  test keywords 1 (summary advisory).

(** ** The document store

    The driver's [replaceOne(filter, replacement, {upsert: true})] and
    [find().toArray()], on a collection kept in insertion order.  A
    document is the stored object with the [_id] the store gave it. *)

Module Store.

Record Document : Type := mkDocument {
  _id : nat;
  doc : Advisory;
}.

Definition Collection : Type := list Document.

Record ReplaceResult : Type := mkReplaceResult {
  matchedCount : nat;
  upsertedId : option nat;
}.

Definition fresh (c : Collection) : nat := S (foldr Nat.max O (map _id c)).

(** the filter [{ advisoryid: key }] *)
Definition matches (key : Z) (d : Document) : bool :=
  advisoryid (doc d) =? key.

(** Replace the first document the filter selects, keeping its [_id]. *)
Fixpoint replaceFirst (key : Z) (replacement : Advisory) (c : Collection)
    : option Collection :=
  match c with
  | [] => None
  | d :: c' =>
      if matches key d then Some ({| _id := _id d; doc := replacement |} :: c')
      else cons d <$> replaceFirst key replacement c'
  end.

Definition replaceOne (key : Z) (replacement : Advisory) (c : Collection)
    : Collection * ReplaceResult :=
  match replaceFirst key replacement c with
  | Some c' => (c', {| matchedCount := 1; upsertedId := None |})
  | None =>
      (c ++ [{| _id := fresh c; doc := replacement |}],
       {| matchedCount := 0; upsertedId := Some (fresh c) |})
  end.

Definition findOne (key : Z) (c : Collection) : option Document :=
  List.find (matches key) c.

(** A server holds the collections by database and collection name; a
    collection not yet written to is empty. *)
Abbreviation Server := (gmap (string * string) Collection).

Definition collection (db name : string) (srv : Server) : Collection :=
  default [] (srv !! (db, name)).

Definition store (db name : string) (c : Collection) (srv : Server) : Server :=
  <[(db, name) := c]> srv.

End Store.

Import Store.

(** ** Ingestion pipeline *)

(** What the program's surroundings decide in one invocation. *)
Record World : Type := mkWorld {
  (** [process.env.MONGODB_URI] *)
  MONGODB_URI : option string;
  (** [client.connect()] rejects *)
  connectFault : option exn;
  (** [fetch(...)], [response.json()] and [data.rows]: the rows, or the
      exception one of the three raises *)
  upstream : result (list Advisory);
  (** the successive calls of [replaceOne]: the exception of a call that
      rejects; the calls after the last listed succeed *)
  replaceFaults : list (option exn);
  (** [find().toArray()] rejects *)
  findFault : option exn;
  (** [client.close()] rejects *)
  closeFault : option exn;
}.

(** The state one invocation of the pipeline threads. *)
Record State : Type := mkState {
  stored : Collection;
  faults : list (option exn);
  console : list string;
}.

Definition say (line : string) (st : State) : State :=
  {| stored := stored st; faults := faults st; console := console st ++ [line] |}.

Definition id_text (a : Advisory) : string := String_ (Num (advisoryid a)).

(** [await collection.replaceOne(...)] *)
Definition awaitReplaceOne (key : Z) (replacement : Advisory) (st : State)
    : result ReplaceResult * State :=
  match faults st with
  | Some e :: rest =>
      (Throw e, {| stored := stored st; faults := rest; console := console st |})
  | fs =>
      let (c, r) := replaceOne key replacement (stored st) in
      (Ok r, {| stored := c; faults := tail fs; console := console st |})
  end.

Section Pipeline.

(** [new Date(s).getUTCFullYear()]: a function of the runtime, [NaN] for
    a text that is no date. *)
Variable getUTCFullYear : string -> number.

(** [new MongoClient(uri)]: the driver reads the connection string in the
    constructor and throws on one it cannot read: the exception thrown,
    a function of the string. *)
Variable MongoClient : string -> option exn.

(** [{ ...advisory, parsedDetails }] *)
Definition enrich (advisory : Advisory) (parsed : list ParsedDetail) : Advisory :=
  {| advisoryid := advisoryid advisory;
     advisorystarttime := advisorystarttime advisory;
     summary := summary advisory;
     details := details advisory;
     others := others advisory;
     parsedDetails := Some parsed |}.

(** The enrichment of an advisory: the windows of its details, under
    the year of its start time. *)
Definition enriched (advisory : Advisory) : Advisory :=
  enrich advisory
    (from_option fst []
       (parseDetails (details advisory)
          (getUTCFullYear (advisorystarttime advisory)))).

(** The body of the [for] loop, with its [try] and [catch].  [None]
    only when [parseDetails] is. *)
Definition processAdvisory (advisory : Advisory) (st : State) : option State :=
  let startYear := getUTCFullYear (advisorystarttime advisory) in
  '(parsed, lines) ← parseDetails (details advisory) startYear;
  let st := {| stored := stored st; faults := faults st;
               console := console st ++ lines |} in
  let updatedAdvisory := enrich advisory parsed in
  let (result, st) := awaitReplaceOne (advisoryid updatedAdvisory) updatedAdvisory st in
  Some match result with
       | Ok r =>
           if (0 <? matchedCount r)%nat
           then say ("Updated advisory " +:+ id_text updatedAdvisory) st
           else if bool_decide (is_Some (upsertedId r))
           then say ("Inserted advisory " +:+ id_text updatedAdvisory) st
           else say ("No action for advisory " +:+ id_text updatedAdvisory) st
       | Throw e =>
           say ("Error processing advisory " +:+ id_text advisory +:+ ": " +:+ message e) st
       end.

Fixpoint processAll (advisories : list Advisory) (st : State) : option State :=
  match advisories with
  | [] => Some st
  | advisory :: rest => st' ← processAdvisory advisory st; processAll rest st'
  end.

(** The function swallows every exception: it has no failing outcome. *)
Definition fetchAndProcessAdvisories (w : World) (st : State) : option State :=
  match upstream w with
  | Ok rows => processAll (List.filter relevant rows) st
  | Throw e => Some (say ("Error fetching advisories: " +:+ message e) st)
  end.

(** ** The two endpoints *)

Inductive Body : Type :=
| End_
| Message (message : string)
| Advisories (advisories : list Document).

Record Response : Type := mkResponse {
  status : Z;
  body : Body;
}.

(** What an invocation leaves: the answer sent or, when the handler
    throws before it sends one, the exception that escapes it; the
    server; the lines logged; the exception of [client.close()], which
    escapes the handler after the answer is sent. *)
Record Outcome : Type := mkOutcome {
  answer : result Response;
  server : Server;
  logged : list string;
  closing : option exn;
}.

Definition respond (code : Z) (b : Body) (srv : Server) (log : list string) : Outcome :=
  {| answer := Ok {| status := code; body := b |}; server := srv; logged := log;
     closing := None |}.

(** An exception that escapes before an answer is sent. *)
Definition escape (e : exn) (srv : Server) : Outcome :=
  {| answer := Throw e; server := srv; logged := []; closing := None |}.

(** [finally { await client.close(); }] *)
Definition finally_close (w : World) (out : Outcome) : Outcome :=
  {| answer := answer out; server := server out; logged := logged out;
     closing := closeFault w |}.

Definition server_error (e : exn) (srv : Server) (log : list string) : Outcome :=
  respond 500 (Message ("Server error: " +:+ message e)) srv
    (log ++ ["Error: " +:+ message e]).

(** The [try] and [catch] blocks of the write trigger. *)
Definition handler_try (method : string) (w : World) (srv : Server) : option Outcome :=
  match connectFault w with
  | Some e => Some (server_error e srv [])
  | None =>
      let collection := collection "advisories_db" "starship_advisories" srv in
      if String.eqb method "POST" then
        st ← fetchAndProcessAdvisories w
               {| stored := collection; faults := replaceFaults w; console := [] |};
        Some (respond 200 (Message "Advisories processed")
                (store "advisories_db" "starship_advisories" (stored st) srv)
                (console st))
      else Some (respond 405 (Message "Method not allowed") srv [])
  end.

(** The write trigger ([POST /spacex/fetch-new-advisories]).  The
    response headers are left out.  The client is built before the [try]
    block: an exception of the constructor escapes. *)
Definition handler (method : string) (w : World) (srv : Server) : option Outcome :=
  if String.eqb method "OPTIONS" then Some (respond 200 End_ srv [])
  else
    match MONGODB_URI w with
    | None | Some EmptyString => Some (escape (Error "MONGODB_URI is not defined") srv)
    | Some mongoUri =>
        match MongoClient mongoUri with
        | Some e => Some (escape e srv)
        | None => finally_close w <$> handler_try method w srv
        end
    end.

(** The read endpoint ([GET /spacex/advisories]).  Here too the client
    is built before the [try] block. *)
Definition advisories_handler (method : string) (w : World) (srv : Server) : Outcome :=
  if String.eqb method "OPTIONS" then respond 200 End_ srv []
  else if negb (String.eqb method "GET")
  then respond 405 (Message "Method Not Allowed") srv []
  else
    match MONGODB_URI w with
    | None | Some EmptyString => respond 500 (Message "MONGODB_URI is not defined") srv []
    | Some uri =>
        match MongoClient uri with
        | Some e => escape e srv
        | None =>
            finally_close w
              match connectFault w, findFault w with
              | Some e, _ | None, Some e => respond 500 (Message (message e)) srv []
              | None, None =>
                  let documents := collection "danielmillar" "faa_advisories" srv in
                  respond 200 (Advisories documents) srv []
              end
        end
    end.

End Pipeline.

(** ** Reference notions, in the words of the specification *)

Definition lower_char (c : ascii) : ascii :=
  if is_upper c then ascii_of_N (code c + 32) else c.

(** the same character, or the same letter in the other case *)
Definition same_letter (a b : ascii) : bool :=
  Ascii.eqb (lower_char a) (lower_char b).

(** [s] spells [t], in any letter case *)
Fixpoint any_case (s t : string) : bool :=
  match s, t with
  | EmptyString, EmptyString => true
  | String a s', String b t' => same_letter a b && any_case s' t'
  | _, _ => false
  end.

(** The twelve English abbreviations, in calendar order. *)
Definition calendar : list string :=
  ["JAN"; "FEB"; "MAR"; "APR"; "MAY"; "JUN"; "JUL"; "AUG"; "SEP"; "OCT"; "NOV"; "DEC"].

(** The ordinal of the month [s] abbreviates, in any letter case. *)
Fixpoint ordinal_from (n : Z) (s : string) (names : list string) : option Z :=
  match names with
  | [] => None
  | abbr :: names' => if any_case s abbr then Some n else ordinal_from (n + 1) s names'
  end.

Definition month_ordinal (s : string) : option Z := ordinal_from 1 s calendar.

Definition all_chars (p : ascii -> bool) (s : string) : bool :=
  forallb p (list_ascii_of_string s).

(** a non-empty run of digits, of word characters *)
Definition digits (s : string) : bool :=
  negb (String.eqb s EmptyString) && all_chars is_digit s.
Definition word (s : string) : bool :=
  negb (String.eqb s EmptyString) && all_chars is_word s.

(** The operator keywords of the relevance filter. *)
Definition operator_keywords : list string := ["Starship"; "SpaceX"; "Starlink"].

Definition contains_any_case (kw s : string) : Prop :=
  exists pre mid post, s = pre +:+ mid +:+ post /\ any_case mid kw = true.

Definition mentions_operator (s : string) : Prop :=
  exists kw, kw ∈ operator_keywords /\ contains_any_case kw s.

(** the four characters of one side of a time fragment, and the marker
    that may follow them *)
Definition hhmm (a b c d : ascii) : string :=
  String a (String b (String c (String d ""))).
Definition marker (present : bool) : string := if present then "Z" else "".

(** What is left of [rest] once the literal text [w] is read off its
    front. *)
Fixpoint strip (ignoreCase : bool) (w rest : string) : option string :=
  match w, rest with
  | EmptyString, _ => Some rest
  | String c w', String a rest' =>
      if same_char ignoreCase a c then strip ignoreCase w' rest' else None
  | String _ _, EmptyString => None
  end.


(** The texts the pattern of the extractor is made for: a label, with or
    without a counter; a date fragment, with a month on both sides or on
    the second side only; a time fragment. *)
Definition label_text (w : string) (counter : option string) : string :=
  w +:+ " Launch Day" +:+
  match counter with
  | Some n => " (" +:+ n +:+ ")"
  | None => ""
  end.

Definition date_text (d1 : string) (m1 : option string) (d2 m2 : string) : string :=
  match m1 with
  | Some m => d1 +:+ " " +:+ m +:+ "/" +:+ d2 +:+ " " +:+ m2
  | None => d1 +:+ "/" +:+ d2 +:+ " " +:+ m2
  end.

Definition time_text (a b c d e f g h : ascii) : string :=
  hhmm a b c d +:+ "Z-" +:+ hhmm e f g h +:+ "Z".

(** One entry of the details: label, date fragment and time fragment,
    a space between them. *)
Definition entry_text (label date time : string) : string :=
  label +:+ " " +:+ date +:+ " " +:+ time.

(** No group in [r]: a match of [r] leaves the captures as they are. *)
Fixpoint capture_free (r : regex) : bool :=
  match r with
  | Cap _ _ => false
  | Cat r1 r2 | Alt r1 r2 => capture_free r1 && capture_free r2
  | Opt r1 => capture_free r1
  | Eps | Chr _ | Cls _ | Many _ _ _ => true
  end.

(** The least number of characters a match of [r] takes. *)
Fixpoint minlen (r : regex) : nat :=
  match r with
  | Eps => 0
  | Chr _ | Cls _ => 1
  | Cat r1 r2 => minlen r1 + minlen r2
  | Alt r1 r2 => Nat.min (minlen r1) (minlen r2)
  | Opt _ => 0
  | Many min _ _ => min
  | Cap _ r1 => minlen r1
  end.

(** The occurrences of the pattern in a text, left to right, each search
    starting where the occurrence before it ends: the raw matches the
    extractor goes through. *)
Fixpoint scan (fuel : nat) (s : string) (lastIndex : nat) : option (list Match) :=
  match fuel with
  | O => None
  | S fuel' =>
      match exec pattern 3 s lastIndex with
      | (None, _) => Some []
      | (Some m, lastIndex') => cons m <$> scan fuel' s lastIndex'
      end
  end.

Definition occurrences (s : string) : option (list Match) :=
  scan (S (String.length s)) s O.

(** The windows of the occurrences both sub-parsers accept, and the
    lines logged for the others. *)
Definition window (year : number) (m : Match) : option ParsedDetail :=
  match parseEntry m year with
  | Ok entry => Some entry
  | Throw _ => None
  end.

Definition complaint (year : number) (m : Match) : option string :=
  match parseEntry m year with
  | Ok _ => None
  | Throw e => Some (entry_error m e)
  end.

(** The window of an occurrence with the label [l], the date fragment
    [d] and the time fragment [t]: none when a sub-parser fails. *)
Definition window_of (year : number) (l d t : string) : option ParsedDetail :=
  match parseDatePart d year, parseTimePart t with
  | Ok (sd, ed), Ok (st, et) =>
      Some {| type := l; startDate := sd; endDate := ed;
              startTime := st; endTime := et;
              startDatetime := sd +:+ "T" +:+ st;
              endDatetime := ed +:+ "T" +:+ et |}
  | _, _ => None
  end.

(** The matches lie in the text [s] from the offset [from] on, one after
    the other, without overlap. *)
Fixpoint in_order (s : string) (from : nat) (ms : list Match) : Prop :=
  match ms with
  | [] => True
  | m :: ms' =>
      (from <= index m)%nat
      /\ (index m + String.length (matched m) <= String.length s)%nat
      /\ (0 < String.length (matched m))%nat
      /\ matched m = substring (index m) (String.length (matched m)) s
      /\ in_order s (index m + String.length (matched m)) ms'
  end.

(** The identities of the stored documents, in the order of the
    collection. *)
Definition ids (c : Collection) : list Z := (fun d => advisoryid (doc d)) <$> c.

(** The collection after the upsert of [a] under its own identity. *)
Definition upsert (a : Advisory) (c : Collection) : Collection :=
  fst (replaceOne (advisoryid a) a c).

Fixpoint ingest (es : list Advisory) (c : Collection) : Collection :=
  match es with
  | [] => c
  | a :: es' => ingest es' (upsert a c)
  end.

(** A document with the identity of [a] takes [a] as its whole content. *)
Definition put (a : Advisory) (d : Document) : Document :=
  if matches (advisoryid a) d then {| _id := _id d; doc := a |} else d.

(** The last advisory of the batch with the identity [key]. *)
Fixpoint latest (key : Z) (es : list Advisory) : option Advisory :=
  match es with
  | [] => None
  | a :: es' =>
      match latest key es' with
      | Some x => Some x
      | None => if advisoryid a =? key then Some a else None
      end
  end.

(** The first four characters of a text, read as a year; an instance of
    the runtime's function for the examples. *)
Definition year_of_prefix (s : string) : number :=
  match NilZero.int_of_string (substring 0 4 s) with
  | Some i => Num (Z.of_int i)
  | None => NaN
  end.

(** ** Further reference notions *)

(** How often the character [c] occurs in [s]. *)
Fixpoint count_char (c : ascii) (s : string) : nat :=
  match s with
  | EmptyString => O
  | String a s' => (if Ascii.eqb a c then 1 else 0) + count_char c s'
  end.

(** The texts an expression matches. *)
Fixpoint lang (ic : bool) (r : regex) (u : string) : Prop :=
  match r with
  | Eps => u = ""
  | Chr c => exists a, u = String a "" /\ same_char ic a c = true
  | Cls c => exists a, u = String a "" /\ in_class c a = true
  | Cat r1 r2 => exists u1 u2, u = u1 +:+ u2 /\ lang ic r1 u1 /\ lang ic r2 u2
  | Alt r1 r2 => lang ic r1 u \/ lang ic r2 u
  | Opt r1 => u = "" \/ lang ic r1 u
  | Many min max c =>
      all_chars (in_class c) u = true
      /\ (min <= String.length u)%nat
      /\ from_option (fun m => (String.length u <= m)%nat) True max
  | Cap _ r1 => lang ic r1 u
  end.

(** four digits *)
Definition four_digits (s : string) : bool :=
  Nat.eqb (String.length s) 4 && all_chars is_digit s.

(** One entry of the details as the pattern reads it: the word of the
    label and its counter, the days and the months of the date fragment,
    the two sides of the time fragment. *)
Record Occurrence : Type := mkOccurrence {
  word_of : string;
  counter_of : option string;
  day1_of : string;
  month1_of : option string;
  day2_of : string;
  month2_of : string;
  start_of : string;
  end_of : string;
}.

Definition well_formed (o : Occurrence) : bool :=
  word (word_of o) && from_option digits true (counter_of o)
  && digits (day1_of o) && from_option word true (month1_of o)
  && digits (day2_of o) && word (month2_of o)
  && four_digits (start_of o) && four_digits (end_of o).

Definition label_of (o : Occurrence) : string :=
  label_text (word_of o) (counter_of o).
Definition date_of (o : Occurrence) : string :=
  date_text (day1_of o) (month1_of o) (day2_of o) (month2_of o).
Definition time_of (o : Occurrence) : string :=
  start_of o +:+ "Z-" +:+ end_of o +:+ "Z".
Definition text_of (o : Occurrence) : string :=
  entry_text (label_of o) (date_of o) (time_of o).

(** The match [m] is the entry [o]: its text and its three groups. *)
Definition occurs (o : Occurrence) (m : Match) : Prop :=
  matched m = text_of o
  /\ groups m = [Some (label_of o); Some (date_of o); Some (time_of o)].

(** The ordinals of the months of an entry, the first side taking the
    month of the second when it has none; none when a month is unknown,
    and then the first unknown month, in the order of the lookups. *)
Definition month_numbers (o : Occurrence) : option (Z * Z) :=
  k1 ← month_ordinal (default (month2_of o) (month1_of o));
  k2 ← month_ordinal (month2_of o);
  Some (k1, k2).

Definition unknown_month (o : Occurrence) : string :=
  match month_ordinal (default (month2_of o) (month1_of o)) with
  | None => default (month2_of o) (month1_of o)
  | Some _ => month2_of o
  end.

(** The window of an entry whose months are known. *)
Definition window_for (year : number) (o : Occurrence) (k : Z * Z) : ParsedDetail :=
  let sd := String_ year +:+ "-" +:+ pad2 (String_ (Num (fst k))) +:+ "-"
            +:+ pad2 (day1_of o) in
  let ed := String_ year +:+ "-" +:+ pad2 (String_ (Num (snd k))) +:+ "-"
            +:+ pad2 (day2_of o) in
  let st := substring 0 2 (start_of o) +:+ ":" +:+ substring 2 2 (start_of o) +:+ ":00Z" in
  let et := substring 0 2 (end_of o) +:+ ":" +:+ substring 2 2 (end_of o) +:+ ":00Z" in
  {| type := label_of o;
     startDate := sd; endDate := ed; startTime := st; endTime := et;
     startDatetime := sd +:+ "T" +:+ st; endDatetime := ed +:+ "T" +:+ et |}.

(** The line logged for an entry with an unknown month. *)
Definition line_for (o : Occurrence) : string :=
  "Error parsing detail entry: " +:+ text_of o
  +:+ ", error: Failed to parse date part: " +:+ date_of o
  +:+ ", error: Invalid month abbreviation: " +:+ unknown_month o.

(** A month in two digits. *)
Definition month_text (s : string) : Prop :=
  s ∈ ["01"; "02"; "03"; "04"; "05"; "06"; "07"; "08"; "09"; "10"; "11"; "12"].

(** A time [HH:MM:00Z]. *)
Definition time_format (s : string) : Prop :=
  exists a b c d,
    forallb is_digit [a; b; c; d] = true
    /\ s = String a (String b (String ":" (String c (String d ":00Z")))).

(** A date: the year, a month in two digits, a day in two digits or more. *)
Definition date_format (year : number) (s : string) : Prop :=
  exists mm dd,
    month_text mm /\ all_chars is_digit dd = true /\ (2 <= String.length dd)%nat
    /\ s = String_ year +:+ "-" +:+ mm +:+ "-" +:+ dd.

(** A label: one word, [ Launch Day], a counter or none. *)
Definition label_format (s : string) : Prop :=
  exists w counter,
    word w = true /\ from_option digits true counter = true
    /\ s = label_text w counter.

Definition window_by (year : number) (o : Occurrence) : option ParsedDetail :=
  window_for year o <$> month_numbers o.

Definition line_by (o : Occurrence) : option string :=
  match month_numbers o with
  | Some _ => None
  | None => Some (line_for o)
  end.



(** The rows whose call of [replaceOne] does not fail, the calls being
    one per row, in the order of the rows. *)
Fixpoint accepted (rows : list Advisory) (fs : list (option exn)) : list Advisory :=
  match rows with
  | [] => []
  | a :: rows' =>
      match fs with
      | Some _ :: fs' => accepted rows' fs'
      | _ => a :: accepted rows' (tail fs)
      end
  end.

(** What the write trigger may store in an invocation: the enrichment
    of a relevant row of the upstream batch. *)
Definition written (getUTCFullYear : string -> number) (w : World) (x : Advisory) : Prop :=
  exists rows a,
    upstream w = Ok rows /\ a ∈ rows /\ relevant a = true
    /\ x = enriched getUTCFullYear a.

(** The document [d'] stands for [d]: same [_id], same identity, and
    either the same content or a content [P] admits. *)
Definition kept (P : Advisory -> Prop) (d d' : Document) : Prop :=
  _id d' = _id d
  /\ advisoryid (doc d') = advisoryid (doc d)
  /\ (d' = d \/ P (doc d')).

(** The collection [c'] is [c] with its documents kept in place, then
    documents whose content [P] admits. *)
Definition grows (P : Advisory -> Prop) (c c' : Collection) : Prop :=
  exists c1 c2,
    c' = c1 ++ c2 /\ Forall2 (kept P) c c1 /\ Forall (fun d => P (doc d)) c2.

(** An invocation of one of the two endpoints, and a run of invocations
    on a server; [None] only if an invocation does not end. *)
Inductive Call : Type :=
| Trigger (method : string) (w : World)
| Listing (method : string) (w : World).

Fixpoint run (getUTCFullYear : string -> number) (MongoClient : string -> option exn)
    (calls : list Call) (srv : Server) : option Server :=
  match calls with
  | [] => Some srv
  | Trigger method w :: calls' =>
      out ← handler getUTCFullYear MongoClient method w srv;
      run getUTCFullYear MongoClient calls' (server out)
  | Listing method w :: calls' =>
      run getUTCFullYear MongoClient calls'
        (server (advisories_handler MongoClient method w srv))
  end.

(** Two surroundings of the write trigger that agree on the connection
    only: one with an empty upstream batch, one whose fetch and whose
    first store call fail. *)
Definition quiet : World :=
  {| MONGODB_URI := Some "mongodb://host"; connectFault := None;
     upstream := Ok []; replaceFaults := []; findFault := None;
     closeFault := None |}.

Definition failing : World :=
  {| MONGODB_URI := Some "mongodb://host"; connectFault := None;
     upstream := Throw (TypeError "fetch failed");
     replaceFaults := [Some (Error "not primary")]; findFault := None;
     closeFault := Some (Error "connection closed") |}.

(** ** Month lookup on every string

    A JavaScript string is a sequence of 16-bit code units, and
    [toUpperCase] upper-cases every code point of it, in any script.
    The month lookup is modelled here on all strings; on the strings of
    8-bit characters it is the lookup above (lemma [getMonth_wide]). *)

Module Wide.

Definition ustring : Type := list N.

(** The string of 8-bit characters as a string of code units. *)
Definition of_string (s : string) : ustring := map JS.code (list_ascii_of_string s).

Inductive exn : Type :=
| Error (message : ustring)
| TypeError (message : ustring).

Inductive result (A : Type) : Type :=
| Ok (a : A)
| Throw (e : exn).
Arguments Ok {A} a.
Arguments Throw {A} e.

(** A code point above U+FFFF is a high and a low surrogate. *)
Definition is_high (c : N) : bool := ((55296 <=? c) && (c <=? 56319))%N.
Definition is_low (c : N) : bool := ((56320 <=? c) && (c <=? 57343))%N.

Definition code_point (hi lo : N) : N :=
  (65536 + (hi - 55296) * 1024 + (lo - 56320))%N.

Definition units (p : N) : ustring :=
  if (p <? 65536)%N then [p]
  else [(55296 + (p - 65536) / 1024)%N; (56320 + (p - 65536) mod 1024)%N].

(** The upper-case mapping of the Unicode Character Database (version
    14.0: the simple mappings of UnicodeData.txt, and the unconditional
    mappings of SpecialCasing.txt, which give several code points).
    [(first, last, step, delta)]: the code points [first],
    [first + step], ... up to [last] map to themselves plus [delta]. *)
Definition run (first last step : N) (delta : Z) : N * N * N * Z :=
  (first, last, step, delta).

Definition simple_upper : list (N * N * N * Z) :=
  [run 97 122 1 (-32); run 181 181 1 743; run 224 246 1 (-32);
   run 248 254 1 (-32); run 255 255 1 121; run 257 303 2 (-1);
   run 305 305 1 (-232); run 307 311 2 (-1); run 314 328 2 (-1);
   run 331 375 2 (-1); run 378 382 2 (-1); run 383 383 1 (-300);
   run 384 384 1 195; run 387 389 2 (-1); run 392 392 1 (-1);
   run 396 396 1 (-1); run 402 402 1 (-1); run 405 405 1 97;
   run 409 409 1 (-1); run 410 410 1 163; run 414 414 1 130;
   run 417 421 2 (-1); run 424 424 1 (-1); run 429 429 1 (-1);
   run 432 432 1 (-1); run 436 438 2 (-1); run 441 441 1 (-1);
   run 445 445 1 (-1); run 447 447 1 56; run 453 453 1 (-1);
   run 454 454 1 (-2); run 456 456 1 (-1); run 457 457 1 (-2);
   run 459 459 1 (-1); run 460 460 1 (-2); run 462 476 2 (-1);
   run 477 477 1 (-79); run 479 495 2 (-1); run 498 498 1 (-1);
   run 499 499 1 (-2); run 501 501 1 (-1); run 505 543 2 (-1);
   run 547 563 2 (-1); run 572 572 1 (-1); run 575 576 1 10815;
   run 578 578 1 (-1); run 583 591 2 (-1); run 592 592 1 10783;
   run 593 593 1 10780; run 594 594 1 10782; run 595 595 1 (-210);
   run 596 596 1 (-206); run 598 599 1 (-205); run 601 601 1 (-202);
   run 603 603 1 (-203); run 604 604 1 42319; run 608 608 1 (-205);
   run 609 609 1 42315; run 611 611 1 (-207); run 613 613 1 42280;
   run 614 614 1 42308; run 616 616 1 (-209); run 617 617 1 (-211);
   run 618 618 1 42308; run 619 619 1 10743; run 620 620 1 42305;
   run 623 623 1 (-211); run 625 625 1 10749; run 626 626 1 (-213);
   run 629 629 1 (-214); run 637 637 1 10727; run 640 640 1 (-218);
   run 642 642 1 42307; run 643 643 1 (-218); run 647 647 1 42282;
   run 648 648 1 (-218); run 649 649 1 (-69); run 650 651 1 (-217);
   run 652 652 1 (-71); run 658 658 1 (-219); run 669 669 1 42261;
   run 670 670 1 42258; run 837 837 1 84; run 881 883 2 (-1);
   run 887 887 1 (-1); run 891 893 1 130; run 940 940 1 (-38);
   run 941 943 1 (-37); run 945 961 1 (-32); run 962 962 1 (-31);
   run 963 971 1 (-32); run 972 972 1 (-64); run 973 974 1 (-63);
   run 976 976 1 (-62); run 977 977 1 (-57); run 981 981 1 (-47);
   run 982 982 1 (-54); run 983 983 1 (-8); run 985 1007 2 (-1);
   run 1008 1008 1 (-86); run 1009 1009 1 (-80); run 1010 1010 1 7;
   run 1011 1011 1 (-116); run 1013 1013 1 (-96); run 1016 1016 1 (-1);
   run 1019 1019 1 (-1); run 1072 1103 1 (-32); run 1104 1119 1 (-80);
   run 1121 1153 2 (-1); run 1163 1215 2 (-1); run 1218 1230 2 (-1);
   run 1231 1231 1 (-15); run 1233 1327 2 (-1); run 1377 1414 1 (-48);
   run 4304 4346 1 3008; run 4349 4351 1 3008; run 5112 5117 1 (-8);
   run 7296 7296 1 (-6254); run 7297 7297 1 (-6253); run 7298 7298 1 (-6244);
   run 7299 7300 1 (-6242); run 7301 7301 1 (-6243); run 7302 7302 1 (-6236);
   run 7303 7303 1 (-6181); run 7304 7304 1 35266; run 7545 7545 1 35332;
   run 7549 7549 1 3814; run 7566 7566 1 35384; run 7681 7829 2 (-1);
   run 7835 7835 1 (-59); run 7841 7935 2 (-1); run 7936 7943 1 8;
   run 7952 7957 1 8; run 7968 7975 1 8; run 7984 7991 1 8;
   run 8000 8005 1 8; run 8017 8023 2 8; run 8032 8039 1 8;
   run 8048 8049 1 74; run 8050 8053 1 86; run 8054 8055 1 100;
   run 8056 8057 1 128; run 8058 8059 1 112; run 8060 8061 1 126;
   run 8112 8113 1 8; run 8126 8126 1 (-7205); run 8144 8145 1 8;
   run 8160 8161 1 8; run 8165 8165 1 7; run 8526 8526 1 (-28);
   run 8560 8575 1 (-16); run 8580 8580 1 (-1); run 9424 9449 1 (-26);
   run 11312 11359 1 (-48); run 11361 11361 1 (-1);
   run 11365 11365 1 (-10795); run 11366 11366 1 (-10792);
   run 11368 11372 2 (-1); run 11379 11379 1 (-1); run 11382 11382 1 (-1);
   run 11393 11491 2 (-1); run 11500 11502 2 (-1); run 11507 11507 1 (-1);
   run 11520 11557 1 (-7264); run 11559 11559 1 (-7264);
   run 11565 11565 1 (-7264); run 42561 42605 2 (-1); run 42625 42651 2 (-1);
   run 42787 42799 2 (-1); run 42803 42863 2 (-1); run 42874 42876 2 (-1);
   run 42879 42887 2 (-1); run 42892 42892 1 (-1); run 42897 42899 2 (-1);
   run 42900 42900 1 48; run 42903 42921 2 (-1); run 42933 42947 2 (-1);
   run 42952 42954 2 (-1); run 42961 42961 1 (-1); run 42967 42969 2 (-1);
   run 42998 42998 1 (-1); run 43859 43859 1 (-928);
   run 43888 43967 1 (-38864); run 65345 65370 1 (-32);
   run 66600 66639 1 (-40); run 66776 66811 1 (-40); run 66967 66977 1 (-39);
   run 66979 66993 1 (-39); run 66995 67001 1 (-39); run 67003 67004 1 (-39);
   run 68800 68850 1 (-64); run 71872 71903 1 (-32); run 93792 93823 1 (-32);
   run 125218 125251 1 (-34)].

Definition special_upper : list (N * list N) :=
  [(223, [83; 83]); (329, [700; 78]); (496, [74; 780]);
   (912, [921; 776; 769]); (944, [933; 776; 769]); (1415, [1333; 1362]);
   (7830, [72; 817]); (7831, [84; 776]); (7832, [87; 778]);
   (7833, [89; 778]); (7834, [65; 702]); (8016, [933; 787]);
   (8018, [933; 787; 768]); (8020, [933; 787; 769]); (8022, [933; 787; 834]);
   (8064, [7944; 921]); (8065, [7945; 921]); (8066, [7946; 921]);
   (8067, [7947; 921]); (8068, [7948; 921]); (8069, [7949; 921]);
   (8070, [7950; 921]); (8071, [7951; 921]); (8072, [7944; 921]);
   (8073, [7945; 921]); (8074, [7946; 921]); (8075, [7947; 921]);
   (8076, [7948; 921]); (8077, [7949; 921]); (8078, [7950; 921]);
   (8079, [7951; 921]); (8080, [7976; 921]); (8081, [7977; 921]);
   (8082, [7978; 921]); (8083, [7979; 921]); (8084, [7980; 921]);
   (8085, [7981; 921]); (8086, [7982; 921]); (8087, [7983; 921]);
   (8088, [7976; 921]); (8089, [7977; 921]); (8090, [7978; 921]);
   (8091, [7979; 921]); (8092, [7980; 921]); (8093, [7981; 921]);
   (8094, [7982; 921]); (8095, [7983; 921]); (8096, [8040; 921]);
   (8097, [8041; 921]); (8098, [8042; 921]); (8099, [8043; 921]);
   (8100, [8044; 921]); (8101, [8045; 921]); (8102, [8046; 921]);
   (8103, [8047; 921]); (8104, [8040; 921]); (8105, [8041; 921]);
   (8106, [8042; 921]); (8107, [8043; 921]); (8108, [8044; 921]);
   (8109, [8045; 921]); (8110, [8046; 921]); (8111, [8047; 921]);
   (8114, [8122; 921]); (8115, [913; 921]); (8116, [902; 921]);
   (8118, [913; 834]); (8119, [913; 834; 921]); (8124, [913; 921]);
   (8130, [8138; 921]); (8131, [919; 921]); (8132, [905; 921]);
   (8134, [919; 834]); (8135, [919; 834; 921]); (8140, [919; 921]);
   (8146, [921; 776; 768]); (8147, [921; 776; 769]); (8150, [921; 834]);
   (8151, [921; 776; 834]); (8162, [933; 776; 768]); (8163, [933; 776; 769]);
   (8164, [929; 787]); (8166, [933; 834]); (8167, [933; 776; 834]);
   (8178, [8186; 921]); (8179, [937; 921]); (8180, [911; 921]);
   (8182, [937; 834]); (8183, [937; 834; 921]); (8188, [937; 921]);
   (64256, [70; 70]); (64257, [70; 73]); (64258, [70; 76]);
   (64259, [70; 70; 73]); (64260, [70; 70; 76]); (64261, [83; 84]);
   (64262, [83; 84]); (64275, [1348; 1350]); (64276, [1348; 1333]);
   (64277, [1348; 1339]); (64278, [1358; 1350]); (64279, [1348; 1341])]%N.

Definition in_run (p : N) (r : N * N * N * Z) : bool :=
  let '(first, last, step, _) := r in
  ((first <=? p) && (p <=? last) && ((p - first) mod step =? 0))%N.

(** The upper case of a code point: one code point or several. *)
Definition upper_point (p : N) : list N :=
  match List.find (fun e => (fst e =? p)%N) special_upper with
  | Some e => snd e
  | None =>
      match List.find (in_run p) simple_upper with
      | Some (_, _, _, delta) => [Z.to_N (Z.of_N p + delta)]
      | None => [p]
      end
  end.

(** The code units of the upper case of a code point. *)
Definition upper (p : N) : ustring := flat_map units (upper_point p).

(** [s.toUpperCase()]: a high surrogate followed by a low one is one
    code point, any other code unit is a code point of its own. *)
Fixpoint toUpperCase (s : ustring) : ustring :=
  match s with
  | [] => []
  | c :: s' =>
      match s' with
      | lo :: s'' =>
          if is_high c && is_low lo
          then upper (code_point c lo) ++ toUpperCase s''
          else upper c ++ toUpperCase s'
      | [] => upper c ++ toUpperCase s'
      end
  end.

(** [monthMap[key]]: the own properties of the object.  The inherited
    ones all have a letter a-z in their name, which the upper case of no
    string has. *)
Fixpoint property (key : ustring) (o : list (string * Z)) : option Z :=
  match o with
  | [] => None
  | (k, v) :: o' =>
      if bool_decide (of_string k = key) then Some v else property key o'
  end.

Definition getMonth (abbrev : option ustring) : result Z :=
  match abbrev with
  | None => Throw (TypeError (of_string (message (undefined_property "toUpperCase"))))
  | Some s =>
      let month := property (toUpperCase s) monthMap in
      if falsy month
      then Throw (Error (of_string "Invalid month abbreviation: " ++ s))
      else Ok (default 0 month)
  end.

(** The outcome of the lookup on a string of 8-bit characters, as an
    outcome of the lookup on all strings. *)
Definition widen (r : JS.result Z) : result Z :=
  match r with
  | JS.Ok n => Ok n
  | JS.Throw (JS.Error m) => Throw (Error (of_string m))
  | JS.Throw (JS.TypeError m) => Throw (TypeError (of_string m))
  end.

End Wide.

(** The code unit [c] is the capital letter [a], capital or small. *)
Definition letter_of (c : N) (a : ascii) : bool :=
  ((c =? code a) || (c =? code a + 32))%N.

(** The string is the abbreviation in some letter case. *)
Fixpoint in_any_case (s : Wide.ustring) (abbr : string) : bool :=
  match s, abbr with
  | [], EmptyString => true
  | c :: s', String a abbr' => letter_of c a && in_any_case s' abbr'
  | _, _ => false
  end.

(** The code unit [c] spells the capital letter [a]: it is the letter,
    capital or small, or the long s (U+017F) when the letter is S. *)
Definition spells_letter (c : N) (a : ascii) : bool :=
  letter_of c a || ((c =? 383) && (code a =? 83))%N.

Fixpoint spells (s : Wide.ustring) (abbr : string) : bool :=
  match s, abbr with
  | [], EmptyString => true
  | c :: s', String a abbr' => spells_letter c a && spells s' abbr'
  | _, _ => false
  end.

(** The ordinal of the month a string of code units spells. *)
Fixpoint wide_ordinal_from (n : Z) (s : Wide.ustring) (names : list string) : option Z :=
  match names with
  | [] => None
  | abbr :: names' => if spells s abbr then Some n else wide_ordinal_from (n + 1) s names'
  end.

Definition wide_ordinal (s : Wide.ustring) : option Z := wide_ordinal_from 1 s calendar.

(** The code points below U+0080 in upper case. *)
Definition ascii_upper (p : N) : N :=
  if ((97 <=? p) && (p <=? 122))%N then (p - 32)%N else p.

(** The code points from U+0080 on whose upper case begins with a code
    unit below U+0080, with that upper case. *)
Definition ascii_specials : list (N * list N) :=
  [(223, [83; 83]); (305, [73]); (383, [83]); (496, [74; 780]);
   (7830, [72; 817]); (7831, [84; 776]); (7832, [87; 778]); (7833, [89; 778]);
   (7834, [65; 702]); (64256, [70; 70]); (64257, [70; 73]); (64258, [70; 76]);
   (64259, [70; 70; 73]); (64260, [70; 70; 76]); (64261, [83; 84]);
   (64262, [83; 84])]%N.

(** A text of capital letters in which no upper case of
    [ascii_specials] occurs. *)
Definition capital (a : ascii) : bool := is_upper a && negb (code a =? 73)%N.

Fixpoint plain (abbr : string) : bool :=
  match abbr with
  | EmptyString => true
  | String a abbr' =>
      capital a
      && match abbr' with
         | EmptyString => true
         | String b _ =>
             negb (((code a =? 83) && ((code b =? 83) || (code b =? 84)))
                   || ((code a =? 70) && ((code b =? 70) || (code b =? 76))))%N
         end
      && plain abbr'
  end.

(** What the two tables give: never nothing, and a first code unit
    below U+0080 only for the code points listed. *)
Definition special_ok (e : N * list N) : bool :=
  match flat_map Wide.units (snd e) with
  | [] => false
  | hd :: _ =>
      (128 <=? hd)%N
      || bool_decide ((fst e, flat_map Wide.units (snd e)) ∈ ascii_specials)
  end.

Definition run_ok (r : N * N * N * Z) : bool :=
  let '(first, last, step, delta) := r in
  (0 <? step)%N
  && ((128 <=? Z.of_N first + delta)
      || bool_decide (r = Wide.run 97 122 1 (-32))
      || ((first =? last)%N
          && bool_decide ((first, [Z.to_N (Z.of_N first + delta)]) ∈ ascii_specials))).

(** * Properties *)

(** ** Characters and strings *)

Lemma code_inj (a b : ascii) : code a = code b -> a = b.
Proof.
  unfold code. intros H.
  rewrite <- (ascii_N_embedding a), <- (ascii_N_embedding b). by rewrite H.
Qed.

Lemma code_bound (a : ascii) : (code a < 256)%N.
Proof. apply N_ascii_bounded. Qed.

Lemma code_of_N (n : N) : (n < 256)%N -> code (ascii_of_N n) = n.
Proof. apply N_ascii_embedding. Qed.

Lemma between_spec (lo hi : N) (c : ascii) :
  between lo hi c = true <-> (lo <= code c <= hi)%N.
Proof.
  unfold between. rewrite andb_true_iff, !N.leb_le. tauto.
Qed.

Lemma code_upper_char (c : ascii) :
  code (upper_char c) = if is_lower c then (code c - 32)%N else code c.
Proof.
  unfold upper_char. destruct (is_lower c) eqn:E; [|done].
  apply between_spec in E. apply code_of_N. lia.
Qed.

Lemma code_lower_char (c : ascii) :
  code (lower_char c) = if is_upper c then (code c + 32)%N else code c.
Proof.
  unfold lower_char. destruct (is_upper c) eqn:E; [|done].
  apply between_spec in E. apply code_of_N. lia.
Qed.

Lemma ascii_eqb_code (a b : ascii) : Ascii.eqb a b = (code a =? code b)%N.
Proof.
  destruct (Ascii.eqb_spec a b) as [->|Hne].
  - by rewrite N.eqb_refl.
  - symmetry. apply N.eqb_neq. intros H. by apply Hne, code_inj.
Qed.

Ltac char_cases :=
  repeat match goal with
  | |- context [between ?lo ?hi ?c] =>
      let E := fresh "E" in
      destruct (between lo hi c) eqn:E;
      [apply between_spec in E
      |apply not_true_iff_false in E; rewrite between_spec in E]
  end.

(** Comparing in upper case and comparing in lower case agree. *)
Lemma same_char_same_letter (a b : ascii) :
  same_char true a b = same_letter a b.
Proof.
  unfold same_char, same_letter.
  rewrite !ascii_eqb_code, !code_upper_char, !code_lower_char.
  pose proof (code_bound a). pose proof (code_bound b).
  unfold is_lower, is_upper. char_cases;
    apply eq_true_iff_eq; rewrite !N.eqb_eq; lia.
Qed.

Lemma same_letter_upper (a u : ascii) :
  is_upper u = true -> Ascii.eqb u (upper_char a) = same_letter a u.
Proof.
  intros Hu. rewrite <- same_char_same_letter. unfold same_char.
  rewrite (Ascii.eqb_sym u). f_equal.
  apply code_inj. rewrite code_upper_char.
  unfold is_upper, is_lower in *. apply between_spec in Hu.
  char_cases; lia.
Qed.

Lemma any_case_upper (u s : string) :
  all_chars is_upper u = true -> String.eqb u (toUpperCase s) = any_case s u.
Proof.
  revert s. induction u as [|c u IH]; intros [|a s] Hu; simpl; try done.
  apply andb_true_iff in Hu as [Hc Hu].
  rewrite (same_letter_upper _ _ Hc).
  destruct (same_letter a c); simpl; [by apply IH | done].
Qed.

Lemma append_cons (x : ascii) (a b : string) :
  String x a +:+ b = String x (a +:+ b).
Proof. reflexivity. Qed.

Lemma append_nil_l (a : string) : "" +:+ a = a.
Proof. reflexivity. Qed.

Ltac push_append := rewrite ?append_cons, ?append_nil_l.

Lemma append_assoc (a b c : string) : (a +:+ b) +:+ c = a +:+ b +:+ c.
Proof. induction a as [|x a IH]; push_append; [done | by rewrite IH]. Qed.


Lemma length_append (a b : string) :
  String.length (a +:+ b) = (String.length a + String.length b)%nat.
Proof. induction a as [|x a IH]; push_append; simpl; [done | by rewrite IH]. Qed.

Lemma all_chars_cons (p : ascii -> bool) (c : ascii) (s : string) :
  all_chars p (String c s) = p c && all_chars p s.
Proof. reflexivity. Qed.

Lemma all_chars_impl (p q : ascii -> bool) (s : string) :
  (forall c, p c = true -> q c = true) -> all_chars p s = true -> all_chars q s = true.
Proof.
  intros Hpq. induction s as [|x s IH]; [done|].
  rewrite !all_chars_cons, !andb_true_iff. intros [Hx Hs]. auto.
Qed.

Lemma is_digit_word (c : ascii) : is_digit c = true -> is_word c = true.
Proof. unfold is_word. intros ->. by rewrite orb_true_r. Qed.

Lemma is_word_code (c : ascii) :
  is_word c = true ->
  (97 <= code c <= 122 \/ 65 <= code c <= 90 \/ 48 <= code c <= 57 \/ code c = 95)%N.
Proof.
  unfold is_word, is_lower, is_upper, is_digit.
  rewrite !orb_true_iff, !between_spec, N.eqb_eq. tauto.
Qed.

(** A word character is none of the separators, and no white space. *)
Lemma is_word_not (c x : ascii) :
  is_word c = true -> is_word x = false -> Ascii.eqb c x = false.
Proof.
  intros Hc Hx. destruct (Ascii.eqb_spec c x) as [->|]; [congruence | done].
Qed.

Lemma is_word_not_white (c : ascii) : is_word c = true -> is_white c = false.
Proof.
  intros Hc%is_word_code. unfold is_white.
  rewrite !orb_false_iff. split; [split|].
  - apply not_true_iff_false. rewrite between_spec. lia.
  - apply N.eqb_neq. lia.
  - apply N.eqb_neq. lia.
Qed.

Lemma includes_append (x : ascii) (a b : string) :
  includes x (a +:+ b) = includes x a || includes x b.
Proof.
  induction a as [|c a IH]; push_append; simpl; [done|]. by rewrite IH, orb_assoc.
Qed.

Lemma includes_word (x : ascii) (s : string) :
  is_word x = false -> all_chars is_word s = true -> includes x s = false.
Proof.
  intros Hx. induction s as [|c s IH]; [done|].
  rewrite all_chars_cons, andb_true_iff. intros [Hc Hs]. simpl.
  by rewrite (is_word_not _ _ Hc Hx), IH.
Qed.

Lemma split_cons (sep : ascii) (s : string) :
  exists h t, split sep s = h :: t.
Proof.
  induction s as [|c s (h & t & IH)]; simpl; [by eauto|].
  destruct (Ascii.eqb c sep); [by eauto|]. rewrite IH. eauto.
Qed.

Lemma split_none (sep : ascii) (s : string) :
  includes sep s = false -> split sep s = [s].
Proof.
  induction s as [|c s IH]; simpl; [done|].
  intros [Hc Hs]%orb_false_iff. by rewrite Hc, IH.
Qed.

Lemma split_append (sep : ascii) (a b : string) :
  includes sep a = false -> split sep (a +:+ String sep b) = a :: split sep b.
Proof.
  induction a as [|c a IH]; push_append; simpl.
  - intros _. by rewrite Ascii.eqb_refl.
  - intros [Hc Ha]%orb_false_iff. by rewrite Hc, IH.
Qed.

(** The second element of [s.split(sep)] is defined exactly when the
    separator occurs. *)
Lemma split_second (sep : ascii) (s : string) :
  bool_decide (is_Some (split sep s !! 1%nat)) = includes sep s.
Proof.
  induction s as [|c s IH]; simpl; [done|].
  destruct (Ascii.eqb c sep); simpl.
  - by destruct (split_cons sep s) as (h & t & ->).
  - rewrite <- IH. by destruct (split_cons sep s) as (h & t & ->).
Qed.

Lemma trimStart_word (c : ascii) (s : string) :
  is_word c = true -> trimStart (String c s) = String c s.
Proof. intros Hc. simpl. by rewrite (is_word_not_white _ Hc). Qed.

Lemma trimEnd_word (s : string) :
  all_chars is_word s = true -> trimEnd s = s.
Proof.
  induction s as [|c s IH]; [done|].
  rewrite all_chars_cons, andb_true_iff. intros [Hc Hs]. simpl.
  rewrite (IH Hs), (is_word_not_white _ Hc). by destruct s.
Qed.

Lemma trimEnd_append (a b : string) :
  b <> "" -> trimEnd b = b -> trimEnd (a +:+ b) = a +:+ b.
Proof.
  intros Hb Eb. induction a as [|c a IH]; push_append; simpl; [done|].
  rewrite IH. destruct (a +:+ b) eqn:E; [|done].
  destruct a; [by rewrite append_nil_l in E | discriminate].
Qed.

Lemma word_inv (s : string) :
  word s = true ->
  exists c s', s = String c s' /\ is_word c = true /\ all_chars is_word s = true.
Proof.
  unfold word. intros [Hne Hs]%andb_true_iff.
  destruct s as [|c s]; [done|].
  exists c, s. split; [done|]. split; [|done].
  by apply andb_true_iff in Hs as [? _].
Qed.

Lemma digits_word (s : string) : digits s = true -> word s = true.
Proof.
  unfold digits, word. intros [Hne Hs]%andb_true_iff.
  rewrite Hne. simpl. eapply all_chars_impl; [apply is_digit_word | done].
Qed.

Lemma trim_word (s : string) : word s = true -> trim s = s.
Proof.
  intros (c & s' & -> & Hc & Hs)%word_inv. unfold trim.
  by rewrite (trimStart_word _ _ Hc), (trimEnd_word _ Hs).
Qed.

(** Two words with one space between them are left as they are. *)
Lemma trim_two_words (a b : string) :
  word a = true -> word b = true -> trim (a +:+ " " +:+ b) = a +:+ " " +:+ b.
Proof.
  intros (c & a' & -> & Hc & _)%word_inv (x & b' & -> & _ & Hb)%word_inv.
  unfold trim. rewrite append_cons, (trimStart_word _ _ Hc), <- append_cons.
  rewrite <- append_assoc. apply trimEnd_append; [done|].
  by apply trimEnd_word.
Qed.

(** ** C6: month lookup *)

Lemma property_monthMap (s : string) :
  property (toUpperCase s) monthMap = month_ordinal s.
Proof.
  unfold monthMap, property.
  rewrite !any_case_upper by reflexivity.
  reflexivity.
Qed.

Lemma ordinal_from_range (s : string) (names : list string) (n m : Z) :
  ordinal_from n s names = Some m -> n <= m < n + Z.of_nat (length names).
Proof.
  revert n. induction names as [|abbr names IH]; intros n; simpl; [done|].
  destruct (any_case s abbr).
  - intros [= <-]. lia.
  - intros H. apply IH in H. lia.
Qed.

Lemma getMonth_month_ordinal (s : string) :
  getMonth (Some s) =
    match month_ordinal s with
    | Some n => Ok n
    | None => Throw (Error ("Invalid month abbreviation: " +:+ s))
    end.
Proof.
  unfold getMonth, method, bind. rewrite property_monthMap.
  destruct (month_ordinal s) as [n|] eqn:E; [|done].
  apply ordinal_from_range in E. simpl in *.
  destruct (n =? 0) eqn:E0; [|done]. apply Z.eqb_eq in E0. lia.
Qed.

(** ** C6: month lookup on every string *)


Lemma units_low (p hd : N) (tl : list N) :
  Wide.units p = hd :: tl -> (hd < 128)%N -> hd = p /\ tl = [].
Proof.
  unfold Wide.units. destruct (N.ltb_spec p 65536).
  - by intros [= <- <-].
  - intros [= <- _]. generalize ((p - 65536) / 1024)%N. intros q Hq. lia.
Qed.

Lemma units_cons (p : N) : exists hd tl, Wide.units p = hd :: tl.
Proof. unfold Wide.units. destruct (p <? 65536)%N; by eauto. Qed.

Lemma special_upper_ok : forallb special_ok Wide.special_upper = true.
Proof. by vm_compute. Qed.

Lemma simple_upper_ok : forallb run_ok Wide.simple_upper = true.
Proof. by vm_compute. Qed.

Lemma ascii_specials_high (p : N) (out : list N) :
  (p, out) ∈ ascii_specials -> (128 <= p < 65536)%N.
Proof.
  unfold ascii_specials. intros H.
  repeat (apply elem_of_cons in H as [[= -> _]|H]; [lia|]).
  by apply elem_of_nil in H.
Qed.

Lemma ascii_specials_units (p : N) (out : list N) :
  (p, out) ∈ ascii_specials -> flat_map Wide.units out = out.
Proof.
  unfold ascii_specials. intros H.
  repeat (apply elem_of_cons in H as [[= _ ->]|H]; [done|]).
  by apply elem_of_nil in H.
Qed.

Lemma upper_cases (p : N) :
  exists hd tl,
    Wide.upper p = hd :: tl
    /\ ((hd < 128)%N ->
        (p < 128)%N /\ tl = [] /\ hd = ascii_upper p
        \/ (p, hd :: tl) ∈ ascii_specials).
Proof.
  unfold Wide.upper, Wide.upper_point.
  destruct (List.find _ Wide.special_upper) as [[c out]|] eqn:Es.
  { apply find_some in Es as [Hin Hc]. cbn [fst] in Hc. apply N.eqb_eq in Hc as ->.
    pose proof special_upper_ok as Hok. rewrite forallb_forall in Hok.
    specialize (Hok _ Hin). unfold special_ok in Hok. cbn [fst snd] in *.
    destruct (flat_map Wide.units out) as [|hd tl]; [done|].
    exists hd, tl. split; [done|]. intros Hhd. right.
    apply orb_true_iff in Hok as [Hok|Hok]; [apply N.leb_le in Hok; lia|].
    by apply bool_decide_eq_true in Hok. }
  destruct (List.find (Wide.in_run p) Wide.simple_upper) as [[[[a b] st] d]|] eqn:Er.
  { apply find_some in Er as [Hin Hp].
    pose proof simple_upper_ok as Hok. rewrite forallb_forall in Hok.
    specialize (Hok _ Hin). unfold run_ok in Hok. cbn [Wide.in_run] in Hp.
    apply andb_true_iff in Hp as [[Ha%N.leb_le Hb%N.leb_le]%andb_true_iff Hst].
    apply andb_true_iff in Hok as [_ Hok].
    cbn [flat_map]. rewrite app_nil_r.
    destruct (units_cons (Z.to_N (Z.of_N p + d))) as (hd & tl & Hu).
    exists hd, tl. split; [done|]. intros Hlow.
    destruct (units_low _ _ _ Hu Hlow) as [-> ->].
    apply orb_true_iff in Hok as [Hok|Hok].
    - apply orb_true_iff in Hok as [Hok|Hok].
      + apply Z.leb_le in Hok. lia.
      + apply bool_decide_eq_true in Hok. injection Hok as -> -> -> ->.
        left. split; [lia|]. split; [done|]. unfold ascii_upper.
        destruct (N.leb_spec 97 p), (N.leb_spec p 122); try lia.
        cbn [andb]. lia.
    - apply andb_true_iff in Hok as [Hab%N.eqb_eq Hok].
      apply bool_decide_eq_true in Hok. subst b. assert (p = a) as -> by lia.
      by right. }
  cbn [flat_map]. rewrite app_nil_r.
  destruct (units_cons p) as (hd & tl & Hu).
  exists hd, tl. split; [done|]. intros Hlow.
  destruct (units_low _ _ _ Hu Hlow) as [-> ->].
  left. split; [done|]. split; [done|].
  assert (Hrun : Wide.in_run p (Wide.run 97 122 1 (-32)) = false).
  { eapply find_none in Er; [done|]. by left. }
  unfold ascii_upper. cbn in Hrun. rewrite N.mod_1_r in Hrun.
  cbn in Hrun. rewrite andb_true_r in Hrun. by rewrite Hrun.
Qed.

Lemma upper_ascii (p : N) : (p < 128)%N -> Wide.upper p = [ascii_upper p].
Proof.
  intros Hp.
  assert (H : forallb (fun n => bool_decide
                (Wide.upper (N.of_nat n) = [ascii_upper (N.of_nat n)]))
                (seq 0 128) = true) by (by vm_compute).
  rewrite forallb_forall in H. specialize (H (N.to_nat p)).
  rewrite N2Nat.id in H. eapply bool_decide_eq_true_1, H, in_seq. lia.
Qed.

Lemma toUpperCase_cons (c : N) (t : Wide.ustring) :
  Wide.toUpperCase (c :: t) = Wide.upper c ++ Wide.toUpperCase t
  \/ exists lo t',
       t = lo :: t' /\ (65536 <= Wide.code_point c lo)%N
       /\ Wide.toUpperCase (c :: t) =
            Wide.upper (Wide.code_point c lo) ++ Wide.toUpperCase t'.
Proof.
  destruct t as [|lo t']; [by left|]. cbn [Wide.toUpperCase].
  destruct (Wide.is_high c && Wide.is_low lo) eqn:E; [|by left].
  right. exists lo, t'. split; [done|]. split; [|done].
  unfold Wide.code_point. lia.
Qed.

Lemma toUpperCase_low (c : N) (t : Wide.ustring) :
  (c < 55296)%N ->
  Wide.toUpperCase (c :: t) = Wide.upper c ++ Wide.toUpperCase t.
Proof.
  intros Hc. destruct t as [|lo t']; [done|]. cbn [Wide.toUpperCase].
  unfold Wide.is_high. destruct (N.leb_spec 55296 c); [lia | done].
Qed.

Lemma of_string_cons (a : ascii) (s : string) :
  Wide.of_string (String a s) = code a :: Wide.of_string s.
Proof. reflexivity. Qed.

Lemma of_string_append (a b : string) :
  Wide.of_string (a +:+ b) = Wide.of_string a ++ Wide.of_string b.
Proof.
  induction a as [|c a IH]; [done|].
  rewrite append_cons, !of_string_cons, IH. done.
Qed.

Lemma capital_code (a : ascii) :
  capital a = true -> (65 <= code a <= 90)%N /\ code a <> 73%N.
Proof.
  unfold capital. intros [Hu Hi]%andb_true_iff.
  apply between_spec in Hu. apply negb_true_iff, N.eqb_neq in Hi. done.
Qed.

Lemma plain_cons (a : ascii) (abbr : string) :
  plain (String a abbr) = true ->
  capital a = true /\ plain abbr = true
  /\ forall b rest, abbr = String b rest ->
       ~ (code a = 83%N /\ (code b = 83%N \/ code b = 84%N))
       /\ ~ (code a = 70%N /\ (code b = 70%N \/ code b = 76%N)).
Proof.
  cbn [plain]. intros [[Ha Hp]%andb_true_iff Hr]%andb_true_iff.
  split; [done|]. split; [done|]. intros b rest ->.
  apply negb_true_iff, orb_false_iff in Hp as [H1 H2].
  split; intros [Ha' Hb].
  - apply N.eqb_eq in Ha'. rewrite Ha' in H1. cbn [andb] in H1.
    apply orb_false_iff in H1 as [?%N.eqb_neq ?%N.eqb_neq]. by destruct Hb.
  - apply N.eqb_eq in Ha'. rewrite Ha' in H2. cbn [andb] in H2.
    apply orb_false_iff in H2 as [?%N.eqb_neq ?%N.eqb_neq]. by destruct Hb.
Qed.

(** A string whose upper case is a plain text of capitals spells it. *)
Lemma toUpperCase_spells (abbr : string) (s : Wide.ustring) :
  plain abbr = true -> Wide.toUpperCase s = Wide.of_string abbr ->
  spells s abbr = true.
Proof.
  revert s. induction abbr as [|a abbr IH]; intros s Hplain H.
  - destruct s as [|c t]; [done|]. exfalso.
    destruct (toUpperCase_cons c t) as [E|(lo & t' & _ & _ & E)]; rewrite E in H;
      match type of H with Wide.upper ?p ++ _ = _ =>
        destruct (upper_cases p) as (hd & tl & Hu & _); by rewrite Hu in H end.
  - apply plain_cons in Hplain as (Ha & Hrest & Hpair).
    apply capital_code in Ha as [Ha Hi].
    rewrite of_string_cons in H.
    destruct s as [|c t]; [done|].
    destruct (toUpperCase_cons c t) as [E|(lo & t' & _ & Hhigh & E)]; rewrite E in H.
    2:{ exfalso. destruct (upper_cases (Wide.code_point c lo)) as (hd & tl & Hu & Hc).
        rewrite Hu in H. injection H as -> _.
        destruct Hc as [[? _]|Hsp%ascii_specials_high]; lia. }
    destruct (upper_cases c) as (hd & tl & Hu & Hc).
    rewrite Hu in H. injection H as -> H.
    cbn [spells]. destruct Hc as [(Hlow & -> & Hup)|Hsp]; [lia | |].
    + rewrite (IH t Hrest H), andb_true_r. unfold spells_letter, letter_of.
      unfold ascii_upper in Hup.
      destruct (N.leb_spec 97 c), (N.leb_spec c 122); cbn [andb] in Hup.
      * replace c with (code a + 32)%N by lia.
        by rewrite N.eqb_refl, orb_true_r.
      * by rewrite <- Hup, N.eqb_refl.
      * by rewrite <- Hup, N.eqb_refl.
      * by rewrite <- Hup, N.eqb_refl.
    + unfold ascii_specials in Hsp.
      repeat (apply elem_of_cons in Hsp as [Hsp|Hsp];
              [injection Hsp as -> Hhd ->; cbn [app] in H;
               first
                 [ (* the long s *)
                   rewrite (IH t Hrest H), andb_true_r; unfold spells_letter, letter_of;
                   rewrite Hhd; reflexivity
                 | exfalso; congruence
                 | exfalso; destruct abbr as [|b rest]; [done|];
                   rewrite of_string_cons in H; injection H as Hb _;
                   pose proof (code_bound b);
                   destruct (Hpair b rest eq_refl) as [P1 P2];
                   apply plain_cons in Hrest as (Hb' & _ & _);
                   apply capital_code in Hb' as [_ Hbi];
                   first [lia | apply P1; split; [congruence|]; (left + right); congruence
                         | apply P2; split; [congruence|]; (left + right); congruence
                         | congruence ] ] |]).
      by apply elem_of_nil in Hsp.
Qed.

(** A string that spells a text of capitals has it as its upper case. *)
Lemma spells_toUpperCase (abbr : string) (s : Wide.ustring) :
  plain abbr = true -> spells s abbr = true ->
  Wide.toUpperCase s = Wide.of_string abbr.
Proof.
  revert s. induction abbr as [|a abbr IH]; intros [|c t] Hplain H; try done.
  apply plain_cons in Hplain as (Ha & Hrest & _).
  apply capital_code in Ha as [Ha _].
  cbn [spells] in H. apply andb_true_iff in H as [Hc Ht].
  rewrite of_string_cons, <- (IH t Hrest Ht).
  unfold spells_letter, letter_of in Hc. rewrite !orb_true_iff, andb_true_iff, !N.eqb_eq in Hc.
  destruct Hc as [[->| ->]|[-> Hs]].
  - rewrite toUpperCase_low, upper_ascii by lia. unfold ascii_upper.
    destruct (N.leb_spec 97 (code a)); [lia | done].
  - rewrite toUpperCase_low, upper_ascii by lia. unfold ascii_upper.
    destruct (N.leb_spec 97 (code a + 32)), (N.leb_spec (code a + 32) 122); try lia.
    cbn [andb app]. f_equal. lia.
  - rewrite toUpperCase_low by lia. by rewrite Hs.
Qed.

Lemma spells_decide (abbr : string) (s : Wide.ustring) :
  plain abbr = true ->
  bool_decide (Wide.of_string abbr = Wide.toUpperCase s) = spells s abbr.
Proof.
  intros Hplain. destruct (spells s abbr) eqn:E.
  - apply bool_decide_eq_true_2. symmetry. by apply spells_toUpperCase.
  - apply bool_decide_eq_false_2. intros H.
    by rewrite (toUpperCase_spells abbr s Hplain (eq_sym H)) in E.
Qed.

Lemma property_wide (s : Wide.ustring) :
  Wide.property (Wide.toUpperCase s) monthMap = wide_ordinal s.
Proof.
  unfold monthMap, Wide.property.
  rewrite !spells_decide by reflexivity.
  reflexivity.
Qed.

Lemma wide_ordinal_from_range (s : Wide.ustring) (names : list string) (n m : Z) :
  wide_ordinal_from n s names = Some m -> n <= m < n + Z.of_nat (length names).
Proof.
  revert n. induction names as [|abbr names IH]; intros n; simpl; [done|].
  destruct (spells s abbr).
  - intros [= <-]. lia.
  - intros H. apply IH in H. lia.
Qed.

Lemma getMonth_wide_ordinal (s : Wide.ustring) :
  Wide.getMonth (Some s) =
    match wide_ordinal s with
    | Some n => Wide.Ok n
    | None =>
        Wide.Throw
          (Wide.Error (Wide.of_string "Invalid month abbreviation: " ++ s))
    end.
Proof.
  unfold Wide.getMonth. rewrite property_wide.
  destruct (wide_ordinal s) as [n|] eqn:E; [|done].
  apply wide_ordinal_from_range in E. simpl in *.
  destruct (n =? 0) eqn:E0; [|done]. apply Z.eqb_eq in E0. lia.
Qed.

(** On the strings of 8-bit characters the long s does not occur: a
    string spells an abbreviation when it is the abbreviation in some
    letter case. *)
Lemma spells_any_case (abbr t : string) :
  plain abbr = true -> spells (Wide.of_string t) abbr = any_case t abbr.
Proof.
  revert t. induction abbr as [|a abbr IH]; intros [|c t] Hplain; try done.
  apply plain_cons in Hplain as (Ha & Hrest & _).
  apply capital_code in Ha as [Ha _].
  rewrite of_string_cons. cbn [spells any_case]. rewrite (IH t Hrest). f_equal.
  unfold spells_letter, letter_of, same_letter.
  rewrite ascii_eqb_code, !code_lower_char.
  pose proof (code_bound c) as Hc.
  assert (Ec : (code c =? 383)%N = false) by (apply N.eqb_neq; lia).
  rewrite Ec, andb_false_l, orb_false_r.
  assert (Eu : is_upper a = true) by (apply between_spec; lia). rewrite Eu.
  destruct (is_upper c) eqn:Eb.
  - apply between_spec in Eb.
    destruct (N.eqb_spec (code c) (code a)) as [->|Hne].
    + by rewrite N.eqb_refl.
    + cbn [orb]. destruct (N.eqb_spec (code c) (code a + 32)); [lia|].
      symmetry. apply N.eqb_neq. lia.
  - assert (Hn : ~ (65 <= code c <= 90)%N)
      by (intros Hb%between_spec; unfold is_upper in Eb; congruence).
    destruct (N.eqb_spec (code c) (code a)); [lia|]. cbn [orb]. done.
Qed.

Lemma wide_ordinal_of_string (t : string) :
  wide_ordinal (Wide.of_string t) = month_ordinal t.
Proof.
  unfold wide_ordinal, month_ordinal, calendar, wide_ordinal_from, ordinal_from.
  by rewrite !spells_any_case by reflexivity.
Qed.

(** The month lookup of the parsers is the month lookup of the program
    on the strings of 8-bit characters. *)
Lemma getMonth_wide (abbrev : option string) :
  Wide.getMonth (Wide.of_string <$> abbrev) = Wide.widen (getMonth abbrev).
Proof.
  destruct abbrev as [t|]; [|done].
  cbn [fmap option_fmap option_map].
  rewrite getMonth_wide_ordinal, getMonth_month_ordinal, wide_ordinal_of_string.
  destruct (month_ordinal t); [done|].
  cbn [Wide.widen]. by rewrite of_string_append.
Qed.

Lemma of_string_bound (t : string) : Forall (fun c => (c < 256)%N) (Wide.of_string t).
Proof.
  induction t as [|a t IH]; [constructor|].
  rewrite of_string_cons. constructor; [apply code_bound | done].
Qed.

Lemma of_string_inj (a b : string) : Wide.of_string a = Wide.of_string b -> a = b.
Proof.
  revert b. induction a as [|x a IH]; intros [|y b]; try done.
  rewrite !of_string_cons. intros [= Hx%code_inj Hab]. by rewrite Hx, (IH _ Hab).
Qed.

Lemma in_any_case_spells (s : Wide.ustring) (abbr : string) :
  in_any_case s abbr = true -> spells s abbr = true.
Proof.
  revert s. induction abbr as [|a abbr IH]; intros [|c t]; try done.
  cbn [in_any_case spells]. intros [Hc Ht]%andb_true_iff.
  unfold spells_letter. by rewrite Hc, (IH t Ht).
Qed.

Lemma wide_ordinal_from_spells (n : Z) (s : Wide.ustring) (names : list string)
    (i : nat) (abbr : string) :
  NoDup names -> forallb plain names = true ->
  names !! i = Some abbr -> spells s abbr = true ->
  wide_ordinal_from n s names = Some (n + Z.of_nat i).
Proof.
  revert n i. induction names as [|x names IH]; intros n i; [done|].
  rewrite NoDup_cons. cbn [forallb wide_ordinal_from].
  intros [Hx Hnd] [Hpx Hp]%andb_true_iff Hi Hs.
  destruct i as [|i].
  - injection Hi as ->. rewrite Hs. f_equal. lia.
  - cbn [lookup list_lookup] in Hi.
    destruct (spells s x) eqn:Ex.
    + exfalso. apply Hx.
      assert (Hpa : plain abbr = true).
      { rewrite forallb_forall in Hp. apply Hp, list_elem_of_In.
        by eapply list_elem_of_lookup_2. }
      assert (x = abbr) as ->.
      { apply of_string_inj.
        by rewrite <- (spells_toUpperCase x s), <- (spells_toUpperCase abbr s). }
      by eapply list_elem_of_lookup_2.
    + rewrite (IH (n + 1) i Hnd Hp Hi Hs). f_equal. lia.
Qed.

Lemma wide_ordinal_from_inv (n : Z) (s : Wide.ustring) (names : list string) (m : Z) :
  wide_ordinal_from n s names = Some m ->
  n <= m /\ exists abbr, names !! Z.to_nat (m - n) = Some abbr /\ spells s abbr = true.
Proof.
  revert n. induction names as [|x names IH]; intros n; [done|].
  cbn [wide_ordinal_from]. destruct (spells s x) eqn:Ex.
  - intros [= <-]. split; [lia|]. exists x. by rewrite Z.sub_diag.
  - intros (Hle & abbr & Ha & Hs)%IH. split; [lia|]. exists abbr. split; [|done].
    replace (Z.to_nat (m - n)) with (S (Z.to_nat (m - (n + 1)))) by lia. done.
Qed.

(** C6, as the specification states it, fails.  The string of the long s
    (U+017F), [e] and [p] is none of the twelve abbreviations in any
    letter case; its upper case is [SEP], and the lookup answers 9
    instead of failing. *)
Lemma getMonth_long_s :
  existsb (in_any_case [383; 101; 112]%N) calendar = false
  /\ Wide.toUpperCase [383; 101; 112]%N = Wide.of_string "SEP"
  /\ Wide.getMonth (Some [383; 101; 112]%N) = Wide.Ok 9.
Proof. by vm_compute. Qed.

Lemma spells_without_s (abbr : string) (s : Wide.ustring) :
  includes "S" abbr = false -> spells s abbr = in_any_case s abbr.
Proof.
  revert s. induction abbr as [|a abbr IH]; intros [|c t]; try done.
  cbn [includes spells in_any_case]. intros [Ha Hs]%orb_false_iff.
  rewrite (IH t Hs). f_equal. unfold spells_letter.
  rewrite ascii_eqb_code in Ha. change (code "S") with 83%N in Ha.
  by rewrite Ha, andb_false_r, orb_false_r.
Qed.

(** C6, amended.  [getMonth] answers the ordinal (1 to 12, in calendar
    order) of the English three-letter abbreviation the string spells,
    and throws the error of an unknown month, naming the string, when it
    spells none.  A string spells an abbreviation when it has its three
    letters, each capital or small, the long s (U+017F) counting as an
    s: every abbreviation in any letter case is accepted with the ordinal
    of its month, and so are the spellings of SEP with the long s, whose
    upper case is S.  On a string of 8-bit characters, which has no long
    s, the lookup answers exactly the abbreviations in any letter
    case. *)
Theorem getMonth_any_case (s : Wide.ustring) :
  Wide.getMonth (Some s) =
    match wide_ordinal s with
    | Some n => Wide.Ok n
    | None =>
        Wide.Throw (Wide.Error (Wide.of_string "Invalid month abbreviation: " ++ s))
    end
  /\ (forall n, wide_ordinal s = Some n ->
        1 <= n <= 12
        /\ exists abbr, calendar !! Z.to_nat (n - 1) = Some abbr /\ spells s abbr = true)
  /\ (forall i abbr, calendar !! i = Some abbr ->
        in_any_case s abbr = true \/ spells s abbr = true ->
        Wide.getMonth (Some s) = Wide.Ok (Z.of_nat i + 1))
  /\ (forall abbr, abbr ∈ calendar -> spells s abbr = true ->
        in_any_case s abbr = true
        \/ abbr = "SEP" /\ exists s', s = 383%N :: s' /\ in_any_case s' "EP" = true)
  /\ (forall t : string,
        wide_ordinal (Wide.of_string t) = month_ordinal t
        /\ Wide.getMonth (Some (Wide.of_string t)) = Wide.widen (getMonth (Some t))
        /\ getMonth (Some t) =
             match month_ordinal t with
             | Some n => JS.Ok n
             | None => JS.Throw (JS.Error ("Invalid month abbreviation: " +:+ t))
             end)
  /\ getMonth (Some "JAN") = JS.Ok 1 /\ getMonth (Some "jan") = JS.Ok 1
  /\ getMonth (Some "Feb") = JS.Ok 2 /\ getMonth (Some "dEc") = JS.Ok 12
  /\ getMonth (Some "JANU") = JS.Throw (JS.Error "Invalid month abbreviation: JANU")
  /\ getMonth (Some "") = JS.Throw (JS.Error "Invalid month abbreviation: ").
Proof.
  split; [apply getMonth_wide_ordinal|].
  split.
  { intros n Hn. split.
    - apply wide_ordinal_from_range in Hn. simpl in Hn. lia.
    - by apply wide_ordinal_from_inv in Hn as (_ & abbr & Ha & Hs); eauto. }
  split.
  { intros i abbr Hi Hs.
    assert (Hsp : spells s abbr = true)
      by (destruct Hs as [Hs|Hs]; [by apply in_any_case_spells | done]).
    rewrite getMonth_wide_ordinal. unfold wide_ordinal.
    rewrite (wide_ordinal_from_spells 1 s calendar i abbr); [by rewrite Z.add_comm| |done..].
    by apply (bool_decide_eq_true_1 (NoDup calendar)). }
  split.
  { intros abbr Ha Hs. unfold calendar in Ha.
    repeat (apply elem_of_cons in Ha as [->|Ha];
            [first [left; by rewrite <- spells_without_s | idtac]|]);
      [|by apply elem_of_nil in Ha].
    destruct s as [|c s']; [done|]. cbn [spells] in Hs.
    apply andb_true_iff in Hs as [Hc Hs'].
    rewrite spells_without_s in Hs' by done.
    unfold spells_letter in Hc. apply orb_true_iff in Hc as [Hc|Hc].
    - left. cbn [in_any_case]. by rewrite Hc, Hs'.
    - right. split; [done|]. apply andb_true_iff in Hc as [->%N.eqb_eq _]. by eauto. }
  split.
  { intros t. split; [apply wide_ordinal_of_string|].
    split; [apply (getMonth_wide (Some t)) | apply getMonth_month_ordinal]. }
  by vm_compute.
Qed.

(** ** C3: date-range parser *)

Lemma split_two (sep : ascii) (a b : string) :
  includes sep a = false -> includes sep b = false ->
  split sep (a +:+ String sep b) = [a; b].
Proof. intros Ha Hb. by rewrite split_append, split_none. Qed.

Lemma word_no_space (s : string) : word s = true -> includes " " s = false.
Proof. intros (_ & _ & _ & _ & Hs)%word_inv. by apply includes_word. Qed.

Lemma word_no_slash (s : string) : word s = true -> includes "/" s = false.
Proof. intros (_ & _ & _ & _ & Hs)%word_inv. by apply includes_word. Qed.

Lemma pad2_short (c : ascii) : pad2 (String c "") = String "0" (String c "").
Proof. reflexivity. Qed.

Lemma pad2_long (s : string) : (2 <= String.length s)%nat -> pad2 s = s.
Proof.
  intros H. unfold pad2, padStart.
  by replace (2 - String.length s)%nat with O by lia.
Qed.

Lemma parseDatePart_two_months (year : number) (d1 m1 d2 m2 : string) (k1 k2 : Z) :
  digits d1 = true -> word m1 = true -> digits d2 = true -> word m2 = true ->
  getMonth (Some m1) = Ok k1 -> getMonth (Some m2) = Ok k2 ->
  parseDatePart (d1 +:+ " " +:+ m1 +:+ "/" +:+ d2 +:+ " " +:+ m2) year =
    Ok (isoDate year (pad2 (String_ (Num k1))) (pad2 d1),
        isoDate year (pad2 (String_ (Num k2))) (pad2 d2)).
Proof.
  intros Hd1%digits_word Hm1 Hd2%digits_word Hm2 Hk1 Hk2.
  assert ((d1 +:+ " " +:+ m1 +:+ "/" +:+ d2 +:+ " " +:+ m2)
    = ((d1 +:+ " " +:+ m1) +:+ String "/" (d2 +:+ " " +:+ m2)))
    as -> by (rewrite !append_assoc; reflexivity).
  unfold parseDatePart.
  rewrite split_two; cycle 1.
  { by rewrite !includes_append, (word_no_slash d1), (word_no_slash m1). }
  { by rewrite !includes_append, (word_no_slash d2), (word_no_slash m2). }
  cbn [map length Nat.eqb negb lookup list_lookup default].
  rewrite !trim_two_words by done. unfold id.
  assert (includes " " (d1 +:+ " " +:+ m1) = true) as ->.
  { rewrite !includes_append. simpl. by rewrite orb_true_r. }
  push_append.
  rewrite !split_two by by apply word_no_space.
  cbn [lookup list_lookup method bind try_catch].
  by rewrite Hk1, Hk2.
Qed.

Lemma parseDatePart_one_month (year : number) (d1 d2 m : string) (k : Z) :
  digits d1 = true -> digits d2 = true -> word m = true ->
  getMonth (Some m) = Ok k ->
  parseDatePart (d1 +:+ "/" +:+ d2 +:+ " " +:+ m) year =
    Ok (isoDate year (pad2 (String_ (Num k))) (pad2 d1),
        isoDate year (pad2 (String_ (Num k))) (pad2 d2)).
Proof.
  intros Hd1%digits_word Hd2%digits_word Hm Hk.
  unfold parseDatePart. push_append.
  rewrite split_two; cycle 1.
  { by apply word_no_slash. }
  { rewrite !includes_append. simpl.
    by rewrite (word_no_slash d2), (word_no_slash m). }
  cbn [map length Nat.eqb negb lookup list_lookup default].
  rewrite <- (append_nil_l m), <- append_cons.
  rewrite trim_two_words, trim_word by done. unfold id.
  rewrite (word_no_space d1) by done.
  push_append.
  rewrite !split_two by by apply word_no_space.
  cbn [lookup list_lookup method bind try_catch].
  by rewrite Hk.
Qed.

(** C3. Both accepted shapes of a date fragment.  With a month on both
    sides each side takes its own month; with a month on the second side
    only, the first day takes the month of the second side.  Days and
    months are padded with a zero to two characters.  The two fragments of
    the specification give the dates it states. *)
Theorem parseDatePart_shapes (year : number) (d1 m1 d2 m2 : string) (k1 k2 : Z) :
  digits d1 = true -> word m1 = true -> digits d2 = true -> word m2 = true ->
  getMonth (Some m1) = Ok k1 -> getMonth (Some m2) = Ok k2 ->
  parseDatePart (d1 +:+ " " +:+ m1 +:+ "/" +:+ d2 +:+ " " +:+ m2) year =
    Ok (String_ year +:+ "-" +:+ pad2 (String_ (Num k1)) +:+ "-" +:+ pad2 d1,
        String_ year +:+ "-" +:+ pad2 (String_ (Num k2)) +:+ "-" +:+ pad2 d2)
  /\ parseDatePart (d1 +:+ "/" +:+ d2 +:+ " " +:+ m2) year =
    Ok (String_ year +:+ "-" +:+ pad2 (String_ (Num k2)) +:+ "-" +:+ pad2 d1,
        String_ year +:+ "-" +:+ pad2 (String_ (Num k2)) +:+ "-" +:+ pad2 d2)
  /\ (forall c, pad2 (String c "") = String "0" (String c ""))
  /\ (forall s, (2 <= String.length s)%nat -> pad2 s = s)
  /\ parseDatePart "3 JAN/5 FEB" (Num 2024) = Ok ("2024-01-03", "2024-02-05")
  /\ parseDatePart "3/5 JAN" (Num 2024) = Ok ("2024-01-03", "2024-01-05").
Proof.
  intros Hd1 Hm1 Hd2 Hm2 Hk1 Hk2.
  split; [by apply parseDatePart_two_months|].
  split; [by apply parseDatePart_one_month|].
  split; [apply pad2_short|].
  split; [apply pad2_long|].
  by vm_compute.
Qed.

Lemma parseDatePart_shapes_witness :
  parseDatePart "3 JAN/5 FEB" (Num 2024) = Ok ("2024-01-03", "2024-02-05")
  /\ parseDatePart "3/5 FEB" (Num 2024) = Ok ("2024-02-03", "2024-02-05").
Proof.
  pose proof (parseDatePart_shapes (Num 2024) "3" "JAN" "5" "FEB" 1 2
                eq_refl eq_refl eq_refl eq_refl eq_refl eq_refl) as (H1 & H2 & _).
  split; [exact H1 | exact H2].
Defined.

(** ** C4, C5: time-range parser *)

Lemma is_digit_not_dash (c : ascii) : is_digit c = true -> Ascii.eqb c "-" = false.
Proof. intros Hc. apply is_word_not; [by apply is_digit_word | done]. Qed.

Lemma parseTimePart_sides (a b : string) :
  includes "-" a = false -> includes "-" b = false ->
  parseTimePart (a +:+ "-" +:+ b) = Ok (clock a, clock b).
Proof.
  intros Ha Hb. unfold parseTimePart. push_append.
  by rewrite split_two.
Qed.

Lemma parseTimePart_ok (t : string) :
  is_ok (parseTimePart t) = includes "-" t.
Proof.
  unfold parseTimePart. rewrite <- split_second.
  destruct (split_cons "-" t) as (h & l & ->).
  by destruct l.
Qed.

Lemma parseTimePart_no_dash (t : string) :
  includes "-" t = false ->
  parseTimePart t =
    Throw (Error ("Failed to parse time part: " +:+ t +:+
                  ", error: Cannot read properties of undefined (reading 'slice')")).
Proof. intros H. unfold parseTimePart. by rewrite split_none. Qed.

(** C4. A fragment of four digits, a dash and four digits, each side with
    or without the marker Z, gives the two times [HH:MM:00Z] made of the
    first four characters of each side: the seconds are 00 and the Z is
    written, whatever the fragment carries.  ["1200-1430"] gives
    12:00:00Z and 14:30:00Z. *)
Theorem parseTimePart_well_formed (a b c d e f g h : ascii) (z1 z2 : bool) :
  forallb is_digit [a; b; c; d; e; f; g; h] = true ->
  parseTimePart (hhmm a b c d +:+ marker z1 +:+ "-" +:+ hhmm e f g h +:+ marker z2) =
    Ok (String a (String b (String ":" (String c (String d ":00Z")))),
        String e (String f (String ":" (String g (String h ":00Z")))))
  /\ parseTimePart "1200-1430" = Ok ("12:00:00Z", "14:30:00Z")
  /\ parseTimePart "1200Z-1430Z" = Ok ("12:00:00Z", "14:30:00Z").
Proof.
  intros H. split; [|by vm_compute].
  simpl in H. repeat (apply andb_true_iff in H as [?%is_digit_not_dash H]).
  rewrite <- append_assoc, parseTimePart_sides.
  - by destruct z1, z2.
  - destruct z1; unfold hhmm, marker; push_append; simpl;
      by repeat match goal with E : Ascii.eqb _ _ = false |- _ => rewrite E; clear E end.
  - destruct z2; unfold hhmm, marker; push_append; simpl;
      by repeat match goal with E : Ascii.eqb _ _ = false |- _ => rewrite E; clear E end.
Qed.

Lemma parseTimePart_well_formed_witness :
  parseTimePart "0930Z-1745Z" = Ok ("09:30:00Z", "17:45:00Z").
Proof.
  exact (proj1 (parseTimePart_well_formed "0" "9" "3" "0" "1" "7" "4" "5"
                  true true eq_refl)).
Defined.

(** C5, as the specification states it, fails: a side of two characters
    is no failure, the parser returns a shortened time. *)
Lemma parseTimePart_short_side :
  In "12" (split "-" "12-1430") /\ (String.length "12" < 4)%nat
  /\ parseTimePart "12-1430" = Ok ("12::00Z", "14:30:00Z").
Proof. by vm_compute; auto. Qed.

(** C5, amended.  The parser fails exactly when the fragment has no
    dash, with the error of a malformed time part; with a dash it returns,
    whatever the length of the sides: each side gives its first two
    characters, a colon, its next two characters and [:00Z]. *)
Theorem parseTimePart_fails_without_dash (t : string) :
  is_ok (parseTimePart t) = includes "-" t
  /\ (includes "-" t = false ->
      parseTimePart t =
        Throw (Error ("Failed to parse time part: " +:+ t +:+
                     ", error: Cannot read properties of undefined (reading 'slice')")))
  /\ (forall a b, includes "-" a = false -> includes "-" b = false ->
      parseTimePart (a +:+ "-" +:+ b) =
        Ok (substring 0 2 a +:+ ":" +:+ substring 2 2 a +:+ ":00Z",
            substring 0 2 b +:+ ":" +:+ substring 2 2 b +:+ ":00Z")).
Proof.
  split; [apply parseTimePart_ok|].
  split; [apply parseTimePart_no_dash|].
  apply parseTimePart_sides.
Qed.

(** ** Regular expressions: literals and the search *)

Lemma matcher_cat (ic : bool) (r1 r2 : regex) (pos : nat) (rest : string)
    (cs : caps) (k : cont) :
  matcher ic (r1 ⋅ r2) pos rest cs k =
    matcher ic r1 pos rest cs (fun pos' rest' cs' => matcher ic r2 pos' rest' cs' k).
Proof. reflexivity. Qed.



Lemma matcher_cap (ic : bool) (n : nat) (r1 : regex) (pos : nat) (rest : string)
    (cs : caps) (k : cont) :
  matcher ic (Cap n r1) pos rest cs k =
    matcher ic r1 pos rest cs
      (fun pos' rest' cs' => k pos' rest' ((n, (pos, pos')) :: cs')).
Proof. reflexivity. Qed.


Lemma matcher_lit (ic : bool) (w : string) (pos : nat) (rest : string)
    (cs : caps) (k : cont) :
  matcher ic (lit w) pos rest cs k =
    match strip ic w rest with
    | Some rest' => k (pos + String.length w)%nat rest' cs
    | None => None
    end.
Proof.
  revert pos rest. induction w as [|c w IH]; intros pos rest; simpl.
  - by rewrite Nat.add_0_r.
  - destruct rest as [|a rest]; [done|].
    destruct (same_char ic a c); [|done].
    rewrite IH. by rewrite Nat.add_succ_r.
Qed.

Lemma strip_any_case (w rest rest' : string) :
  strip true w rest = Some rest' <->
  exists mid, rest = mid +:+ rest' /\ any_case mid w = true.
Proof.
  revert rest. induction w as [|c w IH]; intros rest; cbn [strip].
  - split.
    + intros [= ->]. by exists "".
    + intros ([|x mid] & -> & H); [done | discriminate].
  - destruct rest as [|a rest].
    + split; [done|]. intros ([|x mid] & E & H); simpl in H; [done|].
      by rewrite append_cons in E.
    + rewrite same_char_same_letter. split.
      * destruct (same_letter a c) eqn:Eac; [|done].
        intros (mid & -> & H)%IH. exists (String a mid). simpl.
        by rewrite Eac, H.
      * intros ([|x mid] & E & H); simpl in H; [done|].
        rewrite append_cons in E. injection E as <- ->.
        apply andb_true_iff in H as [-> H]. apply IH. eauto.
Qed.

Lemma search_is_Some (ic : bool) (r : regex) (pos : nat) (s : string) :
  is_Some (search ic r pos s) <->
  exists pre rest, s = pre +:+ rest /\
    is_Some (matcher ic r (pos + String.length pre)%nat rest [] accept).
Proof.
  revert pos. induction s as [|c s IH]; intros pos; simpl.
  - destruct (matcher ic r pos "" [] accept) as [m|] eqn:E.
    + split; [|by eauto]. intros _. exists "", "". simpl.
      by rewrite Nat.add_0_r, E.
    + split; [by intros [? ?]|].
      intros (pre & rest & Hs & Hm).
      destruct pre; [|done]. rewrite append_nil_l in Hs. subst rest.
      simpl in Hm. rewrite Nat.add_0_r, E in Hm. by destruct Hm.
  - destruct (matcher ic r pos (String c s) [] accept) as [m|] eqn:E.
    + split; [|by eauto]. intros _. exists "", (String c s). simpl.
      by rewrite Nat.add_0_r, E.
    + rewrite IH. split.
      * intros (pre & rest & -> & Hm). exists (String c pre), rest.
        split; [done|]. simpl. by rewrite Nat.add_succ_r.
      * intros ([|x pre] & rest & Hs & Hm).
        -- rewrite append_nil_l in Hs. subst rest.
           simpl in Hm. rewrite Nat.add_0_r, E in Hm. by destruct Hm.
        -- rewrite append_cons in Hs. injection Hs as <- ->.
           exists pre, rest. split; [done|].
           simpl in Hm. by rewrite Nat.add_succ_r in Hm.
Qed.

(** ** C7: relevance filter *)

Lemma keywords_match (pos : nat) (rest : string) :
  is_Some (matcher true (source keywords) pos rest [] accept) <->
  exists kw, kw ∈ operator_keywords /\ is_Some (strip true kw rest).
Proof.
  unfold keywords, operator_keywords. cbn [source matcher].
  rewrite !matcher_lit. unfold accept. split.
  - intros H.
    destruct (strip true "Starship" rest) eqn:E1;
      [exists "Starship"; split; [set_solver | by rewrite E1]|].
    destruct (strip true "SpaceX" rest) eqn:E2;
      [exists "SpaceX"; split; [set_solver | by rewrite E2]|].
    destruct (strip true "Starlink" rest) eqn:E3;
      [exists "Starlink"; split; [set_solver | by rewrite E3]|].
    by destruct H.
  - intros (kw & Hkw & Hs).
    destruct (strip true "Starship" rest) eqn:E1; [done|].
    destruct (strip true "SpaceX" rest) eqn:E2; [done|].
    destruct (strip true "Starlink" rest) eqn:E3; [done|].
    apply elem_of_cons in Hkw as [->|Hkw]; [by rewrite E1 in Hs; destruct Hs|].
    apply elem_of_cons in Hkw as [->|Hkw]; [by rewrite E2 in Hs; destruct Hs|].
    apply elem_of_cons in Hkw as [->|Hkw]; [by rewrite E3 in Hs; destruct Hs|].
    by apply elem_of_nil in Hkw.
Qed.

Lemma test_keywords (s : string) :
  test keywords 1 s = bool_decide (is_Some (search true (source keywords) 0 s)).
Proof.
  unfold test, exec. cbn [global ignoreCase keywords Nat.ltb Nat.leb].
  replace (drop 0 s) with s by (by destruct s).
  by destruct (search _ _ _ _) as [[? [? ?]]|].
Qed.

Lemma relevant_mentions (a : Advisory) :
  relevant a = true <-> mentions_operator (summary a).
Proof.
  unfold relevant, mentions_operator, contains_any_case.
  rewrite test_keywords, bool_decide_eq_true, search_is_Some. split.
  - intros (pre & rest & Hs & (kw & Hkw & [rest' Hm])%keywords_match).
    apply strip_any_case in Hm as (mid & -> & Hm).
    exists kw. split; [done|]. by exists pre, mid, rest'.
  - intros (kw & Hkw & pre & mid & post & Hs & Hm).
    exists pre, (mid +:+ post). split; [done|].
    apply keywords_match. exists kw. split; [done|].
    exists post. apply strip_any_case. eauto.
Qed.

Lemma filter_sublist {A : Type} (f : A -> bool) (l : list A) :
  List.filter f l `sublist_of` l.
Proof.
  induction l as [|x l IH]; simpl; [constructor|].
  destruct (f x); by constructor.
Qed.

(** C7. The relevance filter returns a subsequence of the rows, in their
    order, made of exactly the rows whose summary contains one of the
    operator keywords in some letter case; it is a function of the rows
    alone.  A summary about a Starship static fire is kept, a routine
    airspace notice is dropped. *)
Theorem relevance_filter (rows : list Advisory) :
  List.filter relevant rows `sublist_of` rows
  /\ (forall a, a ∈ List.filter relevant rows <->
                a ∈ rows /\ mentions_operator (summary a))
  /\ (forall a, relevant a = true <-> mentions_operator (summary a))
  /\ (forall i t d o p,
        relevant (mkAdvisory i t "Starship static fire advisory" d o p) = true
        /\ relevant (mkAdvisory i t "Routine airspace notice" d o p) = false).
Proof.
  split; [apply filter_sublist|].
  split; [|split; [apply relevant_mentions | by vm_compute]].
  intros a. rewrite !list_elem_of_In, filter_In, relevant_mentions. tauto.
Qed.

(** ** Regular expressions: a match advances *)

Lemma length_drop (n : nat) (s : string) :
  String.length (drop n s) = (String.length s - n)%nat.
Proof.
  revert s. induction n as [|n IH]; intros [|c s]; simpl; try done.
Qed.

Lemma drop_drop (n m : nat) (s : string) : drop n (drop m s) = drop (m + n) s.
Proof.
  revert s. induction m as [|m IH]; intros s; [done|].
  destruct s as [|c s]; simpl; [by destruct n | apply IH].
Qed.

Lemma many_advances (c : cclass) (min : nat) (max : option nat) (pos : nat)
    (rest : string) (cs : caps) (k : cont) (res : nat * caps) :
  many c min max pos rest cs k = Some res ->
  exists n, (min <= n <= String.length rest)%nat
            /\ k (pos + n)%nat (drop n rest) cs = Some res.
Proof.
  assert (Hstop : forall min pos rest,
            counted min (k pos rest cs) = Some res ->
            exists n, (min <= n <= String.length rest)%nat
                      /\ k (pos + n)%nat (drop n rest) cs = Some res).
  { intros [|m] p r H; [|done]. exists O. simpl.
    rewrite Nat.add_0_r. split; [lia | by destruct r]. }
  revert min max pos. induction rest as [|a rest IH]; intros min max pos; simpl.
  - apply Hstop.
  - destruct (in_class c a && negb (exhausted max)); [|apply Hstop].
    destruct (many c (pred min) (pred <$> max) (S pos) rest cs k) eqn:E.
    + intros [= ->]. apply IH in E as (n & Hn & Hk).
      exists (S n). simpl. rewrite Nat.add_succ_r. split; [lia | done].
    + apply Hstop.
Qed.

Lemma matcher_advances (ic : bool) (r : regex) (pos : nat) (rest : string)
    (cs : caps) (k : cont) (res : nat * caps) :
  matcher ic r pos rest cs k = Some res ->
  exists n cs', (minlen r <= n <= String.length rest)%nat
                /\ k (pos + n)%nat (drop n rest) cs' = Some res
                /\ (capture_free r = true -> cs' = cs).
Proof.
  revert pos rest cs k.
  induction r as [|c|c|r1 IH1 r2 IH2|r1 IH1 r2 IH2|r1 IH1|min max c|i r1 IH1];
    intros pos rest cs k; simpl.
  - intros H. exists O, cs. rewrite Nat.add_0_r.
    split; [lia | by destruct rest].
  - destruct rest as [|a rest]; [done|]. destruct (same_char ic a c); [|done].
    intros H. exists 1%nat, cs. rewrite Nat.add_1_r. simpl. split; [lia | done].
  - destruct rest as [|a rest]; [done|]. destruct (in_class c a); [|done].
    intros H. exists 1%nat, cs. rewrite Nat.add_1_r. simpl. split; [lia | done].
  - intros (n1 & cs1 & Hn1 & (n2 & cs2 & Hn2 & Hk & Hc2)%IH2 & Hc1)%IH1.
    exists (n1 + n2)%nat, cs2. rewrite length_drop in Hn2.
    rewrite drop_drop, <- Nat.add_assoc in Hk. split; [lia|]. split; [done|].
    intros [F1 F2]%andb_true_iff. rewrite <- (Hc1 F1). by apply Hc2.
  - destruct (matcher ic r1 pos rest cs k) eqn:E.
    + intros [= ->]. apply IH1 in E as (n & cs' & Hn & Hk & Hc).
      exists n, cs'. split; [lia|]. split; [done|].
      intros [F1 _]%andb_true_iff. by apply Hc.
    + intros (n & cs' & Hn & Hk & Hc)%IH2. exists n, cs'.
      split; [lia|]. split; [done|].
      intros [_ F2]%andb_true_iff. by apply Hc.
  - destruct (matcher ic r1 pos rest cs k) eqn:E.
    + intros [= ->]. apply IH1 in E as (n & cs' & Hn & Hk & Hc).
      exists n, cs'. split; [lia | done].
    + intros H. exists O, cs. rewrite Nat.add_0_r.
      split; [lia | by destruct rest].
  - intros (n & Hn & Hk)%many_advances. by exists n, cs.
  - intros (n & cs' & Hn & Hk & _)%IH1. exists n, ((i, (pos, (pos + n)%nat)) :: cs').
    split; [done|]. split; [done | done].
Qed.

Lemma search_advances (ic : bool) (r : regex) (pos : nat) (rest : string)
    (start stop : nat) (cs : caps) :
  search ic r pos rest = Some (start, (stop, cs)) ->
  (pos <= start /\ start + minlen r <= stop
   /\ stop <= pos + String.length rest)%nat.
Proof.
  revert pos. induction rest as [|a rest IH]; intros pos; simpl.
  - destruct (matcher ic r pos "" [] accept) as [m|] eqn:E; [|done].
    intros [= <- ->]. apply matcher_advances in E as (n & cs' & Hn & [= <- _] & _).
    simpl in Hn. lia.
  - destruct (matcher ic r pos (String a rest) [] accept) as [m|] eqn:E.
    + intros [= <- ->]. apply matcher_advances in E as (n & cs' & Hn & [= <- _] & _).
      simpl in Hn. lia.
    + intros H%IH. lia.
Qed.

Lemma length_substring (n m : nat) (s : string) :
  (n + m <= String.length s)%nat -> String.length (substring n m s) = m.
Proof.
  revert n m. induction s as [|c s IH]; intros [|n] [|m]; simpl; try done; try lia.
  - intros H. rewrite IH; [done | lia].
  - intros H. apply (IH n 0%nat). lia.
  - intros H. apply IH. lia.
Qed.

(** [exec] on the pattern: a match starts at or after [lastIndex], is
    not empty, lies in the text, and [lastIndex] moves to its end. *)
Lemma exec_pattern_advances (s : string) (lastIndex lastIndex' : nat) (m : Match) :
  exec pattern 3 s lastIndex = (Some m, lastIndex') ->
  (lastIndex <= index m)%nat
  /\ (0 < String.length (matched m))%nat
  /\ lastIndex' = (index m + String.length (matched m))%nat
  /\ (lastIndex' <= String.length s)%nat
  /\ matched m = substring (index m) (String.length (matched m)) s.
Proof.
  unfold exec. cbn [global pattern].
  destruct (String.length s <? lastIndex)%nat eqn:El; [done|].
  apply Nat.ltb_ge in El.
  destruct (search _ _ _ _) as [[start [stop cs]]|] eqn:E; [|done].
  intros [= <- <-]. apply search_advances in E as (H1 & H2 & H3).
  rewrite length_drop in H3.
  change (minlen (source pattern)) with 30%nat in H2.
  cbn [index matched]. unfold text. cbn [fst snd].
  rewrite length_substring by lia.
  repeat split; lia.
Qed.

Lemma search_inv (ic : bool) (r : regex) (pos : nat) (rest : string)
    (start : nat) (m : nat * caps) :
  search ic r pos rest = Some (start, m) ->
  exists j, matcher ic r start (drop j rest) [] accept = Some m.
Proof.
  revert pos. induction rest as [|a rest IH]; intros pos; simpl.
  - destruct (matcher ic r pos "" [] accept) eqn:E; [|done].
    intros [= <- <-]. by exists O.
  - destruct (matcher ic r pos (String a rest) [] accept) eqn:E.
    + intros [= <- <-]. by exists O.
    + intros [j Hj]%IH. by exists (S j).
Qed.

(** The three groups of the pattern take part in every match. *)
Lemma exec_pattern_groups (s : string) (lastIndex lastIndex' : nat) (m : Match) :
  exec pattern 3 s lastIndex = (Some m, lastIndex') ->
  exists l d t, groups m = [Some l; Some d; Some t].
Proof.
  unfold exec. cbn [global pattern].
  destruct (String.length s <? lastIndex)%nat; [done|].
  destruct (search _ _ _ _) as [[start [stop cs]]|] eqn:E; [|done].
  intros [= <- _]. cbn [groups seq map].
  apply search_inv in E as [j H].
  unfold pattern in H. cbn [source ignoreCase] in H.
  rewrite matcher_cat, matcher_cap in H.
  apply matcher_advances in H as (n1 & cs1 & _ & H & E1).
  rewrite (E1 eq_refl) in H. clear E1 cs1.
  rewrite matcher_cat in H.
  apply matcher_advances in H as (n2 & cs2 & _ & H & E2).
  rewrite (E2 eq_refl) in H. clear E2 cs2.
  rewrite matcher_cat, matcher_cap in H.
  apply matcher_advances in H as (n3 & cs3 & _ & H & E3).
  rewrite (E3 eq_refl) in H. clear E3 cs3.
  rewrite matcher_cat in H.
  apply matcher_advances in H as (n4 & cs4 & _ & H & E4).
  rewrite (E4 eq_refl) in H. clear E4 cs4.
  rewrite matcher_cap in H.
  apply matcher_advances in H as (n5 & cs5 & _ & H & E5).
  rewrite (E5 eq_refl) in H. clear E5 cs5.
  injection H as _ <-. cbn [capture Nat.eqb fmap option_fmap option_map]. eauto.
Qed.

Lemma parseEntry_groups (m : Match) (year : number) (l d t : string) :
  groups m = [Some l; Some d; Some t] ->
  window year m = window_of year l d t
  /\ (window year m = None <->
      is_ok (parseDatePart d year) = false \/ is_ok (parseTimePart t) = false).
Proof.
  intros Hg. unfold window, window_of, parseEntry, group. rewrite Hg.
  cbn [lookup list_lookup Nat.sub mjoin option_join method bind id default].
  destruct (parseDatePart d year) as [[sd ed]|e1]; cbn [bind is_ok].
  - destruct (parseTimePart t) as [[st et]|e2]; cbn [bind is_ok].
    + split; [done|]. split; [done | by intros [|]].
    + split; [done|]. split; [by right | done].
  - split; [done|]. split; [by left | done].
Qed.

Lemma scan_groups (s : string) (fuel lastIndex : nat) (ms : list Match) :
  scan fuel s lastIndex = Some ms ->
  Forall (fun m => exists l d t, groups m = [Some l; Some d; Some t]) ms.
Proof.
  revert lastIndex ms. induction fuel as [|fuel IH]; intros li ms; [done|].
  simpl. destruct (exec pattern 3 s li) as [[m|] li'] eqn:E.
  - destruct (scan fuel s li') as [ms'|] eqn:E'; [|done].
    intros [= <-]. constructor; [by eapply exec_pattern_groups | by eapply IH].
  - intros [= <-]. constructor.
Qed.

(** ** C2: the detail extractor skips what it cannot parse *)

(** Enough iterations: one more than the characters left. *)
Lemma scan_enough (s : string) (fuel lastIndex : nat) :
  (String.length s < fuel + lastIndex)%nat -> (0 < fuel)%nat ->
  exists ms, scan fuel s lastIndex = Some ms /\ in_order s lastIndex ms.
Proof.
  revert lastIndex. induction fuel as [|fuel IH]; intros li Hlen Hpos; [lia|].
  simpl. destruct (exec pattern 3 s li) as [[m|] li'] eqn:E.
  - apply exec_pattern_advances in E as (H1 & H2 & -> & H4 & H5).
    destruct (IH (index m + String.length (matched m))%nat) as (ms & -> & Hms);
      [lia | lia |].
    exists (m :: ms). split; [done|]. simpl. auto.
  - by exists [].
Qed.

Lemma scan_more_fuel (s : string) (fuel fuel' lastIndex : nat) (ms : list Match) :
  scan fuel s lastIndex = Some ms -> (fuel <= fuel')%nat ->
  scan fuel' s lastIndex = Some ms.
Proof.
  revert fuel' lastIndex ms.
  induction fuel as [|fuel IH]; intros fuel' li ms; [done|].
  intros H Hle. destruct fuel' as [|fuel']; [lia|]. simpl in *.
  destruct (exec pattern 3 s li) as [[m|] li']; [|done].
  destruct (scan fuel s li') as [ms'|] eqn:E; [|done].
  rewrite (IH fuel' li' ms'); [done | done | lia].
Qed.

(** The loop is the scan, with each occurrence parsed as it is found. *)
Lemma parseDetails_loop_scan (fuel : nat) (s : string) (year : number)
    (lastIndex : nat) (parsedList : list ParsedDetail) (log : list string) :
  parseDetails_loop fuel s year lastIndex parsedList log =
    (fun ms => (parsedList ++ omap (window year) ms,
                log ++ omap (complaint year) ms)) <$> scan fuel s lastIndex.
Proof.
  revert lastIndex parsedList log.
  induction fuel as [|fuel IH]; intros li acc log; [done|].
  simpl. destruct (exec pattern 3 s li) as [[m|] li'].
  - destruct (parseEntry m year) as [entry|e] eqn:E; rewrite IH;
      (destruct (scan fuel s li') as [ms|]; [|done]);
      cbn [fmap option_fmap option_map omap list_omap];
      replace (window year m) with (match parseEntry m year with
                                    | Ok entry => Some entry
                                    | Throw _ => None
                                    end) by done;
      replace (complaint year m) with (match parseEntry m year with
                                       | Ok _ => None
                                       | Throw e => Some (entry_error m e)
                                       end) by done;
      rewrite E; by rewrite <- ?app_assoc.
  - simpl. by rewrite !app_nil_r.
Qed.

(** C2. On every text and year [parseDetails] returns: the loop ends,
    and more iterations than the text has characters change nothing.
    What it returns are the windows of the occurrences of the pattern, in
    the order of the occurrences, which lie one after the other in the
    text; each occurrence has its label, date fragment and time fragment,
    and gives a window exactly when both sub-parsers accept their
    fragment; an occurrence a sub-parser rejects is left out and a line is
    logged for it.  On a text with two well-formed windows around a
    malformed one, exactly the two well-formed windows are returned, in
    their order. *)
Theorem parseDetails_skips_failures (details : string) (year : number) :
  (exists ms,
     occurrences details = Some ms
     /\ in_order details 0 ms
     /\ parseDetails details year =
          Some (omap (window year) ms, omap (complaint year) ms)
     /\ Forall (fun m => exists l d t,
                  groups m = [Some l; Some d; Some t]
                  /\ window year m = window_of year l d t
                  /\ (window year m = None <->
                      is_ok (parseDatePart d year) = false
                      \/ is_ok (parseTimePart t) = false)
                  /\ (is_Some (complaint year m) <-> window year m = None)) ms
     /\ forall fuel, (String.length details < fuel)%nat ->
          parseDetails_loop fuel details year 0 [] [] = parseDetails details year)
  /\ parseDetails
       ("Primary Launch Day (1) 3/4 JUN 1200Z-1800Z, "
        +:+ "Backup Launch Day (2) 5 JUN/6 JYN 1200Z-1800Z; "
        +:+ "Backup Launch Day (3) 30 JUN/1 JUL 2300Z-0100Z") (Num 2024) =
     Some ([ {| type := "Primary Launch Day (1)";
                startDate := "2024-06-03"; endDate := "2024-06-04";
                startTime := "12:00:00Z"; endTime := "18:00:00Z";
                startDatetime := "2024-06-03T12:00:00Z";
                endDatetime := "2024-06-04T18:00:00Z" |};
             {| type := "Backup Launch Day (3)";
                startDate := "2024-06-30"; endDate := "2024-07-01";
                startTime := "23:00:00Z"; endTime := "01:00:00Z";
                startDatetime := "2024-06-30T23:00:00Z";
                endDatetime := "2024-07-01T01:00:00Z" |} ],
           [ "Error parsing detail entry: "
             +:+ "Backup Launch Day (2) 5 JUN/6 JYN 1200Z-1800Z, error: "
             +:+ "Failed to parse date part: 5 JUN/6 JYN, error: "
             +:+ "Invalid month abbreviation: JYN" ]).
Proof.
  split; [|by vm_compute].
  destruct (scan_enough details (S (String.length details)) 0) as (ms & Hms & Hord);
    [lia | lia |].
  exists ms. split; [done|]. split; [done|].
  split; [unfold parseDetails; by rewrite parseDetails_loop_scan, Hms|].
  split.
  - eapply Forall_impl; [by eapply scan_groups|].
    intros m (l & d & t & Hg). exists l, d, t.
    destruct (parseEntry_groups m year l d t Hg) as [Hw Hnone].
    split; [done|]. split; [done|]. split; [done|].
    unfold complaint, window.
    destruct (parseEntry m year); split; done.
  - intros fuel Hfuel. unfold parseDetails.
    rewrite !parseDetails_loop_scan, Hms.
    by rewrite (scan_more_fuel _ _ fuel _ _ Hms) by lia.
Qed.

(** ** Regular expressions: matching a text of a known shape *)









Lemma digits_length (s : string) : digits s = true -> (1 <= String.length s)%nat.
Proof.
  unfold digits. intros [H _]%andb_true_iff. destruct s; [done | simpl; lia].
Qed.

Lemma word_length (s : string) : word s = true -> (1 <= String.length s)%nat.
Proof. intros (c & s' & -> & _)%word_inv. simpl. lia. Qed.









Lemma substring_middle (x y z : string) :
  substring (String.length x) (String.length y) (x +:+ y +:+ z) = y.
Proof.
  induction x as [|c x IH]; [|by rewrite append_cons].
  rewrite append_nil_l. simpl. induction y as [|c y IH].
  - rewrite append_nil_l. by destruct z.
  - rewrite append_cons. simpl. by rewrite IH.
Qed.



Lemma exec_at_end (s : string) : exec pattern 3 s (String.length s) = (None, O).
Proof.
  destruct (exec pattern 3 s (String.length s)) as [[m|] li] eqn:E.
  - apply exec_pattern_advances in E. lia.
  - unfold exec in E. cbn [global pattern] in E.
    destruct (_ <? _)%nat; [by injection E as <-|].
    destruct (search _ _ _ _) as [[? [? ?]]|]; [done | by injection E as <-].
Qed.


Section Entry.

Variables (w : string) (counter : option string).
Variables (d1 : string) (m1 : option string) (d2 m2 : string).
Variables (a b c d e f g h : ascii).

Hypothesis word_w : word w = true.
Hypothesis digits_counter : from_option digits true counter = true.
Hypothesis digits_d1 : digits d1 = true.
Hypothesis word_m1 : from_option word true m1 = true.
Hypothesis digits_d2 : digits d2 = true.
Hypothesis word_m2 : word m2 = true.
Hypothesis digits_time : forallb is_digit [a; b; c; d; e; f; g; h] = true.

Let L := label_text w counter.
Let D := date_text d1 m1 d2 m2.
Let T := time_text a b c d e f g h.


End Entry.

(** ** C8: the label of an entry *)

Lemma parseTimePart_time_text (a b c d e f g h : ascii) :
  forallb is_digit [a; b; c; d; e; f; g; h] = true ->
  parseTimePart (time_text a b c d e f g h) =
    Ok (String a (String b (String ":" (String c (String d ":00Z")))),
        String e (String f (String ":" (String g (String h ":00Z"))))).
Proof.
  intros H. simpl in H.
  repeat (apply andb_true_iff in H as [?%is_digit_not_dash H]).
  unfold time_text.
  replace (hhmm a b c d +:+ "Z-" +:+ hhmm e f g h +:+ "Z")
    with ((hhmm a b c d +:+ "Z") +:+ "-" +:+ hhmm e f g h +:+ "Z")
    by (by rewrite !append_assoc).
  rewrite parseTimePart_sides; [done | |];
    unfold hhmm; push_append; simpl;
    by repeat match goal with E : Ascii.eqb _ _ = false |- _ => rewrite E; clear E end.
Qed.


(** ** The document store *)

Lemma put_other (a : Advisory) (c : Collection) :
  advisoryid a ∉ ids c -> put a <$> c = c.
Proof.
  induction c as [|d c IH]; [done|].
  unfold ids. rewrite fmap_cons, not_elem_of_cons. intros [Hd Hc].
  rewrite fmap_cons, IH by done. unfold put, matches.
  destruct (Z.eqb_spec (advisoryid (doc d)) (advisoryid a)); [congruence | done].
Qed.

Lemma ids_put (a : Advisory) (c : Collection) : ids (put a <$> c) = ids c.
Proof.
  unfold ids. rewrite <- list_fmap_compose. apply list_fmap_ext.
  intros _ d _. simpl. unfold put, matches.
  by destruct (Z.eqb_spec (advisoryid (doc d)) (advisoryid a)).
Qed.

Lemma replaceFirst_present (a : Advisory) (c : Collection) :
  advisoryid a ∈ ids c -> NoDup (ids c) ->
  replaceFirst (advisoryid a) a c = Some (put a <$> c).
Proof.
  induction c as [|d c IH]; [by intros ?%elem_of_nil|].
  unfold ids. rewrite fmap_cons, elem_of_cons, NoDup_cons.
  intros Hin [Hd Hc]. simpl. unfold put at 1, matches.
  destruct (Z.eqb_spec (advisoryid (doc d)) (advisoryid a)) as [E|E].
  - rewrite put_other; [done|]. by rewrite <- E.
  - destruct Hin as [?|Hin]; [congruence|]. by rewrite IH.
Qed.

Lemma replaceFirst_absent (key : Z) (a : Advisory) (c : Collection) :
  key ∉ ids c -> replaceFirst key a c = None.
Proof.
  induction c as [|d c IH]; [done|].
  unfold ids. rewrite fmap_cons, not_elem_of_cons. intros [Hd Hc].
  simpl. unfold matches.
  destruct (Z.eqb_spec (advisoryid (doc d)) key); [congruence|].
  by rewrite IH.
Qed.

Lemma upsert_present (a : Advisory) (c : Collection) :
  advisoryid a ∈ ids c -> NoDup (ids c) -> upsert a c = put a <$> c.
Proof.
  intros Hin Hc. unfold upsert, replaceOne.
  by rewrite replaceFirst_present.
Qed.

Lemma upsert_absent (a : Advisory) (c : Collection) :
  advisoryid a ∉ ids c -> upsert a c = c ++ [{| _id := fresh c; doc := a |}].
Proof.
  intros Hin. unfold upsert, replaceOne. by rewrite replaceFirst_absent.
Qed.

Lemma ids_upsert (a : Advisory) (c : Collection) :
  NoDup (ids c) ->
  ids (upsert a c) =
    if decide (advisoryid a ∈ ids c) then ids c else ids c ++ [advisoryid a].
Proof.
  intros Hc. case_decide as Hin.
  - by rewrite upsert_present, ids_put.
  - rewrite upsert_absent by done. unfold ids. by rewrite fmap_app.
Qed.

Lemma NoDup_upsert (a : Advisory) (c : Collection) :
  NoDup (ids c) -> NoDup (ids (upsert a c)).
Proof.
  intros Hc. rewrite ids_upsert by done. case_decide as Hin; [done|].
  apply NoDup_app. split; [done|]. split; [|apply NoDup_singleton].
  intros x Hx ->%list_elem_of_singleton. done.
Qed.

Lemma ids_upsert_mono (a : Advisory) (c : Collection) (key : Z) :
  NoDup (ids c) -> key ∈ ids c -> key ∈ ids (upsert a c).
Proof.
  intros Hc Hk. rewrite ids_upsert by done. case_decide; [done|].
  apply elem_of_app. by left.
Qed.

Lemma ids_upsert_self (a : Advisory) (c : Collection) :
  NoDup (ids c) -> advisoryid a ∈ ids (upsert a c).
Proof.
  intros Hc. rewrite ids_upsert by done. case_decide; [done|].
  apply elem_of_app. right. by apply list_elem_of_singleton.
Qed.

Lemma NoDup_ingest (es : list Advisory) (c : Collection) :
  NoDup (ids c) -> NoDup (ids (ingest es c)).
Proof.
  revert c. induction es as [|a es IH]; intros c Hc; [done|].
  simpl. by apply IH, NoDup_upsert.
Qed.

Lemma ids_ingest_mono (es : list Advisory) (c : Collection) (key : Z) :
  NoDup (ids c) -> key ∈ ids c -> key ∈ ids (ingest es c).
Proof.
  revert c. induction es as [|a es IH]; intros c Hc Hk; [done|].
  simpl. apply IH; [by apply NoDup_upsert | by apply ids_upsert_mono].
Qed.

Lemma ids_ingest_batch (es : list Advisory) (c : Collection) (a : Advisory) :
  NoDup (ids c) -> a ∈ es -> advisoryid a ∈ ids (ingest es c).
Proof.
  revert c. induction es as [|b es IH]; intros c Hc; [by intros ?%elem_of_nil|].
  intros [->|Ha]%elem_of_cons; simpl.
  - apply ids_ingest_mono; [by apply NoDup_upsert | by apply ids_upsert_self].
  - apply IH; [by apply NoDup_upsert | done].
Qed.

(** What is stored under another identity is left alone. *)
Lemma elem_of_upsert_other (a : Advisory) (c : Collection) (d : Document) :
  NoDup (ids c) -> d ∈ upsert a c -> advisoryid (doc d) <> advisoryid a -> d ∈ c.
Proof.
  intros Hc Hd Hne. destruct (decide (advisoryid a ∈ ids c)) as [Hin|Hin].
  - rewrite upsert_present in Hd by done.
    apply list_elem_of_fmap in Hd as (d0 & -> & Hd0).
    unfold put, matches in *.
    destruct (Z.eqb_spec (advisoryid (doc d0)) (advisoryid a)); [done | done].
  - rewrite upsert_absent in Hd by done.
    apply elem_of_app in Hd as [?|Hd]; [done|].
    apply list_elem_of_singleton in Hd as ->. done.
Qed.

(** What is stored under the identity of [a] is [a], every field of it. *)
Lemma elem_of_upsert_self (a : Advisory) (c : Collection) (d : Document) :
  NoDup (ids c) -> d ∈ upsert a c -> advisoryid (doc d) = advisoryid a -> doc d = a.
Proof.
  intros Hc Hd He. destruct (decide (advisoryid a ∈ ids c)) as [Hin|Hin].
  - rewrite upsert_present in Hd by done.
    apply list_elem_of_fmap in Hd as (d0 & -> & Hd0).
    unfold put, matches in *.
    destruct (Z.eqb_spec (advisoryid (doc d0)) (advisoryid a)); done.
  - rewrite upsert_absent in Hd by done.
    apply elem_of_app in Hd as [Hd|Hd];
      [|by apply list_elem_of_singleton in Hd as ->].
    exfalso. apply Hin. rewrite <- He. unfold ids.
    apply list_elem_of_fmap. eauto.
Qed.

Lemma latest_None (key : Z) (es : list Advisory) :
  latest key es = None <-> key ∉ advisoryid <$> es.
Proof.
  induction es as [|a es IH]; cbn [latest].
  - split; [intros _ ?%elem_of_nil; done | done].
  - rewrite fmap_cons, not_elem_of_cons, <- IH.
    destruct (latest key es); [by split; [|intros [_ ?]]|].
    destruct (Z.eqb_spec (advisoryid a) key); split; try done.
    all: try (intros [? _]; congruence).
    all: try (intros _; split; [congruence | done]).
Qed.

Lemma latest_Some (key : Z) (es : list Advisory) (x : Advisory) :
  latest key es = Some x -> x ∈ es /\ advisoryid x = key.
Proof.
  induction es as [|a es IH]; simpl; [done|].
  destruct (latest key es) as [y|].
  - intros [= ->]. destruct IH as [? ?]; [done|]. split; [by right | done].
  - destruct (Z.eqb_spec (advisoryid a) key); [|done].
    intros [= ->]. split; [by left | done].
Qed.

Lemma elem_of_ingest_other (es : list Advisory) (c : Collection) (d : Document) :
  NoDup (ids c) -> d ∈ ingest es c -> latest (advisoryid (doc d)) es = None -> d ∈ c.
Proof.
  revert c. induction es as [|a es IH]; intros c Hc Hd Hl; [done|].
  simpl in *. destruct (latest (advisoryid (doc d)) es) eqn:E; [done|].
  destruct (Z.eqb_spec (advisoryid a) (advisoryid (doc d))); [done|].
  apply (elem_of_upsert_other a); [done | | done].
  apply IH; [by apply NoDup_upsert | done | done].
Qed.

(** After the batch, what is stored under an identity of the batch is the
    last advisory of the batch with that identity. *)
Lemma elem_of_ingest_latest (es : list Advisory) (c : Collection) (d : Document)
    (x : Advisory) :
  NoDup (ids c) -> d ∈ ingest es c -> latest (advisoryid (doc d)) es = Some x ->
  doc d = x.
Proof.
  revert c. induction es as [|a es IH]; intros c Hc Hd Hl; [done|].
  simpl in *. destruct (latest (advisoryid (doc d)) es) as [y|] eqn:E.
  - injection Hl as ->. apply (IH (upsert a c)); [by apply NoDup_upsert | done | done].
  - destruct (Z.eqb_spec (advisoryid a) (advisoryid (doc d))) as [Ea|]; [|done].
    injection Hl as <-.
    apply (elem_of_upsert_self a c); [done | | done].
    apply (elem_of_ingest_other es); [by apply NoDup_upsert | done | done].
Qed.

Lemma puts_latest (es : list Advisory) (d : Document) :
  foldl (fun d a => put a d) d es =
    match latest (advisoryid (doc d)) es with
    | Some x => {| _id := _id d; doc := x |}
    | None => d
    end.
Proof.
  revert d. induction es as [|a es IH]; intros d; [done|].
  simpl. rewrite IH.
  assert (advisoryid (doc (put a d)) = advisoryid (doc d) /\ _id (put a d) = _id d)
    as [-> ->].
  { unfold put, matches.
    by destruct (Z.eqb_spec (advisoryid (doc d)) (advisoryid a)). }
  destruct (latest (advisoryid (doc d)) es); [done|].
  unfold put, matches. rewrite (Z.eqb_sym (advisoryid a)).
  by destruct (advisoryid (doc d) =? advisoryid a).
Qed.

Lemma ingest_present (es : list Advisory) (c : Collection) :
  NoDup (ids c) -> (forall a, a ∈ es -> advisoryid a ∈ ids c) ->
  ingest es c = (fun d => foldl (fun d a => put a d) d es) <$> c.
Proof.
  revert c. induction es as [|a es IH]; intros c Hc Hes.
  - simpl. by rewrite list_fmap_id.
  - simpl. rewrite upsert_present; [|apply Hes; by left | done].
    rewrite IH.
    + by rewrite <- list_fmap_compose.
    + by rewrite ids_put.
    + intros b Hb. rewrite ids_put. apply Hes. by right.
Qed.

(** Ingesting a batch again changes nothing. *)
Lemma ingest_idempotent (es : list Advisory) (c : Collection) :
  NoDup (ids c) -> ingest es (ingest es c) = ingest es c.
Proof.
  intros Hc. rewrite ingest_present.
  - rewrite <- (list_fmap_id (ingest es c)) at 2.
    apply list_fmap_ext. intros _ d Hd%list_elem_of_lookup_2.
    rewrite puts_latest.
    destruct (latest (advisoryid (doc d)) es) as [x|] eqn:E; [|done].
    rewrite <- (elem_of_ingest_latest es c d x Hc Hd E). by destruct d.
  - by apply NoDup_ingest.
  - intros a Ha. by apply ids_ingest_batch.
Qed.

Lemma findOne_unique (c : Collection) (d : Document) :
  NoDup (ids c) -> d ∈ c -> findOne (advisoryid (doc d)) c = Some d.
Proof.
  induction c as [|d0 c IH]; [by intros _ ?%elem_of_nil|].
  unfold ids. rewrite fmap_cons, NoDup_cons. intros [Hd0 Hc] Hd.
  simpl. unfold matches.
  destruct (Z.eqb_spec (advisoryid (doc d0)) (advisoryid (doc d))) as [E|E].
  - apply elem_of_cons in Hd as [->|Hd]; [done|].
    exfalso. apply Hd0. rewrite E. apply list_elem_of_fmap. eauto.
  - apply elem_of_cons in Hd as [->|Hd]; [done|]. by apply IH.
Qed.

(** ** The ingestion pipeline *)

Lemma parseDetails_total (details : string) (year : number) :
  exists parsed lines, parseDetails details year = Some (parsed, lines).
Proof.
  destruct (scan_enough details (S (String.length details)) 0) as (ms & Hms & _);
    [lia | lia |].
  unfold parseDetails. rewrite parseDetails_loop_scan, Hms. simpl. eauto.
Qed.

(** One record of the loop, and the loop, whatever calls of the store
    fail: a record whose call fails is logged and stores nothing. *)
Lemma processAdvisory_step (Y : string -> number) (a : Advisory) (st : State) :
  exists lines,
    processAdvisory Y a st =
      Some {| stored := match faults st with
                        | Some _ :: _ => stored st
                        | _ => upsert (enriched Y a) (stored st)
                        end;
              faults := tail (faults st);
              console := console st ++ lines |}
    /\ forall e, faults st !! O = Some (Some e) ->
         ("Error processing advisory " +:+ id_text a +:+ ": " +:+ message e) ∈ lines.
Proof.
  unfold processAdvisory, enriched.
  destruct (parseDetails_total (details a) (Y (advisorystarttime a)))
    as (parsed & lines & ->).
  cbn [mbind option_bind from_option fst]. unfold awaitReplaceOne, upsert.
  cbn [faults stored console].
  change (advisoryid (enrich a parsed)) with (advisoryid a).
  destruct (faults st) as [|[e|] fs]; cbn [tail];
    try (destruct (replaceOne (advisoryid a) (enrich a parsed) (stored st)) as [c' r];
         cbn [fst];
         destruct (0 <? matchedCount r)%nat;
           [|destruct (bool_decide (is_Some (upsertedId r)))]);
    unfold say; cbn [stored faults console]; rewrite <- app_assoc;
    (eexists; split; [reflexivity|]);
    intros e' He'; simplify_eq/=; set_solver.
Qed.

Lemma processAll_accepted (Y : string -> number) (rows : list Advisory) (st : State) :
  exists lines,
    processAll Y rows st =
      Some {| stored := ingest (enriched Y <$> accepted rows (faults st)) (stored st);
              faults := skipn (length rows) (faults st);
              console := console st ++ lines |}
    /\ forall i a e, rows !! i = Some a -> faults st !! i = Some (Some e) ->
         ("Error processing advisory " +:+ id_text a +:+ ": " +:+ message e) ∈ lines.
Proof.
  revert st. induction rows as [|a rows IH]; intros st.
  - exists []. simpl. rewrite app_nil_r. split; [by destruct st | done].
  - cbn [processAll]. destruct (processAdvisory_step Y a st) as (l1 & -> & He1).
    cbn [mbind option_bind].
    match goal with
    | |- context [processAll Y rows ?s] => destruct (IH s) as (l2 & -> & He2)
    end.
    cbn [stored faults console] in *. exists (l1 ++ l2). split.
    + rewrite <- app_assoc. f_equal. f_equal.
      * destruct (faults st) as [|[e|] fs]; cbn [accepted tail]; try done.
      * destruct (faults st); [by destruct (length rows) | done].
    + intros [|i] b e Hb Hf; apply elem_of_app.
      * left. injection Hb as <-. by apply He1.
      * right. apply (He2 i); [done|]. by rewrite lookup_tail.
Qed.

(** An identity stays stored, and the identity of what is upserted is
    stored, whether or not the store has one document per identity. *)
Lemma ids_upsert_cases (a : Advisory) (c : Collection) :
  ids (upsert a c) = ids c /\ advisoryid a ∈ ids c
  \/ ids (upsert a c) = ids c ++ [advisoryid a].
Proof.
  unfold upsert, replaceOne.
  destruct (replaceFirst (advisoryid a) a c) as [c'|] eqn:E; cbn [fst].
  - left. split.
    + revert c' E. induction c as [|d c IH]; intros c'; [done|].
      simpl. unfold matches.
      destruct (Z.eqb_spec (advisoryid (doc d)) (advisoryid a)) as [K|K].
      * intros [= <-]. unfold ids. rewrite !fmap_cons. simpl. by rewrite K.
      * destruct (replaceFirst (advisoryid a) a c) as [c''|]; [|done].
        intros [= <-]. unfold ids in *. rewrite !fmap_cons. f_equal. by apply IH.
    + destruct (decide (advisoryid a ∈ ids c)) as [|Hn]; [done|].
      by rewrite (replaceFirst_absent _ _ _ Hn) in E.
  - right. unfold ids. by rewrite fmap_app.
Qed.

Lemma ids_upsert_keeps (a : Advisory) (c : Collection) (key : Z) :
  key ∈ ids c -> key ∈ ids (upsert a c).
Proof.
  intros Hk. destruct (ids_upsert_cases a c) as [[-> _]| ->]; [done|].
  apply elem_of_app. by left.
Qed.

Lemma ids_upsert_holds (a : Advisory) (c : Collection) :
  advisoryid a ∈ ids (upsert a c).
Proof.
  destruct (ids_upsert_cases a c) as [[-> ?]| ->]; [done|].
  apply elem_of_app. right. by apply list_elem_of_singleton.
Qed.

Lemma ids_ingest_keeps (es : list Advisory) (c : Collection) (key : Z) :
  key ∈ ids c -> key ∈ ids (ingest es c).
Proof.
  revert c. induction es as [|a es IH]; intros c Hk; [done|].
  simpl. by apply IH, ids_upsert_keeps.
Qed.

Lemma ids_ingest_holds (es : list Advisory) (c : Collection) (a : Advisory) :
  a ∈ es -> advisoryid a ∈ ids (ingest es c).
Proof.
  revert c. induction es as [|b es IH]; intros c; [by intros ?%elem_of_nil|].
  intros [->|Ha]%elem_of_cons; simpl.
  - apply ids_ingest_keeps, ids_upsert_holds.
  - by apply IH.
Qed.

Section PipelineProperties.

Variable getUTCFullYear : string -> number.
Variable MongoClient : string -> option exn.

Local Abbreviation enriched' := (enriched getUTCFullYear).
Local Abbreviation processAdvisory' := (processAdvisory getUTCFullYear).
Local Abbreviation processAll' := (processAll getUTCFullYear).
Local Abbreviation fetchAndProcessAdvisories' :=
  (fetchAndProcessAdvisories getUTCFullYear).
Local Abbreviation handler' := (handler getUTCFullYear MongoClient).
Local Abbreviation advisories_handler' := (advisories_handler MongoClient).

Lemma processAdvisory_total (a : Advisory) (st : State) :
  exists st', processAdvisory' a st = Some st'.
Proof.
  unfold processAdvisory.
  destruct (parseDetails_total (details a) (getUTCFullYear (advisorystarttime a)))
    as (parsed & lines & ->).
  simpl. destruct (awaitReplaceOne _ _ _). eauto.
Qed.

Lemma processAll_total (rows : list Advisory) (st : State) :
  exists st', processAll' rows st = Some st'.
Proof.
  revert st. induction rows as [|a rows IH]; intros st; simpl; [by eauto|].
  destruct (processAdvisory_total a st) as (st' & ->). simpl. apply IH.
Qed.

Lemma fetchAndProcessAdvisories_total (w : World) (st : State) :
  exists st', fetchAndProcessAdvisories' w st = Some st'.
Proof.
  unfold fetchAndProcessAdvisories.
  destruct (upstream w); [apply processAll_total | by eauto].
Qed.

(** Without a store failure, a record is upserted, enriched. *)
Lemma processAdvisory_upsert (a : Advisory) (c : Collection) (log : list string) :
  exists lines,
    processAdvisory' a {| stored := c; faults := []; console := log |} =
      Some {| stored := upsert (enriched' a) c; faults := [];
              console := log ++ lines |}.
Proof.
  unfold processAdvisory, enriched.
  destruct (parseDetails_total (details a) (getUTCFullYear (advisorystarttime a)))
    as (parsed & lines & ->).
  cbn [mbind option_bind from_option fst]. unfold awaitReplaceOne, upsert.
  cbn [faults stored console tail].
  change (advisoryid (enrich a parsed)) with (advisoryid a).
  destruct (replaceOne (advisoryid a) (enrich a parsed) c) as [c' r].
  cbn [fst].
  destruct (0 <? matchedCount r)%nat;
    [|destruct (bool_decide (is_Some (upsertedId r)))];
    unfold say; cbn [stored faults console]; rewrite <- app_assoc; eauto.
Qed.

Lemma processAll_ingest (rows : list Advisory) (c : Collection) (log : list string) :
  exists lines,
    processAll' rows {| stored := c; faults := []; console := log |} =
      Some {| stored := ingest (enriched' <$> rows) c; faults := [];
              console := log ++ lines |}.
Proof.
  revert c log. induction rows as [|a rows IH]; intros c log.
  - exists []. simpl. by rewrite app_nil_r.
  - cbn [processAll].
    destruct (processAdvisory_upsert a c log) as (l1 & ->).
    cbn [mbind option_bind].
    destruct (IH (upsert (enriched' a) c) (log ++ l1)) as (l2 & ->).
    exists (l1 ++ l2). rewrite fmap_cons. cbn [ingest].
    by rewrite app_assoc.
Qed.

Lemma fetchAndProcessAdvisories_ingest (w : World) (rows : list Advisory)
    (c : Collection) :
  upstream w = Ok rows ->
  exists lines,
    fetchAndProcessAdvisories' w {| stored := c; faults := []; console := [] |} =
      Some {| stored := ingest (enriched' <$> List.filter relevant rows) c;
              faults := []; console := lines |}.
Proof.
  intros Hw. unfold fetchAndProcessAdvisories. rewrite Hw.
  destruct (processAll_ingest (List.filter relevant rows) c []) as (lines & ->).
  by exists lines.
Qed.

(** ** C9: re-ingestion *)

(** C9. The store step replaces by identity and wholesale: when a
    document with the identity of the advisory is stored, [replaceOne]
    matches it, inserts nothing, and what is then found under the
    identity is the advisory itself, under the [_id] of the old document,
    with nothing else of the old document left.  Running the pipeline
    on a batch, and again on the same batch, from a store with one
    document per identity and without store failure: the second run
    leaves the store as the first run left it, with one document per
    identity, and under each identity of the batch the store holds the
    enrichment of the last relevant row with that identity. *)
Theorem reingestion_is_idempotent (w : World) (rows : list Advisory) (c : Collection) :
  upstream w = Ok rows -> NoDup (ids c) ->
  (forall a d0, findOne (advisoryid a) c = Some d0 ->
     replaceOne (advisoryid a) a c =
       (put a <$> c, {| matchedCount := 1; upsertedId := None |})
     /\ length (put a <$> c) = length c
     /\ findOne (advisoryid a) (put a <$> c) = Some {| _id := _id d0; doc := a |})
  /\ exists c1 lines1 lines2,
       fetchAndProcessAdvisories' w {| stored := c; faults := []; console := [] |} =
         Some {| stored := c1; faults := []; console := lines1 |}
       /\ fetchAndProcessAdvisories' w {| stored := c1; faults := []; console := [] |} =
         Some {| stored := c1; faults := []; console := lines2 |}
       /\ NoDup (ids c1)
       /\ forall row, row ∈ List.filter relevant rows ->
            exists d x,
              findOne (advisoryid row) c1 = Some d
              /\ latest (advisoryid row) (enriched' <$> List.filter relevant rows) = Some x
              /\ doc d = x.
Proof.
  intros Hw Hc. split.
  - intros a d0 Hfind.
    apply find_some in Hfind as [Hd0%list_elem_of_In Hm].
    assert (Hin : advisoryid a ∈ ids c).
    { unfold matches in Hm. apply Z.eqb_eq in Hm. rewrite <- Hm.
      unfold ids. apply list_elem_of_fmap. eauto. }
    split; [|split].
    + unfold replaceOne. by rewrite replaceFirst_present.
    + by rewrite length_fmap.
    + assert (Hput : put a d0 = {| _id := _id d0; doc := a |})
        by (unfold put; by rewrite Hm).
      rewrite <- Hput.
      replace (advisoryid a) with (advisoryid (doc (put a d0)))
        by (by rewrite Hput).
      apply findOne_unique; [by rewrite ids_put|].
      apply list_elem_of_fmap. eauto.
  - set (batch := enriched' <$> List.filter relevant rows).
    destruct (fetchAndProcessAdvisories_ingest w rows c Hw) as (l1 & H1).
    destruct (fetchAndProcessAdvisories_ingest w rows (ingest batch c) Hw)
      as (l2 & H2).
    fold batch in H1, H2. rewrite ingest_idempotent in H2 by done.
    exists (ingest batch c), l1, l2.
    split; [done|]. split; [done|]. split; [by apply NoDup_ingest|].
    intros row Hrow.
    assert (Hb : enriched' row ∈ batch) by (apply list_elem_of_fmap; eauto).
    pose proof (ids_ingest_batch batch c _ Hc Hb) as Hid.
    change (advisoryid (enriched' row)) with (advisoryid row) in Hid.
    unfold ids in Hid. apply list_elem_of_fmap in Hid as (d & Hd & Hdc).
    destruct (latest (advisoryid row) batch) as [x|] eqn:El.
    + exists d, x. rewrite Hd.
      split; [apply findOne_unique; [by apply NoDup_ingest | done]|].
      split; [done|].
      apply (elem_of_ingest_latest batch c); [done | done | by rewrite <- Hd].
    + exfalso. apply latest_None in El. apply El.
      apply list_elem_of_fmap. by exists (enriched' row).
Qed.

(** ** C10: the two endpoints address different collections *)

Lemma collection_store (db name : string) (c : Collection) (srv : Server) :
  collection db name (store db name c srv) = c.
Proof. unfold collection, store. by rewrite lookup_insert_eq. Qed.

Lemma collection_store_ne (db name db' name' : string) (c : Collection)
    (srv : Server) :
  (db', name') <> (db, name) ->
  collection db' name' (store db name c srv) = collection db' name' srv.
Proof. intros Hne. unfold collection, store. by rewrite lookup_insert_ne. Qed.

(** The [try] block of the write trigger ends, and stores what the
    loop leaves when the method is POST and the connection succeeds. *)
Lemma handler_try_stores (method : string) (w : World) (srv : Server) :
  exists out,
    handler_try getUTCFullYear method w srv = Some out
    /\ (forall db name, (db, name) <> ("advisories_db", "starship_advisories") ->
          collection db name (server out) = collection db name srv)
    /\ (forall rows,
          method = "POST" -> connectFault w = None -> upstream w = Ok rows ->
          collection "advisories_db" "starship_advisories" (server out) =
            ingest (enriched' <$> accepted (List.filter relevant rows) (replaceFaults w))
              (collection "advisories_db" "starship_advisories" srv)).
Proof.
  unfold handler_try.
  destruct (connectFault w);
    [eexists; split; [done|]; split; [done|]; by intros|].
  destruct (String.eqb_spec method "POST") as [->|Hm];
    [|eexists; split; [done|]; split; [done|]; by intros].
  unfold fetchAndProcessAdvisories.
  destruct (upstream w) as [rows|e].
  - destruct (processAll_accepted getUTCFullYear (List.filter relevant rows)
                {| stored := collection "advisories_db" "starship_advisories" srv;
                   faults := replaceFaults w; console := [] |}) as (lines & -> & _).
    cbn [mbind option_bind]. eexists. split; [done|].
    cbn [server respond stored faults]. split.
    + intros db name Hne. by apply collection_store_ne.
    + intros rows' _ _ [= <-]. by rewrite collection_store.
  - cbn [mbind option_bind]. eexists. split; [done|].
    cbn [server respond stored say]. split; [|done].
    intros db name Hne. by apply collection_store_ne.
Qed.

(** Every invocation of the write trigger ends, and touches no other
    collection than [advisories_db.starship_advisories]. *)
Lemma handler_writes_one_collection (method : string) (w : World) (srv : Server) :
  exists out,
    handler' method w srv = Some out
    /\ forall db name, (db, name) <> ("advisories_db", "starship_advisories") ->
         collection db name (server out) = collection db name srv.
Proof.
  unfold handler.
  destruct (String.eqb method "OPTIONS"); [by eauto|].
  destruct (MONGODB_URI w) as [[|c0 uri]|]; [by eauto | | by eauto].
  destruct (MongoClient (String c0 uri)); [by eauto|].
  destruct (handler_try_stores method w srv) as (out & -> & Hout & _).
  eexists. split; [done|]. exact Hout.
Qed.

Lemma advisories_handler_answer (method : string) (w : World) (srv srv' : Server) :
  collection "danielmillar" "faa_advisories" srv' =
    collection "danielmillar" "faa_advisories" srv ->
  answer (advisories_handler' method w srv') = answer (advisories_handler' method w srv).
Proof.
  intros E. unfold advisories_handler. rewrite E.
  destruct (String.eqb method "OPTIONS"); [done|].
  destruct (negb (String.eqb method "GET")); [done|].
  destruct (MONGODB_URI w) as [[|c0 uri]|]; [done | | done].
  destruct (MongoClient (String c0 uri)); [done|].
  by destruct (connectFault w), (findFault w).
Qed.

(** C10. The write trigger persists into
    [advisories_db.starship_advisories]: after a POST whose client is
    built and connects, that collection holds the upserts, in order, of
    the enrichments of the relevant upstream rows whose store call did
    not fail, so that the identity of each of them is stored there.  It
    stores into no other collection.  The read endpoint lists
    [danielmillar.faa_advisories]: whatever an invocation of the write
    trigger upserts, the read endpoint answers after it what it answered
    before it, and the documents it returns are those its own collection
    held before the ingestion, none of which the ingestion wrote.  The
    advisory of the specification, ingested into an empty server, is
    stored in the first collection and is not listed by the read
    endpoint. *)
Theorem ingestion_is_invisible_to_the_read_endpoint (method : string)
    (w w' : World) (srv : Server) :
  exists out,
    handler' method w srv = Some out
    /\ (forall uri rows,
          method = "POST" -> MONGODB_URI w = Some uri -> uri <> "" ->
          MongoClient uri = None -> connectFault w = None -> upstream w = Ok rows ->
          let batch := accepted (List.filter relevant rows) (replaceFaults w) in
          collection "advisories_db" "starship_advisories" (server out) =
            ingest (enriched' <$> batch)
              (collection "advisories_db" "starship_advisories" srv)
          /\ forall a, a ∈ batch ->
               advisoryid a ∈
                 ids (collection "advisories_db" "starship_advisories" (server out)))
    /\ (forall db name, (db, name) <> ("advisories_db", "starship_advisories") ->
          collection db name (server out) = collection db name srv)
    /\ (forall m, answer (advisories_handler' m w' (server out)) =
                  answer (advisories_handler' m w' srv))
    /\ (forall m ds,
          answer (advisories_handler' m w' (server out)) =
            Ok {| status := 200; body := Advisories ds |} ->
          ds = collection "danielmillar" "faa_advisories" srv)
    /\ (let row := {| advisoryid := 42; advisorystarttime := "2024-06-01T00:00:00Z";
                      summary := "SpaceX test";
                      details := "Static Fire Launch Day 3 JUN/4 JUN 1200Z-1800Z";
                      others := []; parsedDetails := None |} in
        let w0 := {| MONGODB_URI := Some "mongodb://localhost"; connectFault := None;
                     upstream := Ok [row]; replaceFaults := []; findFault := None;
                     closeFault := None |} in
        exists out0,
          handler year_of_prefix (fun _ => None) "POST" w0 ∅ = Some out0
          /\ collection "advisories_db" "starship_advisories" (server out0) =
               [ {| _id := 1; doc := enriched year_of_prefix row |} ]
          /\ answer (advisories_handler (fun _ => None) "GET" w0 (server out0)) =
               Ok {| status := 200; body := Advisories [] |}).
Proof.
  assert (Hout : exists out,
    handler' method w srv = Some out
    /\ (forall uri rows,
          method = "POST" -> MONGODB_URI w = Some uri -> uri <> "" ->
          MongoClient uri = None -> connectFault w = None -> upstream w = Ok rows ->
          collection "advisories_db" "starship_advisories" (server out) =
            ingest (enriched' <$> accepted (List.filter relevant rows) (replaceFaults w))
              (collection "advisories_db" "starship_advisories" srv))
    /\ (forall db name, (db, name) <> ("advisories_db", "starship_advisories") ->
          collection db name (server out) = collection db name srv)).
  { unfold handler.
    destruct (String.eqb_spec method "OPTIONS") as [->|_];
      [eexists; split; [done|]; split; [by intros | done]|].
    destruct (MONGODB_URI w) as [[|c0 uri]|];
      [eexists; split; [done|]; split; [by intros ? ? _ [= <-] | done] | |
       eexists; split; [done|]; split; [by intros | done]].
    destruct (MongoClient (String c0 uri)) eqn:Ec;
      [eexists; split; [done|]; split; [|done];
       intros ? ? _ [= <-] _ Hn; by rewrite Ec in Hn|].
    destruct (handler_try_stores method w srv) as (out & -> & Hother & Hstore).
    eexists. split; [done|]. cbn [server finally_close]. split; [|done].
    intros ? rows Hm _ _ _ Hc Hu. by apply Hstore. }
  destruct Hout as (out & Hout & Hstore & Hother).
  exists out. split; [done|].
  split.
  { intros uri rows Hm Hu Hne Hb Hc Hr batch.
    pose proof (Hstore uri rows Hm Hu Hne Hb Hc Hr) as Hs. split; [done|].
    intros a Ha. rewrite Hs.
    change (advisoryid a) with (advisoryid (enriched' a)).
    apply ids_ingest_holds, list_elem_of_fmap. by exists a. }
  split; [done|].
  assert (Hread : collection "danielmillar" "faa_advisories" (server out) =
                  collection "danielmillar" "faa_advisories" srv)
    by (by apply Hother).
  split; [intros m; by apply advisories_handler_answer|].
  split.
  - intros m ds. rewrite (advisories_handler_answer m w' srv (server out) Hread).
    unfold advisories_handler.
    destruct (String.eqb m "OPTIONS"); [done|].
    destruct (negb (String.eqb m "GET")); [done|].
    destruct (MONGODB_URI w') as [[|c0 uri]|]; [done | | done].
    destruct (MongoClient (String c0 uri)); [done|].
    destruct (connectFault w'), (findFault w'); try done.
    by intros [= <-].
  - intros row w0. eexists. split; [by vm_compute|]. split; by vm_compute.
Qed.

(** ** C1: a failing fetch *)

(** C1, amended.  When the upstream request fails, the pipeline logs
    the failure and stores nothing: every collection is as it was.  The
    write trigger, its client built, does not report the failure: it
    answers 200 with the message of success, whether or not the client
    then closes. *)
Theorem fetch_failure_is_logged (c0 : ascii) (uri : string) (e : exn)
    (fs : list (option exn)) (ff cf : option exn) (srv : Server) :
  MongoClient (String c0 uri) = None ->
  let w := {| MONGODB_URI := Some (String c0 uri); connectFault := None;
              upstream := Throw e; replaceFaults := fs; findFault := ff;
              closeFault := cf |} in
  (forall st, fetchAndProcessAdvisories' w st =
                Some {| stored := stored st; faults := faults st;
                        console := console st
                                   ++ ["Error fetching advisories: " +:+ message e] |})
  /\ exists out,
       handler' "POST" w srv = Some out
       /\ answer out = Ok {| status := 200; body := Message "Advisories processed" |}
       /\ logged out = ["Error fetching advisories: " +:+ message e]
       /\ forall db name, collection db name (server out) = collection db name srv.
Proof.
  intros Hbuilt w. split; [done|].
  unfold handler. cbn [String.eqb Ascii.eqb Bool.eqb MONGODB_URI w]. rewrite Hbuilt.
  eexists. split; [reflexivity|]. split; [done|]. split; [done|].
  intros db name. cbn [server respond stored say finally_close].
  destruct (decide ((db, name) = ("advisories_db", "starship_advisories")))
    as [[= -> ->]|Hne].
  - by rewrite collection_store.
  - by rewrite collection_store_ne.
Qed.

End PipelineProperties.

(** C1, as the specification states it, fails: the upstream request
    fails and the write trigger answers 200 with the message of success,
    not an error of the server. *)
Lemma fetch_failure_answers_success :
  answer <$>
    handler (fun _ => NaN) (fun _ => None) "POST"
      {| MONGODB_URI := Some "mongodb://localhost"; connectFault := None;
         upstream := Throw (TypeError "fetch failed");
         replaceFaults := []; findFault := None; closeFault := None |} ∅
  = Some (Ok {| status := 200; body := Message "Advisories processed" |}).
Proof. reflexivity. Qed.

Lemma fetch_failure_is_logged_witness :
  exists out,
    handler (fun _ => NaN) (fun _ => None) "POST"
      {| MONGODB_URI := Some "mongodb://localhost"; connectFault := None;
         upstream := Throw (TypeError "fetch failed");
         replaceFaults := []; findFault := None;
         closeFault := Some (Error "connection closed") |} ∅ = Some out
    /\ answer out = Ok {| status := 200; body := Message "Advisories processed" |}
    /\ logged out = ["Error fetching advisories: fetch failed"]
    /\ forall db name, collection db name (server out) = collection db name ∅.
Proof.
  exact (proj2 (fetch_failure_is_logged (fun _ => NaN) (fun _ => None)
                  "m" "ongodb://localhost" (TypeError "fetch failed") [] None
                  (Some (Error "connection closed")) ∅ eq_refl)).
Defined.

Lemma reingestion_is_idempotent_witness :
  let row := {| advisoryid := 42; advisorystarttime := "2024-06-01T00:00:00Z";
                summary := "SpaceX test";
                details := "Static Fire Launch Day 3 JUN/4 JUN 1200Z-1800Z";
                others := []; parsedDetails := None |} in
  let w := {| MONGODB_URI := Some "mongodb://localhost"; connectFault := None;
              upstream := Ok [row; row]; replaceFaults := []; findFault := None;
              closeFault := None |} in
  exists c1 lines1 lines2,
    fetchAndProcessAdvisories year_of_prefix w
      {| stored := []; faults := []; console := [] |} =
      Some {| stored := c1; faults := []; console := lines1 |}
    /\ fetchAndProcessAdvisories year_of_prefix w
         {| stored := c1; faults := []; console := [] |} =
      Some {| stored := c1; faults := []; console := lines2 |}
    /\ NoDup (ids c1).
Proof.
  intros row w.
  destruct (reingestion_is_idempotent year_of_prefix w [row; row] []
              eq_refl (NoDup_nil_2 (A:=Z))) as (_ & c1 & l1 & l2 & H1 & H2 & H3 & _).
  exists c1, l1, l2. auto.
Defined.

(** * Further properties *)

(** ** The date-range parser: what it rejects *)

Lemma length_split (sep : ascii) (s : string) :
  length (split sep s) = S (count_char sep s).
Proof.
  induction s as [|a s IH]; [done|]. simpl.
  destruct (Ascii.eqb a sep); simpl; [by rewrite IH|].
  destruct (split_cons sep s) as (h & t & E). rewrite E in *. by simpl in *.
Qed.

(** X1. [parseDatePart] throws the error of an invalid format exactly
    when the fragment does not have exactly one slash; whatever else goes
    wrong inside it, a missing month included, leaves it as an [Error]
    that names the fragment: no other exception escapes. *)
Theorem parseDatePart_format_error (datePart : string) (year : number) :
  (parseDatePart datePart year = Throw (Error ("Invalid date part format: " +:+ datePart))
   <-> count_char "/" datePart <> 1%nat)
  /\ forall e, parseDatePart datePart year = Throw e ->
       e = Error ("Invalid date part format: " +:+ datePart)
       \/ exists msg, e = Error ("Failed to parse date part: " +:+ datePart
                                 +:+ ", error: " +:+ msg).
Proof.
  unfold parseDatePart. rewrite length_map, length_split.
  destruct (Nat.eqb_spec (S (count_char "/" datePart)) 2) as [E|E];
    cbn [negb].
  - split.
    + split; [|lia]. intros H. exfalso.
      match type of H with try_catch ?r ?h = _ => destruct r end;
        cbn [try_catch] in H; [done|].
      by injection H.
    + intros e H. right.
      match type of H with try_catch ?r ?h = _ => destruct r as [?|e0] end;
        cbn [try_catch] in H; [done|].
      injection H as <-. by exists (message e0).
  - split; [split; [lia | done]|].
    intros e [= <-]. by left.
Qed.

Lemma parseDatePart_date_text (year : number) (d1 : string) (m1 : option string)
    (d2 m2 : string) :
  digits d1 = true -> from_option word true m1 = true ->
  digits d2 = true -> word m2 = true ->
  parseDatePart (date_text d1 m1 d2 m2) year =
    try_catch
      (k1 <- getMonth (Some (default m2 m1)) ;;
       k2 <- getMonth (Some m2) ;;
       Ok (isoDate year (pad2 (String_ (Num k1))) (pad2 d1),
           isoDate year (pad2 (String_ (Num k2))) (pad2 d2)))
      (fun e => Throw (Error ("Failed to parse date part: " +:+ date_text d1 m1 d2 m2
                              +:+ ", error: " +:+ message e))).
Proof.
  intros Hd1%digits_word Hm1 Hd2%digits_word Hm2.
  destruct m1 as [m1|]; cbn [from_option default] in *.
  - assert (split "/" (date_text d1 (Some m1) d2 m2)
            = [d1 +:+ " " +:+ m1; d2 +:+ " " +:+ m2]) as Hs.
    { replace (date_text d1 (Some m1) d2 m2)
        with ((d1 +:+ " " +:+ m1) +:+ String "/" (d2 +:+ " " +:+ m2))
        by (unfold date_text; rewrite !append_assoc; reflexivity).
      apply split_two.
      - by rewrite !includes_append, (word_no_slash d1), (word_no_slash m1).
      - by rewrite !includes_append, (word_no_slash d2), (word_no_slash m2). }
    unfold parseDatePart. rewrite Hs.
    cbn [map length Nat.eqb negb lookup list_lookup default].
    rewrite !trim_two_words by done. unfold id.
    assert (includes " " (d1 +:+ " " +:+ m1) = true) as ->.
    { rewrite !includes_append. simpl. by rewrite orb_true_r. }
    rewrite (append_cons " " "" m1), (append_cons " " "" m2), !append_nil_l.
    rewrite !split_two by by apply word_no_space.
    cbn [lookup list_lookup method bind].
    by destruct (getMonth (Some m1)), (getMonth (Some m2)).
  - assert (split "/" (date_text d1 None d2 m2) = [d1; d2 +:+ " " +:+ m2]) as Hs.
    { unfold date_text. rewrite (append_cons "/" "" _), append_nil_l.
      apply split_two; [by apply word_no_slash|].
      by rewrite !includes_append, (word_no_slash d2), (word_no_slash m2). }
    unfold parseDatePart. rewrite Hs.
    cbn [map length Nat.eqb negb lookup list_lookup default].
    rewrite trim_two_words, trim_word by done. unfold id.
    rewrite (word_no_space d1) by done.
    rewrite (append_cons " " "" m2), !append_nil_l.
    rewrite !split_two by by apply word_no_space.
    cbn [lookup list_lookup method bind].
    by destruct (getMonth (Some m2)).
Qed.

Lemma getMonth_unknown (m : string) :
  month_ordinal m = None ->
  getMonth (Some m) = Throw (Error ("Invalid month abbreviation: " +:+ m)).
Proof. intros H. by rewrite getMonth_month_ordinal, H. Qed.

Lemma getMonth_known (m : string) (k : Z) :
  month_ordinal m = Some k -> getMonth (Some m) = Ok k.
Proof. intros H. by rewrite getMonth_month_ordinal, H. Qed.

(** X2. A fragment of one of the two shapes whose month is no month is
    rejected with the error of the date part, which carries the error of
    the month lookup; with a month on both sides the month of the first
    side is looked up first, so that it is the one reported when both
    are unknown. *)
Theorem parseDatePart_unknown_month (year : number) (d1 m1 d2 m2 : string) :
  digits d1 = true -> word m1 = true -> digits d2 = true -> word m2 = true ->
  (month_ordinal m1 = None ->
   parseDatePart (d1 +:+ " " +:+ m1 +:+ "/" +:+ d2 +:+ " " +:+ m2) year =
     Throw (Error ("Failed to parse date part: "
                   +:+ (d1 +:+ " " +:+ m1 +:+ "/" +:+ d2 +:+ " " +:+ m2)
                   +:+ ", error: Invalid month abbreviation: " +:+ m1)))
  /\ (is_Some (month_ordinal m1) -> month_ordinal m2 = None ->
      parseDatePart (d1 +:+ " " +:+ m1 +:+ "/" +:+ d2 +:+ " " +:+ m2) year =
        Throw (Error ("Failed to parse date part: "
                      +:+ (d1 +:+ " " +:+ m1 +:+ "/" +:+ d2 +:+ " " +:+ m2)
                      +:+ ", error: Invalid month abbreviation: " +:+ m2)))
  /\ (month_ordinal m2 = None ->
      parseDatePart (d1 +:+ "/" +:+ d2 +:+ " " +:+ m2) year =
        Throw (Error ("Failed to parse date part: "
                      +:+ (d1 +:+ "/" +:+ d2 +:+ " " +:+ m2)
                      +:+ ", error: Invalid month abbreviation: " +:+ m2))).
Proof.
  intros Hd1 Hm1 Hd2 Hm2.
  pose proof (parseDatePart_date_text year d1 (Some m1) d2 m2 Hd1 Hm1 Hd2 Hm2) as H2.
  pose proof (parseDatePart_date_text year d1 None d2 m2 Hd1 eq_refl Hd2 Hm2) as H1.
  unfold date_text in H1, H2. cbn [default from_option id] in H1, H2.
  split; [|split].
  - intros E. rewrite H2, (getMonth_unknown _ E). reflexivity.
  - intros [k E] E2. rewrite H2, (getMonth_known _ _ E), (getMonth_unknown _ E2).
    reflexivity.
  - intros E. rewrite H1, (getMonth_unknown _ E). reflexivity.
Qed.

Lemma parseDatePart_unknown_month_witness :
  parseDatePart "5 JUN/6 JYN" (Num 2024) =
    Throw (Error "Failed to parse date part: 5 JUN/6 JYN, error: Invalid month abbreviation: JYN").
Proof.
  destruct (parseDatePart_unknown_month (Num 2024) "5" "JUN" "6" "JYN"
              eq_refl eq_refl eq_refl eq_refl) as (_ & H & _).
  exact (H (ex_intro _ 6 eq_refl) eq_refl).
Defined.

(** X3. A fragment whose second side carries no month is rejected,
    whether the first side carries one or not: the month is never taken
    from the first side. *)
Theorem parseDatePart_missing_month (year : number) (d1 m1 d2 : string) :
  digits d1 = true -> word m1 = true -> digits d2 = true ->
  is_ok (parseDatePart (d1 +:+ "/" +:+ d2) year) = false
  /\ is_ok (parseDatePart (d1 +:+ " " +:+ m1 +:+ "/" +:+ d2) year) = false.
Proof.
  intros Hd1%digits_word Hm1 Hd2%digits_word. split.
  - unfold parseDatePart.
    rewrite (append_cons "/" "" _), append_nil_l, split_two
      by by apply word_no_slash.
    cbn [map length Nat.eqb negb lookup list_lookup default].
    rewrite !trim_word by done. unfold id.
    rewrite (word_no_space d1) by done.
    rewrite (split_none " " d2) by by apply word_no_space.
    reflexivity.
  - assert (split "/" (d1 +:+ " " +:+ m1 +:+ "/" +:+ d2) = [d1 +:+ " " +:+ m1; d2]) as Hs.
    { replace (d1 +:+ " " +:+ m1 +:+ "/" +:+ d2)
        with ((d1 +:+ " " +:+ m1) +:+ String "/" d2)
        by (rewrite !append_assoc; reflexivity).
      apply split_two; [|by apply word_no_slash].
      by rewrite !includes_append, (word_no_slash d1), (word_no_slash m1). }
    unfold parseDatePart. rewrite Hs.
    cbn [map length Nat.eqb negb lookup list_lookup default].
    rewrite trim_two_words, trim_word by done. unfold id.
    assert (includes " " (d1 +:+ " " +:+ m1) = true) as ->.
    { rewrite !includes_append. simpl. by rewrite orb_true_r. }
    rewrite (append_cons " " "" m1), !append_nil_l.
    rewrite split_two, (split_none " " d2) by by apply word_no_space.
    cbn [lookup list_lookup method bind].
    by destruct (getMonth (Some m1)).
Qed.

Lemma parseDatePart_missing_month_witness :
  is_ok (parseDatePart "3/5" (Num 2024)) = false
  /\ is_ok (parseDatePart "3 JAN/5" (Num 2024)) = false.
Proof.
  exact (parseDatePart_missing_month (Num 2024) "3" "JAN" "5" eq_refl eq_refl eq_refl).
Defined.

(** ** The time-range parser: what it ignores *)

Lemma clock_four (a b c d : ascii) (t : string) :
  clock (hhmm a b c d +:+ t) = clock (hhmm a b c d).
Proof.
  unfold clock, slice, hhmm. rewrite !append_cons, append_nil_l. simpl.
  by destruct t.
Qed.

Lemma length_four (s : string) :
  String.length s = 4%nat -> exists a b c d, s = hhmm a b c d.
Proof.
  destruct s as [|a [|b [|c [|d [|? ?]]]]]; try done. intros _. by exists a, b, c, d.
Qed.

(** X4. Of each side of a time fragment only the first four characters
    count, and of the fragment only the first two sides: what follows the
    four characters of a side, and a third side, change nothing. *)
Theorem parseTimePart_first_four (s1 t1 s2 t2 : string) :
  String.length s1 = 4%nat -> String.length s2 = 4%nat ->
  includes "-" (s1 +:+ t1) = false -> includes "-" (s2 +:+ t2) = false ->
  parseTimePart ((s1 +:+ t1) +:+ "-" +:+ (s2 +:+ t2)) = parseTimePart (s1 +:+ "-" +:+ s2)
  /\ forall rest,
       parseTimePart ((s1 +:+ t1) +:+ "-" +:+ (s2 +:+ t2) +:+ "-" +:+ rest) =
         parseTimePart (s1 +:+ "-" +:+ s2).
Proof.
  intros (a & b & c & d & ->)%length_four (e & f & g & h & ->)%length_four H1 H2.
  assert (H1' : includes "-" (hhmm a b c d) = false).
  { rewrite includes_append in H1. by apply orb_false_iff in H1 as [? _]. }
  assert (H2' : includes "-" (hhmm e f g h) = false).
  { rewrite includes_append in H2. by apply orb_false_iff in H2 as [? _]. }
  rewrite !parseTimePart_sides, !clock_four by done.
  split; [done|]. intros rest.
  unfold parseTimePart.
  rewrite (append_cons "-" "" _), append_nil_l, split_append by done.
  rewrite (append_cons "-" "" rest), append_nil_l, split_append by done.
  cbn [lookup list_lookup method bind try_catch].
  by rewrite !clock_four.
Qed.

Lemma parseTimePart_first_four_witness :
  parseTimePart "1200Z UTC-1430Z UTC-x" = parseTimePart "1200-1430".
Proof.
  exact (proj2 (parseTimePart_first_four "1200" "Z UTC" "1430" "Z UTC"
                  eq_refl eq_refl eq_refl eq_refl) "x").
Defined.

(** ** Month lookup: from the ordinal back to the abbreviation *)

Lemma length_toUpperCase (s : string) :
  String.length (toUpperCase s) = String.length s.
Proof. induction s as [|a s IH]; simpl; [done | by rewrite IH]. Qed.

Lemma property_monthMap_inv (key : string) (n : Z) :
  property key monthMap = Some n ->
  calendar !! Z.to_nat (n - 1) = Some key.
Proof.
  unfold monthMap, property.
  repeat match goal with
         | |- context [String.eqb ?k key] =>
             destruct (String.eqb_spec k key) as [<-|_];
             [intros [= <-]; vm_compute; reflexivity|]
         end.
  done.
Qed.

(** X5. A string [getMonth] accepts has three characters, and its
    ordinal gives its abbreviation back: it is, in upper case, the entry
    of the calendar at that ordinal.  Two strings with the same ordinal
    differ in letter case at most. *)
Theorem getMonth_inverse (s : string) (n : Z) :
  getMonth (Some s) = Ok n ->
  String.length s = 3%nat
  /\ calendar !! Z.to_nat (n - 1) = Some (toUpperCase s)
  /\ forall t, getMonth (Some t) = Ok n -> toUpperCase t = toUpperCase s.
Proof.
  assert (Hinv : forall x k, getMonth (Some x) = Ok k ->
                   calendar !! Z.to_nat (k - 1) = Some (toUpperCase x)).
  { intros x k. rewrite getMonth_month_ordinal, <- property_monthMap.
    destruct (property (toUpperCase x) monthMap) as [k'|] eqn:E; [|done].
    intros [= <-]. by apply property_monthMap_inv. }
  intros H. pose proof (Hinv _ _ H) as Hs.
  split; [|split; [done|]].
  - rewrite <- length_toUpperCase.
    apply list_elem_of_lookup_2 in Hs. unfold calendar in Hs.
    repeat (apply elem_of_cons in Hs as [->|Hs]; [done|]).
    by apply elem_of_nil in Hs.
  - intros t Ht. apply Hinv in Ht. congruence.
Qed.

Lemma getMonth_inverse_witness :
  String.length "sEp" = 3%nat /\ calendar !! 8%nat = Some "SEP".
Proof.
  destruct (getMonth_inverse "sEp" 9 eq_refl) as (H1 & H2 & _). by split.
Defined.

(** ** Regular expressions: what a match reads *)

Lemma many_sound (c : cclass) (min : nat) (max : option nat) (pos : nat)
    (rest : string) (cs : caps) (k : cont) (res : nat * caps) :
  many c min max pos rest cs k = Some res ->
  exists u rest',
    rest = u +:+ rest'
    /\ lang false (Many min max c) u
    /\ k (pos + String.length u)%nat rest' cs = Some res.
Proof.
  assert (Hstop : forall min max pos rest,
            counted min (k pos rest cs) = Some res ->
            exists u rest',
              rest = u +:+ rest'
              /\ lang false (Many min max c) u
              /\ k (pos + String.length u)%nat rest' cs = Some res).
  { intros [|m] mx p r H; [|done]. exists "", r. simpl.
    rewrite Nat.add_0_r. split; [done|]. split; [|done].
    split; [done|]. split; [lia|]. destruct mx; simpl; lia. }
  revert min max pos. induction rest as [|a rest IH]; intros min max pos;
    cbn [many].
  - apply Hstop.
  - destruct (in_class c a && negb (exhausted max)) eqn:Ea; [|apply Hstop].
    destruct (many c (pred min) (pred <$> max) (S pos) rest cs k) eqn:E;
      [|apply Hstop].
    intros [= ->]. apply IH in E as (u & rest' & -> & (Hu & Hmin & Hmax) & Hk).
    apply andb_true_iff in Ea as [Ha Hx].
    exists (String a u), rest'. split; [done|]. split.
    + split; [by rewrite all_chars_cons, Ha|]. split; [simpl; lia|].
      destruct max as [[|m]|]; simpl in *; [done | lia | done].
    + simpl. by rewrite Nat.add_succ_r.
Qed.

Lemma matcher_sound (r : regex) (pos : nat) (rest : string)
    (cs : caps) (k : cont) (res : nat * caps) :
  matcher false r pos rest cs k = Some res ->
  exists u rest' cs',
    rest = u +:+ rest'
    /\ lang false r u
    /\ k (pos + String.length u)%nat rest' cs' = Some res
    /\ (capture_free r = true -> cs' = cs).
Proof.
  revert pos rest cs k.
  induction r as [|c|c|r1 IH1 r2 IH2|r1 IH1 r2 IH2|r1 IH1|min max c|i r1 IH1];
    intros pos rest cs k; cbn [matcher].
  - intros H. exists "", rest, cs. simpl. by rewrite Nat.add_0_r.
  - destruct rest as [|a rest]; [done|].
    destruct (same_char false a c) eqn:E; [|done].
    intros H. exists (String a ""), rest, cs. simpl. rewrite Nat.add_1_r.
    split; [done|]. split; [by eauto | done].
  - destruct rest as [|a rest]; [done|]. destruct (in_class c a) eqn:E; [|done].
    intros H. exists (String a ""), rest, cs. simpl. rewrite Nat.add_1_r.
    split; [done|]. split; [by eauto | done].
  - intros (u1 & rest1 & cs1 & -> & L1 & H & C1)%IH1.
    apply IH2 in H as (u2 & rest2 & cs2 & -> & L2 & H & C2).
    exists (u1 +:+ u2), rest2, cs2. rewrite append_assoc.
    split; [done|]. split; [simpl; by eauto|].
    rewrite length_append, Nat.add_assoc. split; [done|].
    simpl. intros [F1 F2]%andb_true_iff. rewrite <- (C1 F1). by apply C2.
  - destruct (matcher false r1 pos rest cs k) eqn:E.
    + intros [= ->]. apply IH1 in E as (u & rest' & cs' & -> & L & H & C).
      exists u, rest', cs'. split; [done|]. split; [by left|]. split; [done|].
      simpl. intros [F1 _]%andb_true_iff. by apply C.
    + intros (u & rest' & cs' & -> & L & H & C)%IH2.
      exists u, rest', cs'. split; [done|]. split; [by right|]. split; [done|].
      simpl. intros [_ F2]%andb_true_iff. by apply C.
  - destruct (matcher false r1 pos rest cs k) eqn:E.
    + intros [= ->]. apply IH1 in E as (u & rest' & cs' & -> & L & H & C).
      exists u, rest', cs'. split; [done|]. split; [by right | done].
    + intros H. exists "", rest, cs. simpl. rewrite Nat.add_0_r.
      split; [done|]. split; [by left | done].
  - intros (u & rest' & -> & L & H)%many_sound. by exists u, rest', cs.
  - intros (u & rest' & cs' & -> & L & H & _)%IH1.
    exists u, rest', ((i, (pos, (pos + String.length u)%nat)) :: cs').
    split; [done|]. split; [done|]. split; [done | done].
Qed.

Lemma lang_lit (w u : string) : lang false (lit w) u -> u = w.
Proof.
  revert u. induction w as [|c w IH]; intros u; simpl; [done|].
  intros (u1 & u2 & -> & (a & -> & Ha) & ->%IH).
  apply Ascii.eqb_eq in Ha as ->. reflexivity.
Qed.

Lemma lang_chr (c : ascii) (u : string) : lang false (Chr c) u -> u = String c "".
Proof. intros (a & -> & Ha). by apply Ascii.eqb_eq in Ha as ->. Qed.

Lemma lang_word_plus (u : string) : lang false word_plus u -> word u = true.
Proof.
  intros (Hu & Hn & _). unfold word. rewrite andb_true_iff. split; [|done].
  by destruct u; [simpl in Hn; lia|].
Qed.

Lemma lang_digit_plus (u : string) : lang false digit_plus u -> digits u = true.
Proof.
  intros (Hu & Hn & _). unfold digits. rewrite andb_true_iff. split; [|done].
  by destruct u; [simpl in Hn; lia|].
Qed.

Lemma lang_digit_4 (u : string) : lang false digit_4 u -> four_digits u = true.
Proof.
  intros (Hu & Hn & Hm). simpl in Hm. unfold four_digits.
  rewrite andb_true_iff. split; [|done]. apply Nat.eqb_eq. lia.
Qed.

Lemma lang_label_re (l : string) :
  lang false label_re l ->
  exists w counter,
    word w = true /\ from_option digits true counter = true
    /\ l = label_text w counter.
Proof.
  unfold label_re. cbn [lang].
  intros (w & x & -> & Hw%lang_word_plus & y & z & -> & ->%lang_lit & Hz).
  destruct Hz as [->|(p & q & -> & ->%lang_lit & n & t & -> & Hn%lang_digit_plus
                      & ->%lang_chr)].
  - by exists w, None.
  - by exists w, (Some n).
Qed.

Lemma lang_date_re (d : string) :
  lang false date_re d ->
  exists d1 m1 d2 m2,
    digits d1 = true /\ from_option word true m1 = true
    /\ digits d2 = true /\ word m2 = true
    /\ d = date_text d1 m1 d2 m2.
Proof.
  unfold date_re. cbn [lang].
  intros [(d1 & x1 & -> & H1%lang_digit_plus & s1 & x2 & -> & ->%lang_chr
           & d2 & x3 & -> & H2%lang_digit_plus & s2 & m2 & -> & ->%lang_chr
           & Hm2%lang_word_plus)
         |(d1 & x1 & -> & H1%lang_digit_plus & s1 & x2 & -> & ->%lang_chr
           & m1 & x3 & -> & Hm1%lang_word_plus & s2 & x4 & -> & ->%lang_chr
           & d2 & x5 & -> & H2%lang_digit_plus & s3 & m2 & -> & ->%lang_chr
           & Hm2%lang_word_plus)].
  - by exists d1, None, d2, m2.
  - by exists d1, (Some m1), d2, m2.
Qed.

Lemma lang_time_re (t : string) :
  lang false time_re t ->
  exists s e,
    four_digits s = true /\ four_digits e = true /\ t = s +:+ "Z-" +:+ e +:+ "Z".
Proof.
  unfold time_re. cbn [lang].
  intros (s & x1 & -> & Hs%lang_digit_4 & z1 & x2 & -> & ->%lang_chr
          & m & x3 & -> & ->%lang_chr & e & z2 & -> & He%lang_digit_4 & ->%lang_chr).
  by exists s, e.
Qed.

Lemma search_inv_pos (ic : bool) (r : regex) (pos : nat) (rest : string)
    (start : nat) (m : nat * caps) :
  search ic r pos rest = Some (start, m) ->
  exists j, start = (pos + j)%nat
            /\ matcher ic r start (drop j rest) [] accept = Some m.
Proof.
  revert pos. induction rest as [|a rest IH]; intros pos; simpl.
  - destruct (matcher ic r pos "" [] accept) eqn:E; [|done].
    intros [= <- <-]. exists O. by rewrite Nat.add_0_r.
  - destruct (matcher ic r pos (String a rest) [] accept) eqn:E.
    + intros [= <- <-]. exists O. by rewrite Nat.add_0_r.
    + intros (j & -> & Hj)%IH. exists (S j). split; [lia | done].
Qed.

Lemma drop_append_length (u r : string) : drop (String.length u) (u +:+ r) = r.
Proof. induction u as [|a u IH]; [by destruct r | done]. Qed.

Lemma drop_reach (s : string) (p : nat) (x y : string) :
  drop p s = x +:+ y -> drop (p + String.length x) s = y.
Proof. intros H. by rewrite <- drop_drop, H, drop_append_length. Qed.

Lemma substring_drop (p n : nat) (s : string) :
  substring p n s = substring 0 n (drop p s).
Proof.
  revert s. induction p as [|p IH]; intros s; [by destruct s|].
  destruct s as [|a s]; [by destruct n | apply IH].
Qed.

Lemma text_drop (s : string) (p q : nat) (u r : string) :
  drop p s = u +:+ r -> q = (p + String.length u)%nat -> text s (p, q) = u.
Proof.
  intros H ->. unfold text. cbn [fst snd].
  replace (p + String.length u - p)%nat with (String.length u) by lia.
  rewrite substring_drop, H. apply (substring_middle "" u r).
Qed.

(** What [exec] finds is an entry of the expected shape. *)
Lemma exec_pattern_shape (s : string) (lastIndex lastIndex' : nat) (m : Match) :
  exec pattern 3 s lastIndex = (Some m, lastIndex') ->
  exists o, well_formed o = true /\ occurs o m.
Proof.
  unfold exec. cbn [global pattern].
  destruct (String.length s <? lastIndex)%nat; [done|].
  destruct (search _ _ _ _) as [[start [stop cs]]|] eqn:E; [|done].
  intros [= <- _].
  apply search_inv_pos in E as (j & Hstart & H).
  rewrite drop_drop, <- Hstart in H. clear j Hstart.
  unfold pattern in H. cbn [source ignoreCase] in H.
  rewrite matcher_cat, matcher_cap in H.
  apply matcher_sound in H as (u1 & R1 & cs1 & HD & L1 & H & C); rewrite (C eq_refl) in H;
    clear C cs1.
  rewrite matcher_cat in H.
  apply matcher_sound in H as (x1 & R2 & cs1 & HR1 & ->%lang_chr & H & C);
    rewrite (C eq_refl) in H; clear C cs1.
  rewrite matcher_cat, matcher_cap in H.
  apply matcher_sound in H as (u2 & R3 & cs1 & HR2 & L2 & H & C); rewrite (C eq_refl) in H;
    clear C cs1.
  rewrite matcher_cat in H.
  apply matcher_sound in H as (x2 & R4 & cs1 & HR3 & ->%lang_chr & H & C);
    rewrite (C eq_refl) in H; clear C cs1.
  rewrite matcher_cap in H.
  apply matcher_sound in H as (u3 & R5 & cs1 & HR4 & L3 & H & C); rewrite (C eq_refl) in H;
    clear C cs1.
  injection H as <- <-.
  apply lang_label_re in L1 as (w & counter & Hw & Hc & ->).
  apply lang_date_re in L2 as (d1 & m1 & d2 & m2 & Hd1 & Hm1 & Hd2 & Hm2 & ->).
  apply lang_time_re in L3 as (ts & te & Hts & Hte & ->).
  exists {| word_of := w; counter_of := counter; day1_of := d1; month1_of := m1;
            day2_of := d2; month2_of := m2; start_of := ts; end_of := te |}.
  split.
  { unfold well_formed. cbn. by rewrite Hw, Hc, Hd1, Hm1, Hd2, Hm2, Hts, Hte. }
  unfold occurs, label_of, date_of, time_of, text_of, label_of, date_of, time_of.
  cbn [word_of counter_of day1_of month1_of day2_of month2_of start_of end_of
       matched groups seq map capture Nat.eqb fmap option_fmap option_map].
  set (L := label_text w counter) in *.
  set (D := date_text d1 m1 d2 m2) in *.
  set (T := ts +:+ "Z-" +:+ te +:+ "Z") in *.
  pose proof (drop_reach _ _ _ _ HD) as HD1. rewrite HR1 in HD1.
  pose proof (drop_reach _ _ _ _ HD1) as HD2. rewrite HR2 in HD2.
  pose proof (drop_reach _ _ _ _ HD2) as HD3. rewrite HR3 in HD3.
  pose proof (drop_reach _ _ _ _ HD3) as HD4. rewrite HR4 in HD4.
  split.
  - apply (text_drop _ _ _ _ R5).
    + rewrite HD, HR1, HR2, HR3, HR4. unfold entry_text.
      rewrite !append_assoc. reflexivity.
    + unfold entry_text. rewrite !length_append. simpl. lia.
  - f_equal; [|f_equal; [|f_equal]]; f_equal.
    + by eapply text_drop.
    + by eapply text_drop.
    + by eapply text_drop.
Qed.

Lemma scan_shape (s : string) (fuel lastIndex : nat) (ms : list Match) :
  scan fuel s lastIndex = Some ms ->
  Forall (fun m => exists o, well_formed o = true /\ occurs o m) ms.
Proof.
  revert lastIndex ms. induction fuel as [|fuel IH]; intros li ms; [done|].
  simpl. destruct (exec pattern 3 s li) as [[m|] li'] eqn:E.
  - destruct (scan fuel s li') as [ms'|] eqn:E'; [|done].
    intros [= <-]. constructor; [by eapply exec_pattern_shape | by eapply IH].
  - intros [= <-]. constructor.
Qed.

(** ** C8: an entry inside a text *)

Lemma append_eq_nil (a b : string) : a +:+ b = "" -> a = "" /\ b = "".
Proof. destruct a; [by rewrite append_nil_l | by rewrite append_cons]. Qed.



















(** ** The detail extractor: the entries it reads *)

(** X6. Every occurrence the extractor goes through is an entry of the
    one shape the pattern admits: a label made of a single word,
    [ Launch Day] and a counter in parentheses or none; a date fragment
    of days in digits and months in word characters, with a month on both
    sides or on the second only; a time fragment of four digits, [Z-],
    four digits and [Z]; one space between the three.  The three groups
    of the match are these three texts. *)
Theorem parseDetails_reads_entries (details : string) :
  exists ms,
    occurrences details = Some ms
    /\ Forall (fun m => exists o, well_formed o = true /\ occurs o m) ms.
Proof.
  destruct (scan_enough details (S (String.length details)) 0) as (ms & Hms & _);
    [lia | lia |].
  exists ms. split; [done|]. by eapply scan_shape.
Qed.

Lemma all_digits_not_dash (s : string) :
  all_chars is_digit s = true -> includes "-" s = false.
Proof.
  intros H. apply includes_word; [done|].
  eapply all_chars_impl; [apply is_digit_word | done].
Qed.

Lemma four_digits_inv (s : string) :
  four_digits s = true ->
  exists a b c d, s = hhmm a b c d /\ forallb is_digit [a; b; c; d] = true.
Proof.
  unfold four_digits. intros [Hl%Nat.eqb_eq Hd]%andb_true_iff.
  apply length_four in Hl as (a & b & c & d & ->). by exists a, b, c, d.
Qed.

Lemma parseTimePart_four_digits (s e : string) :
  four_digits s = true -> four_digits e = true ->
  parseTimePart (s +:+ "Z-" +:+ e +:+ "Z") =
    Ok (substring 0 2 s +:+ ":" +:+ substring 2 2 s +:+ ":00Z",
        substring 0 2 e +:+ ":" +:+ substring 2 2 e +:+ ":00Z").
Proof.
  intros (a & b & c & d & -> & Hs)%four_digits_inv
         (a' & b' & c' & d' & -> & He)%four_digits_inv.
  assert (H : forallb is_digit [a; b; c; d; a'; b'; c'; d'] = true).
  { simpl in *. repeat (apply andb_true_iff in Hs as [-> Hs]).
    by repeat (apply andb_true_iff in He as [-> He]). }
  exact (parseTimePart_time_text a b c d a' b' c' d' H).
Qed.

(** The [try] block on an entry: the months decide. *)
Lemma parseEntry_occurrence (year : number) (o : Occurrence) (m : Match) :
  well_formed o = true -> occurs o m ->
  parseEntry m year =
    match month_numbers o with
    | Some k => Ok (window_for year o k)
    | None =>
        Throw (Error ("Failed to parse date part: " +:+ date_of o
                      +:+ ", error: Invalid month abbreviation: " +:+ unknown_month o))
    end.
Proof.
  unfold well_formed. rewrite !andb_true_iff.
  intros [[[[[[[Hw Hc] Hd1] Hm1] Hd2] Hm2] Hs] He] [_ Hg].
  unfold parseEntry, group. rewrite Hg.
  cbn [lookup list_lookup Nat.sub mjoin option_join method bind id default].
  unfold date_of at 1. rewrite parseDatePart_date_text by done.
  unfold time_of. rewrite parseTimePart_four_digits by done.
  unfold month_numbers, unknown_month. rewrite !getMonth_month_ordinal.
  destruct (month_ordinal (default (month2_of o) (month1_of o))) as [k1|];
    cbn [bind try_catch mbind option_bind message]; [|done].
  destruct (month_ordinal (month2_of o)) as [k2|];
    cbn [bind try_catch mbind option_bind message]; done.
Qed.

Lemma Forall_exists_Forall2 {A B : Type} (P : A -> B -> Prop) (Q : A -> Prop)
    (l : list B) :
  Forall (fun b => exists a, Q a /\ P a b) l ->
  exists l', Forall Q l' /\ Forall2 P l' l.
Proof.
  induction 1 as [|b l (a & Ha & Hab) _ (l' & Hl' & Hll)].
  - by exists [].
  - exists (a :: l'). split; by constructor.
Qed.

Lemma omap_Forall2 {A B C : Type} (f : A -> option C) (g : B -> option C)
    (l1 : list A) (l2 : list B) :
  Forall2 (fun a b => f a = g b) l1 l2 -> omap f l1 = omap g l2.
Proof.
  induction 1 as [|a b l1 l2 Hab _ IH]; [done|].
  simpl. rewrite Hab. unfold omap in IH. by rewrite IH.
Qed.

Lemma Forall2_with {A B : Type} (P : A -> B -> Prop) (Q : A -> Prop)
    (l : list A) (k : list B) :
  Forall Q l -> Forall2 P l k -> Forall2 (fun a b => P a b /\ Q a) l k.
Proof.
  intros HQ H. induction H as [|a b l k Hab _ IH]; [constructor|].
  apply Forall_cons in HQ as [Ha HQ]. constructor; [done | by apply IH].
Qed.

Lemma omap_entries (year : number) (os : list Occurrence) (ms : list Match) :
  Forall (fun o => well_formed o = true) os -> Forall2 occurs os ms ->
  omap (window year) ms = omap (window_by year) os
  /\ omap (complaint year) ms = omap line_by os.
Proof.
  intros Hos H. split; apply omap_Forall2, Forall2_flip.
  - eapply Forall2_impl; [by apply Forall2_with|].
    intros o m [Hom Ho]. unfold window, window_by.
    rewrite (parseEntry_occurrence year o m Ho Hom).
    by destruct (month_numbers o).
  - eapply Forall2_impl; [by apply Forall2_with|].
    intros o m [Hom Ho]. unfold complaint, line_by.
    rewrite (parseEntry_occurrence year o m Ho Hom).
    destruct (month_numbers o); [done|].
    unfold entry_error, line_for. cbn [message].
    destruct Hom as [-> _]. reflexivity.
Qed.

Lemma parseDetails_entries (details : string) (year : number) :
  exists os ms,
    occurrences details = Some ms
    /\ in_order details 0 ms
    /\ Forall2 occurs os ms
    /\ Forall (fun o => well_formed o = true) os
    /\ parseDetails details year = Some (omap (window_by year) os, omap line_by os).
Proof.
  destruct (scan_enough details (S (String.length details)) 0) as (ms & Hms & Hord);
    [lia | lia |].
  destruct (Forall_exists_Forall2 occurs (fun o => well_formed o = true) ms
              (scan_shape _ _ _ _ Hms)) as (os & Hos & Hom).
  exists os, ms. split; [done|]. split; [done|]. split; [done|]. split; [done|].
  unfold parseDetails. rewrite parseDetails_loop_scan, Hms.
  cbn [fmap option_fmap option_map app].
  by destruct (omap_entries year os ms Hos Hom) as [-> ->].
Qed.

(** X7. The result of [parseDetails] in terms of the entries it reads,
    in their order: an entry whose months are known gives the window
    computed from its parts; an entry with an unknown month gives no
    window and one logged line, which names the entry, its date fragment
    and the first unknown month.  Nothing else is ever logged: on an
    entry the pattern admits the time parser does not fail and the date
    parser fails for no other reason. *)
Theorem parseDetails_by_entries (details : string) (year : number) :
  exists os ms,
    occurrences details = Some ms
    /\ Forall2 occurs os ms
    /\ Forall (fun o => well_formed o = true) os
    /\ parseDetails details year =
         Some (omap (fun o => window_for year o <$> month_numbers o) os,
               omap (fun o => match month_numbers o with
                              | Some _ => None
                              | None => Some (line_for o)
                              end) os).
Proof.
  destruct (parseDetails_entries details year) as (os & ms & H1 & _ & H2 & H3 & H4).
  by exists os, ms.
Qed.

Lemma month_text_ordinal (m : string) (k : Z) :
  month_ordinal m = Some k -> month_text (pad2 (String_ (Num k))).
Proof.
  intros H%ordinal_from_range. simpl in H. unfold month_text.
  assert (k = 1 \/ k = 2 \/ k = 3 \/ k = 4 \/ k = 5 \/ k = 6 \/ k = 7 \/ k = 8
          \/ k = 9 \/ k = 10 \/ k = 11 \/ k = 12) as Hk by lia.
  clear H.
  repeat (destruct Hk as [->|Hk]; [vm_compute; set_solver|]).
  subst k. vm_compute. set_solver.
Qed.

Lemma pad2_digits (d : string) :
  digits d = true ->
  all_chars is_digit (pad2 d) = true /\ (2 <= String.length (pad2 d))%nat.
Proof.
  unfold digits. intros [Hne Hd]%andb_true_iff.
  destruct d as [|a [|b d]]; [done | |].
  - rewrite pad2_short. split; [|simpl; lia].
    rewrite all_chars_cons. by rewrite andb_true_iff.
  - rewrite pad2_long by (simpl; lia). split; [done | simpl; lia].
Qed.

Lemma time_format_four_digits (s : string) :
  four_digits s = true ->
  time_format (substring 0 2 s +:+ ":" +:+ substring 2 2 s +:+ ":00Z").
Proof.
  intros (a & b & c & d & -> & H)%four_digits_inv. by exists a, b, c, d.
Qed.

(** The fields of the window of an entry. *)
Lemma window_for_format (year : number) (o : Occurrence) (k : Z * Z) :
  well_formed o = true -> month_numbers o = Some k ->
  let e := window_for year o k in
  label_format (type e)
  /\ date_format year (startDate e) /\ date_format year (endDate e)
  /\ time_format (startTime e) /\ time_format (endTime e)
  /\ startDatetime e = startDate e +:+ "T" +:+ startTime e
  /\ endDatetime e = endDate e +:+ "T" +:+ endTime e.
Proof.
  unfold well_formed. rewrite !andb_true_iff.
  intros [[[[[[[Hw Hc] Hd1] Hm1] Hd2] Hm2] Hs] He] Hk.
  unfold month_numbers in Hk.
  destruct (month_ordinal (default (month2_of o) (month1_of o))) as [k1|] eqn:E1;
    [|done].
  destruct (month_ordinal (month2_of o)) as [k2|] eqn:E2; [|done].
  injection Hk as <-. cbn [mbind option_bind window_for fst snd type startDate
    endDate startTime endTime startDatetime endDatetime].
  destruct (pad2_digits _ Hd1) as [? ?]. destruct (pad2_digits _ Hd2) as [? ?].
  split; [by exists (word_of o), (counter_of o)|].
  split; [exists (pad2 (String_ (Num k1))), (pad2 (day1_of o));
          by eauto using month_text_ordinal|].
  split; [exists (pad2 (String_ (Num k2))), (pad2 (day2_of o));
          by eauto using month_text_ordinal|].
  split; [by apply time_format_four_digits|].
  split; [by apply time_format_four_digits | done].
Qed.

(** X8. Every window [parseDetails] returns has its fields in one
    format: the label is one word, [ Launch Day] and a counter or none;
    each date is the reference year, a month from 01 to 12 and a day of
    two digits or more, with hyphens; each time is [HH:MM:00Z] in digits;
    each date-time is the date, [T] and the time.  The days are not
    checked against the month, and the end is not checked against the
    start. *)
Theorem parseDetails_window_format (details : string) (year : number) :
  exists ws log,
    parseDetails details year = Some (ws, log)
    /\ Forall (fun e =>
         label_format (type e)
         /\ date_format year (startDate e) /\ date_format year (endDate e)
         /\ time_format (startTime e) /\ time_format (endTime e)
         /\ startDatetime e = startDate e +:+ "T" +:+ startTime e
         /\ endDatetime e = endDate e +:+ "T" +:+ endTime e) ws.
Proof.
  destruct (parseDetails_entries details year) as (os & ms & _ & _ & _ & Hos & ->).
  eexists _, _. split; [done|].
  apply Forall_forall. intros e (o & Ho & He)%list_elem_of_omap.
  unfold window_by in He. apply fmap_Some in He as (k & Hk & ->).
  rewrite Forall_forall in Hos.
  exact (window_for_format year o k (Hos o Ho) Hk).
Qed.

Lemma length_omap_entries (year : number) (os : list Occurrence) :
  (length (omap (window_by year) os) + length (omap line_by os))%nat = length os.
Proof.
  induction os as [|o os IH]; [done|].
  simpl. unfold window_by at 1, line_by at 1.
  unfold omap in IH.
  destruct (month_numbers o); simpl; lia.
Qed.

Lemma length_text_of (o : Occurrence) :
  well_formed o = true -> (30 <= String.length (text_of o))%nat.
Proof.
  unfold well_formed. rewrite !andb_true_iff.
  intros [[[[[[[Hw%word_length Hc] Hd1%digits_length] Hm1] Hd2%digits_length]
             Hm2%word_length] Hs] He].
  unfold four_digits in Hs, He.
  apply andb_true_iff in Hs as [Hs%Nat.eqb_eq _].
  apply andb_true_iff in He as [He%Nat.eqb_eq _].
  unfold text_of, entry_text, label_of, date_of, time_of, label_text, date_text.
  destruct (month1_of o), (counter_of o); rewrite !length_append; simpl; lia.
Qed.

Lemma in_order_room (s : string) (from : nat) (ms : list Match) :
  in_order s from ms ->
  Forall (fun m => (30 <= String.length (matched m))%nat) ms ->
  (30 * length ms <= String.length s - from)%nat.
Proof.
  revert from. induction ms as [|m ms IH]; intros from; [simpl; lia|].
  intros (H1 & H2 & H3 & H4 & H5) [Hm Hms]%Forall_cons.
  specialize (IH _ H5 Hms). simpl length. lia.
Qed.

(** X9. The entries do not overlap and none is shorter than 30
    characters: the windows returned and the lines logged are together
    at most one per 30 characters of the text; a text of fewer than 30
    characters gives no window and no line. *)
Theorem parseDetails_room (details : string) (year : number) :
  exists ws log,
    parseDetails details year = Some (ws, log)
    /\ (30 * (length ws + length log) <= String.length details)%nat
    /\ ((String.length details < 30)%nat -> ws = [] /\ log = []).
Proof.
  destruct (parseDetails_entries details year) as (os & ms & _ & Hord & Hom & Hos & ->).
  eexists _, _. split; [done|].
  assert (H : (30 * length os <= String.length details)%nat).
  { rewrite (Forall2_length _ _ _ Hom).
    pose proof (in_order_room details 0 ms Hord) as Hr.
    rewrite Nat.sub_0_r in Hr. apply Hr.
    clear Hr Hord. induction Hom as [|o m os ms [Hm _] _ IH]; [constructor|].
    apply Forall_cons in Hos as [Ho Hos].
    constructor; [rewrite Hm; by apply length_text_of | by apply IH]. }
  rewrite length_omap_entries. split; [done|].
  intros Hshort. destruct os as [|o os]; [done|]. simpl in H. lia.
Qed.

(** ** The pipeline: one record's failure, and what is never done *)

(** X10. One record's store failure does not stop the loop: whatever
    calls of [replaceOne] fail, every row is processed, each row uses up
    one call, and the store ends as if exactly the rows whose own call
    succeeded had been upserted, enriched, in their order; for each row
    whose call failed the error is logged with the identity of the row. *)
Theorem processAll_isolates_failures (getUTCFullYear : string -> number)
    (rows : list Advisory) (st : State) :
  exists lines,
    processAll getUTCFullYear rows st =
      Some {| stored := ingest (enriched getUTCFullYear <$> accepted rows (faults st))
                          (stored st);
              faults := skipn (length rows) (faults st);
              console := console st ++ lines |}
    /\ forall i a e, rows !! i = Some a -> faults st !! i = Some (Some e) ->
         ("Error processing advisory " +:+ id_text a +:+ ": " +:+ message e) ∈ lines.
Proof. apply processAll_accepted. Qed.

(** ** The store under any batch *)

Lemma replaceFirst_Some (key : Z) (a : Advisory) (c : Collection) :
  key ∈ ids c -> is_Some (replaceFirst key a c).
Proof.
  induction c as [|d c IH]; [by intros ?%elem_of_nil|].
  unfold ids. rewrite fmap_cons, elem_of_cons. intros Hin. simpl. unfold matches.
  destruct (Z.eqb_spec (advisoryid (doc d)) key) as [E|E]; [by eexists|].
  destruct Hin as [?|Hin]; [congruence|].
  destruct (IH Hin) as [c' ->]. by eexists.
Qed.

Lemma grows_refl (P : Advisory -> Prop) (c : Collection) : grows P c c.
Proof.
  exists c, []. rewrite app_nil_r. split; [done|]. split; [|done].
  induction c; constructor; [|done]. unfold kept. by auto.
Qed.

Lemma kept_trans (P : Advisory -> Prop) (d1 d2 d3 : Document) :
  kept P d1 d2 -> kept P d2 d3 -> kept P d1 d3.
Proof.
  unfold kept. intros (I1 & K1 & H1) (I2 & K2 & H2).
  split; [congruence|]. split; [congruence|].
  destruct H2 as [->|H2]; [done | by right].
Qed.

Lemma grows_trans (P : Advisory -> Prop) (c1 c2 c3 : Collection) :
  grows P c1 c2 -> grows P c2 c3 -> grows P c1 c3.
Proof.
  intros (a1 & b1 & -> & Ha1 & Hb1) (a2 & b2 & -> & Ha2 & Hb2).
  apply Forall2_app_inv_l in Ha2 as (a2' & b2' & Ha2' & Hb2' & ->).
  exists a2', (b2' ++ b2). split; [by rewrite app_assoc|]. split.
  - clear - Ha1 Ha2'. revert a2' Ha2'.
    induction Ha1 as [|x y l k Hxy _ IH]; intros a2' Ha2'.
    + by apply Forall2_nil_inv_l in Ha2' as ->.
    + apply Forall2_cons_inv_l in Ha2' as (z & k' & Hyz & Hk' & ->).
      constructor; [by eapply kept_trans | by apply IH].
  - apply Forall_app. split; [|done].
    clear - Hb1 Hb2'. revert b2' Hb2'.
    induction Hb1 as [|y k Hy _ IH]; intros b2' Hb2'.
    + by apply Forall2_nil_inv_l in Hb2' as ->.
    + apply Forall2_cons_inv_l in Hb2' as (z & k' & Hyz & Hk' & ->).
      constructor; [|by apply IH].
      destruct Hyz as (_ & _ & [->|Hz]); done.
Qed.

Lemma replaceFirst_kept (P : Advisory -> Prop) (a : Advisory) (c c' : Collection) :
  P a -> replaceFirst (advisoryid a) a c = Some c' -> Forall2 (kept P) c c'.
Proof.
  intros Ha. revert c'. induction c as [|d c IH]; intros c'; [done|].
  simpl. unfold matches.
  destruct (Z.eqb_spec (advisoryid (doc d)) (advisoryid a)) as [E|E].
  - intros [= <-]. constructor.
    + unfold kept. simpl. by auto.
    + destruct (grows_refl P c) as (c1 & c2 & Hc & H1 & _).
      apply Forall2_same_length_lookup. split; [done|].
      intros i x y Hx Hy. unfold kept. by simplify_eq; auto.
  - destruct (replaceFirst (advisoryid a) a c) as [c''|]; [|done].
    intros [= <-]. constructor; [|by apply IH].
    unfold kept. by auto.
Qed.

Lemma upsert_grows (P : Advisory -> Prop) (a : Advisory) (c : Collection) :
  P a -> grows P c (upsert a c).
Proof.
  intros Ha. unfold upsert, replaceOne.
  destruct (replaceFirst (advisoryid a) a c) as [c'|] eqn:E; cbn [fst].
  - exists c', []. rewrite app_nil_r. split; [done|]. split; [|done].
    by eapply replaceFirst_kept.
  - destruct (grows_refl P c) as (c1 & c2 & Hc & H1 & H2).
    exists c, [{| _id := fresh c; doc := a |}]. split; [done|]. split.
    + apply Forall2_same_length_lookup. split; [done|].
      intros i x y Hx Hy. unfold kept. by simplify_eq; auto.
    + by constructor.
Qed.

Lemma ingest_grows (P : Advisory -> Prop) (es : list Advisory) (c : Collection) :
  Forall P es -> grows P c (ingest es c).
Proof.
  revert c. induction es as [|a es IH]; intros c Hes; [by apply grows_refl|].
  apply Forall_cons in Hes as [Ha Hes]. simpl.
  eapply grows_trans; [by apply upsert_grows | by apply IH].
Qed.

Lemma elem_of_accepted (rows : list Advisory) (fs : list (option exn)) (a : Advisory) :
  a ∈ accepted rows fs -> a ∈ rows.
Proof.
  revert fs. induction rows as [|b rows IH]; intros fs; [done|].
  cbn [accepted]. destruct fs as [|[e|] fs]; rewrite ?elem_of_cons;
    intros H; try (destruct H as [->|H]; [by left|]); right; by eapply IH.
Qed.

Lemma fetchAndProcessAdvisories_grows (Y : string -> number) (w : World) (st : State) :
  exists st',
    fetchAndProcessAdvisories Y w st = Some st'
    /\ grows (written Y w) (stored st) (stored st').
Proof.
  unfold fetchAndProcessAdvisories.
  destruct (upstream w) as [rows|e] eqn:Eu.
  - destruct (processAll_accepted Y (List.filter relevant rows) st) as (lines & -> & _).
    eexists. split; [done|]. cbn [stored].
    apply ingest_grows, Forall_forall. intros x Hx.
    apply list_elem_of_fmap in Hx as (a & -> & Ha).
    apply elem_of_accepted, list_elem_of_In, filter_In in Ha as [Ha Hr].
    exists rows, a. by apply list_elem_of_In in Ha.
  - eexists. split; [done|]. apply grows_refl.
Qed.

(** X11. The write trigger never deletes a stored document nor moves it:
    whatever the upstream sends and whichever store calls fail, every
    document of the collection is afterwards at the same position, with
    the same [_id] and the same advisory identity, either unchanged or
    holding the enrichment of a relevant upstream row; and the documents
    added behind them all hold enrichments of relevant upstream rows. *)
Theorem handler_keeps_documents (getUTCFullYear : string -> number)
    (MongoClient : string -> option exn) (method : string) (w : World) (srv : Server) :
  exists out,
    handler getUTCFullYear MongoClient method w srv = Some out
    /\ let c := collection "advisories_db" "starship_advisories" srv in
       let c' := collection "advisories_db" "starship_advisories" (server out) in
       (forall i d, c !! i = Some d ->
          exists d', c' !! i = Some d'
            /\ _id d' = _id d
            /\ advisoryid (doc d') = advisoryid (doc d)
            /\ (d' = d \/ written getUTCFullYear w (doc d')))
       /\ (forall i d', c' !! i = Some d' -> (length c <= i)%nat ->
             written getUTCFullYear w (doc d')).
Proof.
  assert (Hg : forall c c', grows (written getUTCFullYear w) c c' ->
    (forall i d, c !! i = Some d ->
       exists d', c' !! i = Some d' /\ _id d' = _id d
         /\ advisoryid (doc d') = advisoryid (doc d)
         /\ (d' = d \/ written getUTCFullYear w (doc d')))
    /\ (forall i d', c' !! i = Some d' -> (length c <= i)%nat ->
          written getUTCFullYear w (doc d'))).
  { intros c c' (c1 & c2 & -> & H1 & H2). split.
    - intros i d Hd.
      destruct (Forall2_lookup_l _ _ _ _ _ H1 Hd) as (d' & Hd' & Hk).
      exists d'. split; [by apply lookup_app_l_Some|]. exact Hk.
    - intros i d' Hd' Hi. rewrite (Forall2_length _ _ _ H1) in Hi.
      apply lookup_app_Some in Hd' as [Hd'|[_ Hd']].
      + apply lookup_lt_Some in Hd'. lia.
      + rewrite Forall_forall in H2. apply H2. by eapply list_elem_of_lookup_2. }
  unfold handler.
  destruct (String.eqb method "OPTIONS");
    [eexists; split; [done|]; by apply Hg, grows_refl|].
  destruct (MONGODB_URI w) as [[|c0 uri]|];
    [eexists; split; [done|]; by apply Hg, grows_refl | |
     eexists; split; [done|]; by apply Hg, grows_refl].
  destruct (MongoClient (String c0 uri));
    [eexists; split; [done|]; by apply Hg, grows_refl|].
  unfold handler_try.
  destruct (connectFault w);
    [eexists; split; [done|]; by apply Hg, grows_refl|].
  destruct (String.eqb method "POST");
    [|eexists; split; [done|]; by apply Hg, grows_refl].
  destruct (fetchAndProcessAdvisories_grows getUTCFullYear w
              {| stored := collection "advisories_db" "starship_advisories" srv;
                 faults := replaceFaults w; console := [] |}) as (st & -> & Hst).
  eexists. split; [done|].
  cbn [server respond finally_close]. rewrite collection_store. by apply Hg.
Qed.

(** ** Looking an identity up after a batch *)

Lemma replaceFirst_None (key : Z) (a : Advisory) (c : Collection) :
  replaceFirst key a c = None -> key ∉ ids c.
Proof.
  intros E Hin. apply (replaceFirst_Some key a) in Hin as [c' Hc'].
  by rewrite E in Hc'.
Qed.

Lemma findOne_absent (key : Z) (c : Collection) :
  key ∉ ids c -> findOne key c = None.
Proof.
  induction c as [|d c IH]; [done|].
  unfold ids. rewrite fmap_cons, not_elem_of_cons. intros [Hd Hc].
  unfold findOne. simpl. unfold matches at 1.
  destruct (Z.eqb_spec (advisoryid (doc d)) key); [congruence|]. by apply IH.
Qed.

Lemma findOne_replaceFirst (key : Z) (a : Advisory) (c c' : Collection) :
  replaceFirst (advisoryid a) a c = Some c' ->
  doc <$> findOne key c' =
    if advisoryid a =? key then Some a else doc <$> findOne key c.
Proof.
  revert c'. induction c as [|d c IH]; intros c'; [done|].
  simpl. unfold matches at 1.
  destruct (Z.eqb_spec (advisoryid (doc d)) (advisoryid a)) as [E|E].
  - intros [= <-]. unfold findOne. simpl. unfold matches at 1 3. simpl.
    rewrite E. by destruct (advisoryid a =? key).
  - destruct (replaceFirst (advisoryid a) a c) as [c''|]; [|done].
    intros [= <-]. unfold findOne. simpl. unfold matches at 1 3.
    destruct (Z.eqb_spec (advisoryid (doc d)) key) as [K|K].
    + destruct (Z.eqb_spec (advisoryid a) key); [congruence | done].
    + by apply IH.
Qed.

Lemma findOne_app (key : Z) (c1 c2 : Collection) :
  findOne key (c1 ++ c2) =
    match findOne key c1 with
    | Some d => Some d
    | None => findOne key c2
    end.
Proof.
  unfold findOne. induction c1 as [|d c1 IH]; [done|].
  simpl. by destruct (matches key d).
Qed.

Lemma findOne_upsert (key : Z) (a : Advisory) (c : Collection) :
  doc <$> findOne key (upsert a c) =
    if advisoryid a =? key then Some a else doc <$> findOne key c.
Proof.
  unfold upsert, replaceOne.
  destruct (replaceFirst (advisoryid a) a c) as [c'|] eqn:E; cbn [fst].
  - by apply findOne_replaceFirst.
  - apply replaceFirst_None in E. rewrite findOne_app.
    destruct (Z.eqb_spec (advisoryid a) key) as [K|K].
    + rewrite <- K, findOne_absent by done.
      unfold findOne. simpl. unfold matches. simpl. by rewrite Z.eqb_refl.
    + destruct (findOne key c); [done|].
      unfold findOne. simpl. unfold matches. simpl.
      by destruct (Z.eqb_spec (advisoryid a) key).
Qed.

Lemma findOne_ingest (key : Z) (es : list Advisory) (c : Collection) :
  doc <$> findOne key (ingest es c) =
    match latest key es with
    | Some x => Some x
    | None => doc <$> findOne key c
    end.
Proof.
  revert c. induction es as [|a es IH]; intros c; [done|].
  simpl. rewrite IH. destruct (latest key es); [done|].
  rewrite findOne_upsert. by destruct (advisoryid a =? key).
Qed.

Lemma latest_enriched (Y : string -> number) (key : Z) (es : list Advisory) :
  latest key (enriched Y <$> es) = enriched Y <$> latest key es.
Proof.
  induction es as [|a es IH]; [done|].
  rewrite fmap_cons. simpl. rewrite IH. destruct (latest key es); [done|].
  change (advisoryid (enriched Y a)) with (advisoryid a).
  by destruct (advisoryid a =? key).
Qed.

(** X12. The last write wins: after the loop over a batch, the first
    document the filter of an identity selects holds the enrichment of
    the last row of that identity whose store call did not fail, and,
    when the batch has no such row, what it held before. *)
Theorem processAll_last_write_wins (getUTCFullYear : string -> number)
    (rows : list Advisory) (st : State) (key : Z) :
  exists st',
    processAll getUTCFullYear rows st = Some st'
    /\ doc <$> findOne key (stored st') =
         match latest key (accepted rows (faults st)) with
         | Some a => Some (enriched getUTCFullYear a)
         | None => doc <$> findOne key (stored st)
         end.
Proof.
  destruct (processAll_accepted getUTCFullYear rows st) as (lines & -> & _).
  eexists. split; [done|]. cbn [stored].
  rewrite findOne_ingest, latest_enriched.
  by destruct (latest key (accepted rows (faults st))).
Qed.

(** X13. Each record of the loop logs, after the warnings of its details,
    exactly one line: the store error when its call fails, [Updated] when
    a document of its identity was stored, [Inserted] when none was.  The
    line [No action] is never logged. *)
Theorem processAdvisory_reports (getUTCFullYear : string -> number)
    (a : Advisory) (st : State) :
  exists parsed warnings st',
    parseDetails (details a) (getUTCFullYear (advisorystarttime a)) =
      Some (parsed, warnings)
    /\ processAdvisory getUTCFullYear a st = Some st'
    /\ console st' =
         console st ++ warnings ++
         [match faults st with
          | Some e :: _ =>
              "Error processing advisory " +:+ id_text a +:+ ": " +:+ message e
          | _ =>
              if bool_decide (advisoryid a ∈ ids (stored st))
              then "Updated advisory " +:+ id_text a
              else "Inserted advisory " +:+ id_text a
          end].
Proof.
  unfold processAdvisory.
  destruct (parseDetails_total (details a) (getUTCFullYear (advisorystarttime a)))
    as (parsed & warnings & E).
  exists parsed, warnings. rewrite E. cbn [mbind option_bind].
  unfold awaitReplaceOne. cbn [faults stored console].
  change (advisoryid (enrich a parsed)) with (advisoryid a).
  change (id_text (enrich a parsed)) with (id_text a).
  unfold replaceOne.
  assert (Hu : forall c', replaceFirst (advisoryid a) (enrich a parsed) (stored st) = Some c' ->
            bool_decide (advisoryid a ∈ ids (stored st)) = true).
  { intros c' Er. apply bool_decide_eq_true_2.
    destruct (decide (advisoryid a ∈ ids (stored st))) as [|Hn]; [done|].
    by rewrite (replaceFirst_absent _ _ _ Hn) in Er. }
  assert (Hi : replaceFirst (advisoryid a) (enrich a parsed) (stored st) = None ->
            bool_decide (advisoryid a ∈ ids (stored st)) = false).
  { intros Er. apply bool_decide_eq_false_2. by eapply replaceFirst_None. }
  destruct (replaceFirst (advisoryid a) (enrich a parsed) (stored st)) as [c'|];
    [rewrite (Hu c' eq_refl) | rewrite (Hi eq_refl)];
    destruct (faults st) as [|[e|] fs];
    (eexists; split; [done|]; split; [done|]; cbn; by rewrite <- app_assoc).
Qed.

(** ** The answers of the two endpoints *)

Lemma handler_try_answer (Y : string -> number) (method : string) (w : World)
    (srv : Server) :
  exists out,
    handler_try Y method w srv = Some out
    /\ closing out = None
    /\ answer out =
         match connectFault w with
         | Some e =>
             Ok {| status := 500; body := Message ("Server error: " +:+ message e) |}
         | None =>
             if String.eqb method "POST"
             then Ok {| status := 200; body := Message "Advisories processed" |}
             else Ok {| status := 405; body := Message "Method not allowed" |}
         end
    /\ (server out <> srv -> method = "POST" /\ connectFault w = None).
Proof.
  unfold handler_try.
  destruct (connectFault w); [by eexists|].
  destruct (String.eqb_spec method "POST"); [|by eexists].
  destruct (fetchAndProcessAdvisories_total Y w
              {| stored := collection "advisories_db" "starship_advisories" srv;
                 faults := replaceFaults w; console := [] |}) as (st & ->).
  cbn [mbind option_bind]. by eexists.
Qed.

Lemma handler_answer (Y : string -> number) (N : string -> option exn)
    (method : string) (w : World) (srv : Server) :
  exists out,
    handler Y N method w srv = Some out
    /\ answer out =
         if String.eqb method "OPTIONS" then Ok {| status := 200; body := End_ |}
         else match MONGODB_URI w with
              | None | Some EmptyString => Throw (Error "MONGODB_URI is not defined")
              | Some uri =>
                  match N uri with
                  | Some e => Throw e
                  | None =>
                      match connectFault w with
                      | Some e =>
                          Ok {| status := 500;
                                body := Message ("Server error: " +:+ message e) |}
                      | None =>
                          if String.eqb method "POST"
                          then Ok {| status := 200;
                                     body := Message "Advisories processed" |}
                          else Ok {| status := 405;
                                     body := Message "Method not allowed" |}
                      end
                  end
              end.
Proof.
  unfold handler.
  destruct (String.eqb method "OPTIONS"); [by eauto|].
  destruct (MONGODB_URI w) as [[|c0 uri]|]; [by eauto | | by eauto].
  destruct (N (String c0 uri)); [by eauto|].
  destruct (handler_try_answer Y method w srv) as (out & -> & _ & Ha & _).
  eexists. split; [done|]. exact Ha.
Qed.

(** X14. The answer of the write trigger tells nothing of the ingestion:
    two invocations with the same method, the same connection string and
    the same outcome of the connection send the same answer, whatever
    the upstream returns, whichever store calls fail and whatever the
    collections hold. *)
Theorem handler_answer_independent (getUTCFullYear : string -> number)
    (MongoClient : string -> option exn)
    (method : string) (w w' : World) (srv srv' : Server) :
  MONGODB_URI w = MONGODB_URI w' ->
  connectFault w = connectFault w' ->
  exists out out',
    handler getUTCFullYear MongoClient method w srv = Some out
    /\ handler getUTCFullYear MongoClient method w' srv' = Some out'
    /\ answer out = answer out'.
Proof.
  intros Hu Hc.
  destruct (handler_answer getUTCFullYear MongoClient method w srv) as (out & Ho & Ha).
  destruct (handler_answer getUTCFullYear MongoClient method w' srv')
    as (out' & Ho' & Ha').
  exists out, out'. split; [done|]. split; [done|].
  by rewrite Ha, Ha', Hu, Hc.
Qed.

(** X15. An exception escapes the write trigger in three ways only.
    Before anything is stored, logged or sent: the error of the missing
    connection string, and the exception of the client's constructor,
    which stands before the [try] block.  After the answer is sent: the
    exception of [close] in the [finally] block.  No error of the
    connection, of the upstream request or of the store escapes.  The
    trigger leaves the server as it was unless the method is POST, the
    client is built and the connection succeeds, in which case it
    answers 200. *)
Theorem handler_escapes (getUTCFullYear : string -> number)
    (MongoClient : string -> option exn) (method : string) (w : World) (srv : Server) :
  exists out,
    handler getUTCFullYear MongoClient method w srv = Some out
    /\ (forall e, answer out = Throw e ->
          method <> "OPTIONS"
          /\ ((MONGODB_URI w = None \/ MONGODB_URI w = Some EmptyString)
                /\ e = Error "MONGODB_URI is not defined"
              \/ exists uri, MONGODB_URI w = Some uri /\ MongoClient uri = Some e)
          /\ server out = srv /\ logged out = [] /\ closing out = None)
    /\ (forall e, closing out = Some e ->
          closeFault w = Some e
          /\ (exists r, answer out = Ok r)
          /\ exists uri, MONGODB_URI w = Some uri /\ MongoClient uri = None)
    /\ (forall uri, method <> "OPTIONS" -> MONGODB_URI w = Some uri -> uri <> "" ->
          MongoClient uri = None -> closing out = closeFault w)
    /\ (server out <> srv ->
          method = "POST" /\ connectFault w = None
          /\ (exists uri, MONGODB_URI w = Some uri /\ MongoClient uri = None)
          /\ answer out = Ok {| status := 200; body := Message "Advisories processed" |}).
Proof.
  unfold handler.
  destruct (String.eqb_spec method "OPTIONS") as [->|Hm].
  { eexists. split; [done|]. split; [done|]. split; [done|]. split; done. }
  destruct (MONGODB_URI w) as [[|c0 uri]|] eqn:Eu.
  - eexists. split; [done|]. split; [|split; [done|split; [|done]]].
    + intros e [= <-]. by auto 10.
    + by intros ? _ [= <-].
  - destruct (MongoClient (String c0 uri)) as [e0|] eqn:Ec.
    + eexists. split; [done|]. split; [|split; [done|split; [|done]]].
      * intros e [= <-]. split; [done|]. split; [by eauto|]. done.
      * intros ? _ [= <-] _ Hn. by rewrite Ec in Hn.
    + destruct (handler_try_answer getUTCFullYear method w srv)
        as (out & -> & Hcl & Ha & Hs).
      eexists. split; [done|].
      cbn [fmap option_fmap option_map finally_close answer server logged closing].
      split; [|split; [|split]].
      * intros e He. rewrite Ha in He.
        destruct (connectFault w); [done|]. by destruct (String.eqb method "POST").
      * intros e He. split; [done|]. split; [|by eauto].
        rewrite Ha. destruct (connectFault w); [by eauto|].
        destruct (String.eqb method "POST"); by eauto.
      * done.
      * intros Hne. destruct (Hs Hne) as [-> Hc].
        split; [done|]. split; [done|]. split; [by eauto|]. by rewrite Ha, Hc.
  - eexists. split; [done|]. split; [|split; [done|split; done]].
    intros e [= <-]. by auto 10.
Qed.

(** X16. The read endpoint only reads: it logs nothing and leaves the
    server as it was.  An exception escapes it in two ways only: the
    exception of the client's constructor, which stands before the [try]
    block, and then no answer is sent; the exception of [close] in the
    [finally] block, after the answer is sent.  An answer it sends has
    status 200, 405 or 500, and it sends documents only in answer to a
    GET whose client is built and whose connection and query succeed, and
    then all the documents of [danielmillar.faa_advisories], in their
    order, with status 200. *)
Theorem advisories_handler_reads_only (MongoClient : string -> option exn)
    (method : string) (w : World) (srv : Server) :
  let out := advisories_handler MongoClient method w srv in
  server out = srv
  /\ logged out = []
  /\ (forall e, answer out = Throw e ->
        method = "GET" /\ closing out = None
        /\ exists uri, MONGODB_URI w = Some uri /\ MongoClient uri = Some e)
  /\ (forall e, closing out = Some e ->
        method = "GET" /\ closeFault w = Some e
        /\ (exists r, answer out = Ok r)
        /\ exists uri, MONGODB_URI w = Some uri /\ MongoClient uri = None)
  /\ (forall uri, method = "GET" -> MONGODB_URI w = Some uri -> uri <> "" ->
        MongoClient uri = None -> closing out = closeFault w)
  /\ (forall r, answer out = Ok r ->
        status r ∈ [200; 405; 500]
        /\ forall ds, body r = Advisories ds ->
             method = "GET" /\ status r = 200
             /\ connectFault w = None /\ findFault w = None
             /\ (exists uri, MONGODB_URI w = Some uri /\ MongoClient uri = None)
             /\ ds = collection "danielmillar" "faa_advisories" srv).
Proof.
  unfold advisories_handler.
  assert (Hsent : forall code msg,
    let out := respond code (Message msg) srv [] in
    code ∈ [200; 405; 500] ->
    server out = srv /\ logged out = []
    /\ (forall e, answer out = Throw e ->
          method = "GET" /\ closing out = None
          /\ exists uri, MONGODB_URI w = Some uri /\ MongoClient uri = Some e)
    /\ (forall e, closing out = Some e ->
          method = "GET" /\ closeFault w = Some e
          /\ (exists r, answer out = Ok r)
          /\ exists uri, MONGODB_URI w = Some uri /\ MongoClient uri = None)
    /\ (forall r, answer out = Ok r ->
          status r ∈ [200; 405; 500]
          /\ forall ds, body r = Advisories ds ->
               method = "GET" /\ status r = 200
               /\ connectFault w = None /\ findFault w = None
               /\ (exists uri, MONGODB_URI w = Some uri /\ MongoClient uri = None)
               /\ ds = collection "danielmillar" "faa_advisories" srv)).
  { intros code msg out Hc. split; [done|]. split; [done|]. split; [done|].
    split; [done|]. intros r [= <-]. by split. }
  destruct (String.eqb_spec method "OPTIONS") as [->|Ho].
  { split; [done|]. split; [done|]. split; [done|]. split; [done|]. split; [done|].
    intros r [= <-]. split; [by repeat constructor | done]. }
  destruct (String.eqb_spec method "GET") as [->|Hg]; cbn [negb].
  2:{ destruct (Hsent 405 "Method Not Allowed") as (H1 & H2 & H3 & H4 & H5);
        [by repeat constructor|].
      split; [done|]. split; [done|]. split; [done|]. split; [done|]. split; done. }
  destruct (MONGODB_URI w) as [[|c0 uri]|] eqn:Eu.
  - destruct (Hsent 500 "MONGODB_URI is not defined") as (H1 & H2 & H3 & H4 & H5);
      [by repeat constructor|].
    split; [done|]. split; [done|]. split; [done|]. split; [done|].
    split; [by intros ? _ [= <-]|]. done.
  - destruct (MongoClient (String c0 uri)) as [e0|] eqn:Ec.
    + split; [done|]. split; [done|]. split; [|split; [done|split; [|done]]].
      * intros e [= <-]. by eauto.
      * intros ? _ [= <-] _ Hn. by rewrite Ec in Hn.
    + assert (Hr : forall r, answer (respond 500 (Message r) srv []) = Ok
                     {| status := 500; body := Message r |}) by done.
      destruct (connectFault w) as [e1|], (findFault w) as [e2|];
        cbn [finally_close respond answer server logged closing];
        (split; [done|]); (split; [done|]); (split; [done|]);
        (split; [intros e He; by eauto 10|]); (split; [done|]);
        intros r [= <-]; (split; [by repeat constructor|]); cbn [body status];
        intros ds Hds; simplify_eq; by eauto 10.
  - destruct (Hsent 500 "MONGODB_URI is not defined") as (H1 & H2 & H3 & H4 & H5);
      [by repeat constructor|].
    split; [done|]. split; [done|]. split; [done|]. split; [done|]. split; done.
Qed.

Lemma advisories_handler_server (N : string -> option exn) (method : string)
    (w : World) (srv : Server) :
  server (advisories_handler N method w srv) = srv.
Proof.
  unfold advisories_handler.
  destruct (String.eqb method "OPTIONS"); [done|].
  destruct (negb (String.eqb method "GET")); [done|].
  destruct (MONGODB_URI w) as [[|c0 uri]|]; [done | | done].
  destruct (N (String c0 uri)); [done|].
  by destruct (connectFault w), (findFault w).
Qed.

(** X17. No run of invocations of the two endpoints, in any order and
    under any surroundings, changes a collection other than
    [advisories_db.starship_advisories]: after the run the read endpoint
    answers every request as it did before it. *)
Theorem run_keeps_other_collections (getUTCFullYear : string -> number)
    (MongoClient : string -> option exn) (calls : list Call) (srv : Server) :
  exists srv',
    run getUTCFullYear MongoClient calls srv = Some srv'
    /\ (forall db name, (db, name) <> ("advisories_db", "starship_advisories") ->
          collection db name srv' = collection db name srv)
    /\ (forall method w,
          answer (advisories_handler MongoClient method w srv') =
            answer (advisories_handler MongoClient method w srv)).
Proof.
  assert (H : exists srv',
    run getUTCFullYear MongoClient calls srv = Some srv'
    /\ forall db name, (db, name) <> ("advisories_db", "starship_advisories") ->
         collection db name srv' = collection db name srv).
  { revert srv. induction calls as [|[m w|m w] calls IH]; intros srv.
    - by exists srv.
    - cbn [run].
      destruct (handler_writes_one_collection getUTCFullYear MongoClient m w srv)
        as (out & -> & Hout).
      cbn [mbind option_bind]. destruct (IH (server out)) as (srv' & -> & Hsrv').
      exists srv'. split; [done|]. intros db name Hne.
      by rewrite Hsrv', Hout.
    - cbn [run]. rewrite advisories_handler_server. apply IH. }
  destruct H as (srv' & Hrun & Hsrv'). exists srv'. split; [done|]. split; [done|].
  intros method w. by apply advisories_handler_answer, Hsrv'.
Qed.

(** ** The year of both dates *)





Lemma handler_answer_independent_witness :
  exists out out',
    handler (fun _ => Num 2024) (fun _ => None) "POST" quiet ∅ = Some out
    /\ handler (fun _ => Num 2024) (fun _ => None) "POST" failing ∅ = Some out'
    /\ answer out = answer out'.
Proof.
  apply (handler_answer_independent (fun _ => Num 2024) (fun _ => None) "POST"
           quiet failing ∅ ∅); reflexivity.
Defined.
